(** * AnalysisConsumer: the analysis-scheduling driver of the static analyzer

    A shallow embedding of [AnalysisConsumer.cpp]: the declaration
    collector, the mode resolver, the two scheduling passes, the engine
    invoker and the run statistics, then the diagnostic consumer that
    reports through the compiler's diagnostics and the graph visualizer,
    followed by the properties the design document states about them and
    further properties of the code.

    Conventions of the embedding.
    - A declaration pointer is identified by a [DeclID]; the sets of
      declaration pointers ([SetOfConstDecls]) are [gset DeclID].
    - C++ [unsigned] values are integers in [Z], reduced modulo [2^32]
      wherever the code performs arithmetic on them.
    - The member functions of [AnalysisConsumer] run in a state-and-error
      monad over the consumer's fields; a failed [assert] and an access
      outside a container are the two errors of the program.
    - Collaborators that live outside this file (source manager, checker
      manager, control-flow graphs, the symbolic-execution engine, the call
      graph) are fields of [Collaborators]; their observable calls are
      recorded as [Event]s in the consumer's [Trace]. *)

From Stdlib Require Import ZArith String Ascii.
From stdpp Require Import base gmap sets list strings pretty.

Local Open Scope Z_scope.

(** ** Machine integers *)

Definition UNSIGNED_BITS : Z := 32.

(** The value an [unsigned] holds after an arithmetic result [z]. *)
Definition to_unsigned (z : Z) : Z := z mod 2 ^ UNSIGNED_BITS.

(** ** Declarations *)

Definition DeclID := positive.

(** Modelled from the spec: the method-family enumeration of
    [IdentifierTable.h] is not part of the sources; the design document
    describes it as a finite enumerated naming-convention tag of which only
    the initializer family is distinguished. *)
Inductive ObjCMethodFamily :=
| OMF_None | OMF_alloc | OMF_copy | OMF_init | OMF_mutableCopy | OMF_new
| OMF_autorelease | OMF_dealloc | OMF_finalize | OMF_release | OMF_retain
| OMF_retainCount | OMF_self | OMF_performSelector.

#[global] Instance ObjCMethodFamily_eq_dec : EqDecision ObjCMethodFamily.
Proof. solve_decision. Defined.

(** A [SourceLocation] is its raw encoding; the encoding 0 is the invalid
    location. *)
Definition SourceLocation := Z.

Definition SourceLocation_isInvalid (SL : SourceLocation) : bool := SL =? 0.

(** The dynamic class of a declaration, with the attributes the consumer
    reads from each class.  [Identifier] is [None] when
    [FunctionDecl::getIdentifier] is null (operators, constructors). *)
Inductive DeclKind :=
| FunctionDecl (Identifier : option string)
               (isThisDeclarationADefinition isDependentContext : bool)
| ObjCMethodDecl (Selector : string) (MethodFamily : ObjCMethodFamily)
                 (isThisDeclarationADefinition : bool)
| BlockDecl
| OtherDecl.

(** A declaration together with the declarations the recursive visitor
    reaches below it (the methods of a container, the blocks of a body). *)
#[warnings="-register-all"]
Inductive Decl := MkDecl {
  declID : DeclID;
  declKind : DeclKind;
  hasBody : bool;
  getLocation : SourceLocation;
  nestedDecls : list Decl
}.

Definition isa_ObjCMethodDecl (D : Decl) : bool :=
  match declKind D with ObjCMethodDecl _ _ _ => true | _ => false end.

Definition isa_FunctionDecl (D : Decl) : bool :=
  match declKind D with FunctionDecl _ _ _ => true | _ => false end.

Definition isa_BlockDecl (D : Decl) : bool :=
  match declKind D with BlockDecl => true | _ => false end.

Definition DeclGroupRef := list Decl.
Definition SetOfConstDecls := gset DeclID.

(** ** Modes *)

Definition AnalysisMode := Z.
Definition AM_None : AnalysisMode := 0.
Definition AM_Syntax : AnalysisMode := 1.
Definition AM_Path : AnalysisMode := 2.

(** Modelled from the spec: [ExprEngine::InliningModes] is declared outside
    the sources, which name its two values; the design document gives the
    inlining mode as one of None and All. *)
Inductive InliningModes := Inline_None | Inline_All.

#[global] Instance InliningModes_eq_dec : EqDecision InliningModes.
Proof. solve_decision. Defined.

(** Modelled from the spec: the type of [AnalyzerOptions::InliningMode] is
    declared outside the sources, which name its value [All]; the design
    document distinguishes the configuration that always inlines without
    pruning by the visited set ([All]) from the one that prunes
    ([NoRedundancy]). *)
Inductive AnalysisInliningMode := All | NoRedundancy.

#[global] Instance AnalysisInliningMode_eq_dec : EqDecision AnalysisInliningMode.
Proof. solve_decision. Defined.

(** The three collector assumptions [RunPathSensitiveChecks] switches on. *)
Inductive GCMode := NonGC | GCOnly | HybridGC.

(** ** Configuration and collaborators *)

(** The options the consumer reads.  [shouldInlineCall] is the answer of
    [AnalysisManager::shouldInlineCall], which the manager derives from the
    options. *)
Record AnalyzerOptions := {
  AnalyzeSpecificFunction : string;
  AnalyzeAll : bool;
  AnalyzerDisplayProgress : bool;
  InliningMode : AnalysisInliningMode;
  shouldInlineCall : bool
}.

(** The presumed location of a source location ([getPresumedLoc]) is given
    by its validity, file name, line and column. *)
Record SourceManager := {
  getExpansionLoc : SourceLocation -> SourceLocation;
  isFromMainFile : SourceLocation -> bool;
  isInSystemHeader : SourceLocation -> bool;
  PresumedLoc_isValid : SourceLocation -> bool;
  PresumedLoc_getFilename : SourceLocation -> string;
  PresumedLoc_getLine : SourceLocation -> Z;
  PresumedLoc_getColumn : SourceLocation -> Z
}.

Record CFG := { CFG_size : Z }.

(** Modelled from the spec: [FunctionSummary.h] is not part of the sources;
    the design document describes a function summary as the per-declaration
    total and visited basic-block counts. *)
Record FunctionSummary := {
  TotalBasicBlocks : Z;
  NumVisitedBasicBlocks : Z
}.

Definition FunctionSummariesTy := gmap DeclID FunctionSummary.

Definition CallGraphNode := option Decl.

Record Collaborators := {
  Opts : AnalyzerOptions;
  SM : SourceManager;
  getGC : GCMode;
  hasErrorOccurred : bool;
  hasFatalErrorOccurred : bool;
  TranslationUnitDecl : DeclID;
  hasPathSensitiveCheckers : bool;
  getCFG : Decl -> option CFG;
  RelaxedLiveVariables : Decl -> bool;
  (* The text [operator<<] writes for a named declaration. *)
  printName : Decl -> string;
  (* One run of the engine's worklist on a root: the callees whose inlined
     exploration it completed, and the summaries it leaves behind. *)
  ExecuteWorkList :
    FunctionSummariesTy -> Decl -> bool -> InliningModes ->
    SetOfConstDecls * FunctionSummariesTy;
  (* The call graph and its reverse post-order; [None] is the root node. *)
  CallGraph : Type;
  CallGraph_new : CallGraph;
  addToCallGraph : CallGraph -> Decl -> CallGraph;
  ReversePostOrderTraversal : CallGraph -> list CallGraphNode
}.

(** The line feed character, as a string. *)
Definition EOL : string := String "010"%char EmptyString.

(** ** Observable calls *)

Inductive Event :=
| runCheckersOnASTDecl (D : DeclID)
| runCheckersOnASTBody (D : DeclID)
| ExprEngine_run (D : DeclID) (ObjCGCEnabled : bool) (IMode : InliningModes)
                 (Inlined : SetOfConstDecls)
| runCheckersOnEndOfTranslationUnit
| errs (text : string) (D : DeclID).

(** ** The consumer's state

    The fields of [AnalysisConsumer] the passes use, the five statistics of
    the file (each an [unsigned] counter), and the trace. *)

Record AnalysisConsumer := {
  RecVisitorMode : AnalysisMode;
  LocalTUDecls : list Decl;
  FunctionSummaries : FunctionSummariesTy;
  NumFunctionTopLevel : Z;
  NumFunctionsAnalyzed : Z;
  NumBlocksInAnalyzedFunctions : Z;
  PercentReachableBlocks : Z;
  MaxCFGSize : Z;
  (* Declaration groups an external AST source still has to deliver: each
     traversal step that can trigger deserialization takes the next entry
     and hands its groups to [HandleTopLevelDecl]. *)
  PendingDeserialization : list (list DeclGroupRef);
  Trace : list Event
}.

Definition set_RecVisitorMode (m : AnalysisMode) (c : AnalysisConsumer) :=
  {| RecVisitorMode := m; LocalTUDecls := LocalTUDecls c;
     FunctionSummaries := FunctionSummaries c;
     NumFunctionTopLevel := NumFunctionTopLevel c;
     NumFunctionsAnalyzed := NumFunctionsAnalyzed c;
     NumBlocksInAnalyzedFunctions := NumBlocksInAnalyzedFunctions c;
     PercentReachableBlocks := PercentReachableBlocks c;
     MaxCFGSize := MaxCFGSize c;
     PendingDeserialization := PendingDeserialization c;
     Trace := Trace c |}.

Definition set_LocalTUDecls (l : list Decl) (c : AnalysisConsumer) :=
  {| RecVisitorMode := RecVisitorMode c; LocalTUDecls := l;
     FunctionSummaries := FunctionSummaries c;
     NumFunctionTopLevel := NumFunctionTopLevel c;
     NumFunctionsAnalyzed := NumFunctionsAnalyzed c;
     NumBlocksInAnalyzedFunctions := NumBlocksInAnalyzedFunctions c;
     PercentReachableBlocks := PercentReachableBlocks c;
     MaxCFGSize := MaxCFGSize c;
     PendingDeserialization := PendingDeserialization c;
     Trace := Trace c |}.

Definition set_FunctionSummaries (f : FunctionSummariesTy) (c : AnalysisConsumer) :=
  {| RecVisitorMode := RecVisitorMode c; LocalTUDecls := LocalTUDecls c;
     FunctionSummaries := f;
     NumFunctionTopLevel := NumFunctionTopLevel c;
     NumFunctionsAnalyzed := NumFunctionsAnalyzed c;
     NumBlocksInAnalyzedFunctions := NumBlocksInAnalyzedFunctions c;
     PercentReachableBlocks := PercentReachableBlocks c;
     MaxCFGSize := MaxCFGSize c;
     PendingDeserialization := PendingDeserialization c;
     Trace := Trace c |}.

Definition set_NumFunctionTopLevel (n : Z) (c : AnalysisConsumer) :=
  {| RecVisitorMode := RecVisitorMode c; LocalTUDecls := LocalTUDecls c;
     FunctionSummaries := FunctionSummaries c;
     NumFunctionTopLevel := n;
     NumFunctionsAnalyzed := NumFunctionsAnalyzed c;
     NumBlocksInAnalyzedFunctions := NumBlocksInAnalyzedFunctions c;
     PercentReachableBlocks := PercentReachableBlocks c;
     MaxCFGSize := MaxCFGSize c;
     PendingDeserialization := PendingDeserialization c;
     Trace := Trace c |}.

Definition set_NumFunctionsAnalyzed (n : Z) (c : AnalysisConsumer) :=
  {| RecVisitorMode := RecVisitorMode c; LocalTUDecls := LocalTUDecls c;
     FunctionSummaries := FunctionSummaries c;
     NumFunctionTopLevel := NumFunctionTopLevel c;
     NumFunctionsAnalyzed := n;
     NumBlocksInAnalyzedFunctions := NumBlocksInAnalyzedFunctions c;
     PercentReachableBlocks := PercentReachableBlocks c;
     MaxCFGSize := MaxCFGSize c;
     PendingDeserialization := PendingDeserialization c;
     Trace := Trace c |}.

Definition set_NumBlocksInAnalyzedFunctions (n : Z) (c : AnalysisConsumer) :=
  {| RecVisitorMode := RecVisitorMode c; LocalTUDecls := LocalTUDecls c;
     FunctionSummaries := FunctionSummaries c;
     NumFunctionTopLevel := NumFunctionTopLevel c;
     NumFunctionsAnalyzed := NumFunctionsAnalyzed c;
     NumBlocksInAnalyzedFunctions := n;
     PercentReachableBlocks := PercentReachableBlocks c;
     MaxCFGSize := MaxCFGSize c;
     PendingDeserialization := PendingDeserialization c;
     Trace := Trace c |}.

Definition set_PercentReachableBlocks (n : Z) (c : AnalysisConsumer) :=
  {| RecVisitorMode := RecVisitorMode c; LocalTUDecls := LocalTUDecls c;
     FunctionSummaries := FunctionSummaries c;
     NumFunctionTopLevel := NumFunctionTopLevel c;
     NumFunctionsAnalyzed := NumFunctionsAnalyzed c;
     NumBlocksInAnalyzedFunctions := NumBlocksInAnalyzedFunctions c;
     PercentReachableBlocks := n;
     MaxCFGSize := MaxCFGSize c;
     PendingDeserialization := PendingDeserialization c;
     Trace := Trace c |}.

Definition set_MaxCFGSize (n : Z) (c : AnalysisConsumer) :=
  {| RecVisitorMode := RecVisitorMode c; LocalTUDecls := LocalTUDecls c;
     FunctionSummaries := FunctionSummaries c;
     NumFunctionTopLevel := NumFunctionTopLevel c;
     NumFunctionsAnalyzed := NumFunctionsAnalyzed c;
     NumBlocksInAnalyzedFunctions := NumBlocksInAnalyzedFunctions c;
     PercentReachableBlocks := PercentReachableBlocks c;
     MaxCFGSize := n;
     PendingDeserialization := PendingDeserialization c;
     Trace := Trace c |}.

Definition set_PendingDeserialization (p : list (list DeclGroupRef))
    (c : AnalysisConsumer) :=
  {| RecVisitorMode := RecVisitorMode c; LocalTUDecls := LocalTUDecls c;
     FunctionSummaries := FunctionSummaries c;
     NumFunctionTopLevel := NumFunctionTopLevel c;
     NumFunctionsAnalyzed := NumFunctionsAnalyzed c;
     NumBlocksInAnalyzedFunctions := NumBlocksInAnalyzedFunctions c;
     PercentReachableBlocks := PercentReachableBlocks c;
     MaxCFGSize := MaxCFGSize c;
     PendingDeserialization := p;
     Trace := Trace c |}.

Definition set_Trace (t : list Event) (c : AnalysisConsumer) :=
  {| RecVisitorMode := RecVisitorMode c; LocalTUDecls := LocalTUDecls c;
     FunctionSummaries := FunctionSummaries c;
     NumFunctionTopLevel := NumFunctionTopLevel c;
     NumFunctionsAnalyzed := NumFunctionsAnalyzed c;
     NumBlocksInAnalyzedFunctions := NumBlocksInAnalyzedFunctions c;
     PercentReachableBlocks := PercentReachableBlocks c;
     MaxCFGSize := MaxCFGSize c;
     PendingDeserialization := PendingDeserialization c;
     Trace := t |}.

(** ** The state-and-error monad *)

(** [OutOfFuel] belongs to the embedding of loops, not to the program. *)
Inductive Failure :=
| AssertionFailed (msg : string)
| OutOfRange
| OutOfFuel.

Inductive result (A : Type) :=
| Ok (a : A)
| Fail (e : Failure).
Arguments Ok {A} a.
Arguments Fail {A} e.

Definition M (A : Type) : Type := AnalysisConsumer -> result (A * AnalysisConsumer).

#[global] Instance M_ret : MRet M := fun A a c => Ok (a, c).
#[global] Instance M_bind : MBind M := fun A B f m c =>
  match m c with
  | Ok (a, c') => f a c'
  | Fail e => Fail e
  end.

Definition get {A} (f : AnalysisConsumer -> A) : M A := fun c => Ok (f c, c).
Definition modify (f : AnalysisConsumer -> AnalysisConsumer) : M unit :=
  fun c => Ok (tt, f c).
Definition emit (e : Event) : M unit :=
  modify (fun c => set_Trace (Trace c ++ [e]) c).
Definition assert (b : bool) (msg : string) : M unit :=
  fun c => if b then Ok (tt, c) else Fail (AssertionFailed msg).
Definition fail {A} (e : Failure) : M A := fun _ => Fail e.

(** ** Declaration collector *)

Definition push_back (D : Decl) (c : AnalysisConsumer) : AnalysisConsumer :=
  set_LocalTUDecls (LocalTUDecls c ++ [D]) c.

Fixpoint storeTopLevelDecls (DG : DeclGroupRef) : M unit :=
  match DG with
  | [] => mret tt
  | D :: Rest =>
      (* Skip ObjCMethodDecl, wait for the objc container. *)
      if isa_ObjCMethodDecl D then storeTopLevelDecls Rest
      else modify (push_back D) ;; storeTopLevelDecls Rest
  end.

Definition HandleTopLevelDecl (DG : DeclGroupRef) : M bool :=
  storeTopLevelDecls DG ;; mret true.

Definition HandleTopLevelDeclInObjCContainer (DG : DeclGroupRef) : M unit :=
  storeTopLevelDecls DG.

(** Deserialization triggered while the consumer walks a declaration: the
    AST source hands the next pending groups to [HandleTopLevelDecl]. *)
Fixpoint deliverGroups (groups : list DeclGroupRef) : M unit :=
  match groups with
  | [] => mret tt
  | DG :: rest => HandleTopLevelDecl DG ;; deliverGroups rest
  end.

Definition deliverDeserialized : M unit :=
  pending ← get PendingDeserialization;
  match pending with
  | [] => mret tt
  | groups :: rest =>
      modify (set_PendingDeserialization rest) ;; deliverGroups groups
  end.

(** [LocalTUDecls[i]]: random access into the store. *)
Definition LocalTUDecls_at (i : Z) : M Decl :=
  l ← get LocalTUDecls;
  match l !! Z.to_nat i with
  | Some D => mret D
  | None => fail OutOfRange
  end.

(** [for (unsigned i = lo; i < hi; ++i) a = body(i, a)].  The recursion is
    on [fuel], a bound on the iterations still to run; [hi - lo] is
    enough, and [for_unsigned] supplies it. *)
Fixpoint for_unsigned_from {A} (fuel : nat) (i hi : Z)
    (body : Z -> A -> M A) (a : A) : M A :=
  if i <? hi then
    match fuel with
    | O => fail OutOfFuel
    | S fuel' =>
        a' ← body i a;
        for_unsigned_from fuel' (to_unsigned (i + 1)) hi body a'
    end
  else mret a.

Definition for_unsigned {A} (hi : Z) (body : Z -> A -> M A) (a : A) : M A :=
  for_unsigned_from (Z.to_nat hi) 0 hi body a.

(** ** Scheduling decisions *)

Definition shouldSkipFunction (D : Decl)
    (Visited VisitedAsTopLevel : SetOfConstDecls) : bool :=
  if bool_decide (declID D ∈ VisitedAsTopLevel) then true
  else if isa_ObjCMethodDecl D then false
  else bool_decide (declID D ∈ Visited).

Definition getFunctionName (D : Decl) : string :=
  match declKind D with
  | ObjCMethodDecl Selector _ _ => Selector
  | FunctionDecl (Some II) _ _ => II
  | _ => ""
  end.

(** Modelled from the spec: the two sums over the function summaries are
    members of [FunctionSummariesTy], declared outside the sources; they
    add the per-declaration counts in an [unsigned] accumulator. *)
Definition getTotalNumBasicBlocks (FS : FunctionSummariesTy) : Z :=
  foldr (fun kv Total => to_unsigned (Total + TotalBasicBlocks kv.2)) 0
        (map_to_list FS).

(** Modelled from the spec: the sum of the visited counts, as above. *)
Definition getTotalNumVisitedBasicBlocks (FS : FunctionSummariesTy) : Z :=
  foldr (fun kv Total => to_unsigned (Total + NumVisitedBasicBlocks kv.2)) 0
        (map_to_list FS).

(** The locals of the call-graph loop.  [TopLevelRuns] is the history of the
    loop: each declaration handed to [HandleCode] with the contents of its
    [VisitedCallees] afterwards. *)
Record CallGraphLocals := {
  Visited : SetOfConstDecls;
  VisitedAsTopLevel : SetOfConstDecls;
  TopLevelRuns : list (Decl * SetOfConstDecls)
}.

Section Consumer.

Variable env : Collaborators.

Definition getInliningModeForFunction (D : Decl) (Visited : SetOfConstDecls)
    : M InliningModes :=
  let HowToInline :=
    if shouldInlineCall (Opts env) then Inline_All else Inline_None in
  if bool_decide (declID D ∈ Visited) then
    assert (isa_ObjCMethodDecl D) "We are only reanalyzing ObjCMethods." ;;
    match declKind D with
    | ObjCMethodDecl _ MethodFamily _ =>
        if bool_decide (MethodFamily ≠ OMF_init) then mret Inline_None
        else mret HowToInline
    | _ => mret HowToInline
    end
  else mret HowToInline.

Definition getModeForDecl (D : Decl) (Mode : AnalysisMode) : AnalysisMode :=
  if negb (String.eqb (AnalyzeSpecificFunction (Opts env)) "")
     && negb (String.eqb (getFunctionName D) (AnalyzeSpecificFunction (Opts env)))
  then AM_None
  else
    let SL := getExpansionLoc (SM env) (getLocation D) in
    if negb (AnalyzeAll (Opts env)) && negb (isFromMainFile (SM env) SL) then
      if SourceLocation_isInvalid SL || isInSystemHeader (SM env) SL
      then AM_None
      else Z.land Mode (to_unsigned (Z.lnot AM_Path))
    else Mode.

(** Each [errs] event is one operand written to [llvm::errs()]. *)
Definition DisplayFunction (D : Decl) (Mode : AnalysisMode) : M unit :=
  if negb (AnalyzerDisplayProgress (Opts env)) then mret tt
  else if PresumedLoc_isValid (SM env) (getLocation D) then
    emit (errs "ANALYZE" (declID D)) ;;
    (if Mode =? AM_Syntax then emit (errs " (Syntax)" (declID D))
     else if Mode =? AM_Path then emit (errs " (Path)" (declID D))
     else assert (Mode =? Z.lor AM_Syntax AM_Path) "Unexpected mode!") ;;
    emit (errs ": " (declID D)) ;;
    emit (errs (PresumedLoc_getFilename (SM env) (getLocation D)) (declID D)) ;;
    if isa_FunctionDecl D || isa_ObjCMethodDecl D then
      emit (errs " " (declID D)) ;;
      emit (errs (printName env D) (declID D)) ;;
      emit (errs EOL (declID D))
    else if isa_BlockDecl D then
      emit (errs " " (declID D)) ;;
      emit (errs "block(line:" (declID D)) ;;
      emit (errs (pretty (PresumedLoc_getLine (SM env) (getLocation D)))
                 (declID D)) ;;
      emit (errs ",col:" (declID D)) ;;
      emit (errs (pretty (PresumedLoc_getColumn (SM env) (getLocation D)))
                 (declID D)) ;;
      emit (errs EOL (declID D))
    else
      match declKind D with
      | ObjCMethodDecl Selector _ _ =>
          emit (errs " " (declID D)) ;; emit (errs Selector (declID D))
      | _ => mret tt
      end
  else mret tt.

(** ** Engine invoker *)

Definition ActionExprEngine (D : Decl) (ObjCGCEnabled : bool)
    (IMode : InliningModes) (VisitedCallees : option SetOfConstDecls)
    : M (option SetOfConstDecls) :=
  match getCFG env D with
  | None => mret VisitedCallees
  | Some _ =>
      if negb (RelaxedLiveVariables env D) then mret VisitedCallees
      else
        FS ← get FunctionSummaries;
        let Eng := ExecuteWorkList env FS D ObjCGCEnabled IMode in
        modify (set_FunctionSummaries Eng.2) ;;
        emit (ExprEngine_run (declID D) ObjCGCEnabled IMode Eng.1) ;;
        mret ((fun VC => VC ∪ Eng.1) <$> VisitedCallees)
  end.

Definition RunPathSensitiveChecks (D : Decl) (IMode : InliningModes)
    (Visited : option SetOfConstDecls) : M (option SetOfConstDecls) :=
  match getGC env with
  | NonGC => ActionExprEngine D false IMode Visited
  | GCOnly => ActionExprEngine D true IMode Visited
  | HybridGC =>
      Visited' ← ActionExprEngine D false IMode Visited;
      ActionExprEngine D true IMode Visited'
  end.

Definition HandleCode (D : Decl) (Mode : AnalysisMode) (IMode : InliningModes)
    (VisitedCallees : option SetOfConstDecls) : M (option SetOfConstDecls) :=
  if negb (hasBody D) then mret VisitedCallees
  else
    let Mode := getModeForDecl D Mode in
    if Mode =? AM_None then mret VisitedCallees
    else
      DisplayFunction D Mode ;;
      match getCFG env D with
      | Some DeclCFG =>
          let CFGSize := CFG_size DeclCFG in
          modify (fun c =>
            set_MaxCFGSize
              (if MaxCFGSize c <? CFGSize then CFGSize else MaxCFGSize c) c)
      | None => mret tt
      end ;;
      (if negb (Z.land Mode AM_Syntax =? 0)
       then emit (runCheckersOnASTBody (declID D)) else mret tt) ;;
      if negb (Z.land Mode AM_Path =? 0) && hasPathSensitiveCheckers env then
        VisitedCallees' ← RunPathSensitiveChecks D IMode VisitedCallees;
        (if bool_decide (IMode ≠ Inline_None)
         then modify (fun c =>
                set_NumFunctionsAnalyzed (to_unsigned (NumFunctionsAnalyzed c + 1)) c)
         else mret tt) ;;
        mret VisitedCallees'
      else mret VisitedCallees.

(** ** The recursive visitor's callbacks *)

Definition VisitDecl (D : Decl) : M bool :=
  RecVisitorMode ← get RecVisitorMode;
  let Mode := getModeForDecl D RecVisitorMode in
  (if negb (Z.land Mode AM_Syntax =? 0)
   then emit (runCheckersOnASTDecl (declID D)) else mret tt) ;;
  mret true.

Definition startswith (s prefix : string) : bool := String.prefix prefix s.

(** Each [Visit...Decl] callback is dispatched on the dynamic class of the
    declaration; on another class it is not called, and is the identity. *)
Definition VisitFunctionDecl (FD : Decl) : M bool :=
  match declKind FD with
  | FunctionDecl II isThisDeclarationADefinition isDependentContext =>
      if match II with
         | Some Name => startswith Name "__inline"
         | None => false
         end
      then mret true
      else
        (if isThisDeclarationADefinition && negb isDependentContext then
           RecVisitorMode ← get RecVisitorMode;
           assert ((RecVisitorMode =? AM_Syntax)
                   || negb (shouldInlineCall (Opts env)))
                  "RecVisitorMode == AM_Syntax || !shouldInlineCall" ;;
           HandleCode FD RecVisitorMode Inline_None None ;; mret tt
         else mret tt) ;;
        mret true
  | _ => mret true
  end.

Definition VisitObjCMethodDecl (MD : Decl) : M bool :=
  match declKind MD with
  | ObjCMethodDecl _ _ isThisDeclarationADefinition =>
      (if isThisDeclarationADefinition then
         RecVisitorMode ← get RecVisitorMode;
         assert ((RecVisitorMode =? AM_Syntax)
                 || negb (shouldInlineCall (Opts env)))
                "RecVisitorMode == AM_Syntax || !shouldInlineCall" ;;
         HandleCode MD RecVisitorMode Inline_None None ;; mret tt
       else mret tt) ;;
      mret true
  | _ => mret true
  end.

Definition VisitBlockDecl (BD : Decl) : M bool :=
  match declKind BD with
  | BlockDecl =>
      (if hasBody BD then
         RecVisitorMode ← get RecVisitorMode;
         assert ((RecVisitorMode =? AM_Syntax)
                 || negb (shouldInlineCall (Opts env)))
                "RecVisitorMode == AM_Syntax || !shouldInlineCall" ;;
         HandleCode BD RecVisitorMode Inline_None None ;; mret tt
       else mret tt) ;;
      mret true
  | _ => mret true
  end.

(** Modelled from the spec: [RecursiveASTVisitor] is not part of the
    sources.  The syntax pass walks each stored declaration and every
    declaration nested in it; on each it calls the generic callback and then
    the callback of the declaration's class, and a callback that returns
    false ends the walk.  Walking a declaration may trigger
    deserialization. *)
Definition WalkUpFromDecl (D : Decl) : M bool :=
  continue ← VisitDecl D;
  if (continue : bool) then
    match declKind D with
    | FunctionDecl _ _ _ => VisitFunctionDecl D
    | ObjCMethodDecl _ _ _ => VisitObjCMethodDecl D
    | BlockDecl => VisitBlockDecl D
    | OtherDecl => mret true
    end
  else mret false.

(** Modelled from the spec: the walk of [RecursiveASTVisitor] over a
    declaration: the callbacks on the declaration itself, then the walk
    over the declarations nested in it, in order. *)
Fixpoint TraverseDecl (D : Decl) : M bool :=
  deliverDeserialized ;;
  continue ← WalkUpFromDecl D;
  if (continue : bool) then
    (fix TraverseDecls (Ds : list Decl) : M bool :=
       match Ds with
       | [] => mret true
       | Child :: Ds' =>
           continue ← TraverseDecl Child;
           if (continue : bool) then TraverseDecls Ds' else mret false
       end) (nestedDecls D)
  else mret false.

(** ** The path-sensitive interprocedural pass *)

Definition HandleDeclsCallGraph_node (N : CallGraphNode) (L : CallGraphLocals)
    : M CallGraphLocals :=
  modify (fun c =>
    set_NumFunctionTopLevel (to_unsigned (NumFunctionTopLevel c + 1)) c) ;;
  match N with
  | None => mret L (* Skip the abstract root node. *)
  | Some D =>
      if shouldSkipFunction D (Visited L) (VisitedAsTopLevel L) then mret L
      else
        IMode ← getInliningModeForFunction D (Visited L);
        Tracked ← HandleCode D AM_Path IMode
                    (if bool_decide (InliningMode (Opts env) = All)
                     then None else Some ∅);
        let VisitedCallees : SetOfConstDecls := default ∅ Tracked in
        mret {| Visited := Visited L ∪ VisitedCallees;
                VisitedAsTopLevel := VisitedAsTopLevel L ∪ {[declID D]};
                TopLevelRuns := TopLevelRuns L ++ [(D, VisitedCallees)] |}
  end.

Fixpoint HandleDeclsCallGraph_nodes (RPOT : list CallGraphNode)
    (L : CallGraphLocals) : M CallGraphLocals :=
  match RPOT with
  | [] => mret L
  | N :: RPOT' =>
      L' ← HandleDeclsCallGraph_node N L;
      HandleDeclsCallGraph_nodes RPOT' L'
  end.

Definition buildCallGraph (LocalTUDeclsSize : Z) : M (CallGraph env) :=
  for_unsigned LocalTUDeclsSize
    (fun i CG =>
       D ← LocalTUDecls_at i;
       deliverDeserialized ;;
       mret (addToCallGraph env CG D))
    (CallGraph_new env).

(** The value returned is the loop's locals at exit (the C++ function
    returns nothing). *)
Definition HandleDeclsCallGraph (LocalTUDeclsSize : Z) : M CallGraphLocals :=
  CG ← buildCallGraph LocalTUDeclsSize;
  HandleDeclsCallGraph_nodes (ReversePostOrderTraversal env CG)
    {| Visited := ∅; VisitedAsTopLevel := ∅; TopLevelRuns := [] |}.

(** ** The translation unit *)

Definition traverseLocalTUDecls (LocalTUDeclsSize : Z) : M unit :=
  for_unsigned LocalTUDeclsSize
    (fun i _ => D ← LocalTUDecls_at i; TraverseDecl D ;; mret tt) tt.

Definition HandleTranslationUnit : M unit :=
  if hasErrorOccurred env || hasFatalErrorOccurred env then mret tt
  else
    emit (runCheckersOnASTDecl (TranslationUnitDecl env)) ;;
    modify (set_RecVisitorMode AM_Syntax) ;;
    (if negb (shouldInlineCall (Opts env))
     then modify (fun c =>
            set_RecVisitorMode (Z.lor (RecVisitorMode c) AM_Path) c)
     else mret tt) ;;
    LocalTUDeclsSize ←
      get (fun c => to_unsigned (Z.of_nat (length (LocalTUDecls c))));
    traverseLocalTUDecls LocalTUDeclsSize ;;
    (if shouldInlineCall (Opts env)
     then HandleDeclsCallGraph LocalTUDeclsSize ;; mret tt
     else mret tt) ;;
    emit runCheckersOnEndOfTranslationUnit ;;
    (* Count how many basic blocks we have not covered. *)
    FS ← get FunctionSummaries;
    modify (set_NumBlocksInAnalyzedFunctions (getTotalNumBasicBlocks FS)) ;;
    NumBlocks ← get NumBlocksInAnalyzedFunctions;
    if 0 <? NumBlocks
    then modify (set_PercentReachableBlocks
                   (to_unsigned (getTotalNumVisitedBasicBlocks FS * 100)
                    / NumBlocks))
    else mret tt.

End Consumer.

(** * Concrete collaborators

    A small, fully computable instance of [Collaborators], used to run the
    consumer on explicit translation units. *)

(** Every location is in the main source file. *)
Definition mainFileSM : SourceManager :=
  {| getExpansionLoc := fun SL => SL;
     isFromMainFile := fun _ => true;
     isInSystemHeader := fun _ => false;
     PresumedLoc_isValid := fun _ => true;
     PresumedLoc_getFilename := fun _ => "main.c";
     PresumedLoc_getLine := fun SL => SL;
     PresumedLoc_getColumn := fun _ => 1 |}.

(** Locations 1..99 are in the main file, 100..199 in a user header, and
    the others in a system header. *)
Definition headerSM : SourceManager :=
  {| getExpansionLoc := fun SL => SL;
     isFromMainFile := fun SL => (0 <? SL) && (SL <? 100);
     isInSystemHeader := fun SL => 200 <=? SL;
     PresumedLoc_isValid := fun SL => negb (SL =? 0);
     PresumedLoc_getFilename :=
       fun SL => if (0 <? SL) && (SL <? 100) then "main.c" else "header.h";
     PresumedLoc_getLine := fun SL => SL;
     PresumedLoc_getColumn := fun _ => 1 |}.

Definition function (id : DeclID) (Name : string) : Decl :=
  MkDecl id (FunctionDecl (Some Name) true false) true 1 [].

Definition method (id : DeclID) (Sel : string) (Family : ObjCMethodFamily)
    : Decl :=
  MkDecl id (ObjCMethodDecl Sel Family true) true 1 [].

Section SimpleCallGraph.

(** The direct call references found in each declaration's body. *)
Variable calls : DeclID -> list DeclID.

Fixpoint declsWithBody (D : Decl) : list Decl :=
  (if hasBody D then [D] else [])
  ++ (fix each (Ds : list Decl) : list Decl :=
        match Ds with
        | [] => []
        | Child :: Ds' => declsWithBody Child ++ each Ds'
        end) (nestedDecls D).

Definition hasNode (CG : list Decl) (id : DeclID) : bool :=
  bool_decide (id ∈ declID <$> CG).

(** Modelled from the spec: [CallGraph.h] is not part of the sources.  The
    graph holds the declarations added to it that have a body; its edges
    are the direct call references [calls] between them. *)
Definition simple_addToCallGraph (CG : list Decl) (D : Decl) : list Decl :=
  foldl (fun CG N => if hasNode CG (declID N) then CG else CG ++ [N])
        CG (declsWithBody D).

Definition callees (CG : list Decl) (id : DeclID) : list DeclID :=
  filter (fun callee => hasNode CG callee) (calls id).

Definition hasCaller (CG : list Decl) (id : DeclID) : bool :=
  existsb (fun N => bool_decide (id ∈ callees CG (declID N))) CG.

(** Depth-first walk: the set of nodes seen and the post-order so far. *)
Fixpoint postorder (fuel : nat) (CG : list Decl) (id : DeclID)
    (st : gset DeclID * list DeclID) : gset DeclID * list DeclID :=
  match fuel with
  | O => st
  | S fuel' =>
      if bool_decide (id ∈ st.1) then st
      else
        let st' := foldl (fun st callee => postorder fuel' CG callee st)
                         ({[id]} ∪ st.1, st.2) (callees CG id) in
        (st'.1, st'.2 ++ [id])
  end.

Definition nodeOf (CG : list Decl) (id : DeclID) : list CallGraphNode :=
  match filter (fun N => declID N = id) CG with
  | N :: _ => [Some N]
  | [] => []
  end.

(** Modelled from the spec: the reverse post-order iterator is not part of
    the sources.  A synthetic root has an edge to every node without an
    incoming edge; the traversal lists the nodes in reverse post-order of a
    depth-first walk from the root. *)
Definition simple_RPOT (CG : list Decl) : list CallGraphNode :=
  let roots := declID <$> filter (fun N => hasCaller CG (declID N) = false) CG in
  let po := foldl (fun st id => postorder (S (length CG)) CG id st)
                  (∅, []) roots in
  None :: (rev po.2 ≫= nodeOf CG).

(** All callees reachable from [id], as the engine inlines them. *)
Fixpoint reachable (fuel : nat) (id : DeclID) : gset DeclID :=
  match fuel with
  | O => ∅
  | S fuel' =>
      foldr (fun callee acc => {[callee]} ∪ reachable fuel' callee ∪ acc)
            ∅ (calls id)
  end.

(** Every declaration has a control-flow graph of [blocks] blocks and a
    scalable liveness analysis; a run of the engine on a root visits all of
    the root's blocks and, when inlining, explores every reachable callee. *)
Definition simpleEnv (opts : AnalyzerOptions) (sm : SourceManager)
    (gc : GCMode) (checkers : bool) (blocks : Z) : Collaborators :=
  {| Opts := opts;
     SM := sm;
     getGC := gc;
     hasErrorOccurred := false;
     hasFatalErrorOccurred := false;
     TranslationUnitDecl := 1000%positive;
     hasPathSensitiveCheckers := checkers;
     getCFG := fun _ => Some {| CFG_size := blocks |};
     RelaxedLiveVariables := fun _ => true;
     printName := getFunctionName;
     ExecuteWorkList := fun FS D _ IMode =>
       (match IMode with
        | Inline_All => reachable 8 (declID D)
        | Inline_None => ∅
        end,
        <[declID D := {| TotalBasicBlocks := blocks;
                         NumVisitedBasicBlocks := blocks |}]> FS);
     CallGraph := list Decl;
     CallGraph_new := [];
     addToCallGraph := simple_addToCallGraph;
     ReversePostOrderTraversal := simple_RPOT |}.

End SimpleCallGraph.

Definition options (inlining : bool) (mode : AnalysisInliningMode)
    : AnalyzerOptions :=
  {| AnalyzeSpecificFunction := "";
     AnalyzeAll := false;
     AnalyzerDisplayProgress := false;
     InliningMode := mode;
     shouldInlineCall := inlining |}.

Definition newConsumer (Decls : list Decl) : AnalysisConsumer :=
  {| RecVisitorMode := 0;
     LocalTUDecls := Decls;
     FunctionSummaries := ∅;
     NumFunctionTopLevel := 0;
     NumFunctionsAnalyzed := 0;
     NumBlocksInAnalyzedFunctions := 0;
     PercentReachableBlocks := 0;
     MaxCFGSize := 0;
     PendingDeserialization := [];
     Trace := [] |}.

(** Three functions A, B and C with the call graph A -> B -> C. *)
Definition declA : Decl := function 1%positive "A".
Definition declB : Decl := function 2%positive "B".
Definition declC : Decl := function 3%positive "C".

Definition chainCalls (id : DeclID) : list DeclID :=
  if bool_decide (id = 1%positive) then [2%positive]
  else if bool_decide (id = 2%positive) then [3%positive]
  else [].


(** * Reading traces and walking declaration trees *)

(** The engine runs recorded in a trace. *)
Record EngineRun := {
  runRoot : DeclID;
  runGC : bool;
  runIMode : InliningModes;
  runInlined : SetOfConstDecls
}.

Definition engineRun (e : Event) : option EngineRun :=
  match e with
  | ExprEngine_run D ObjCGCEnabled IMode Inlined =>
      Some {| runRoot := D; runGC := ObjCGCEnabled; runIMode := IMode;
              runInlined := Inlined |}
  | _ => None
  end.

Definition engineRuns (t : list Event) : list EngineRun :=
  omap engineRun t.

(** The events that analyse the body of declaration [id]. *)
Definition analysesBodyOf (id : DeclID) (e : Event) : bool :=
  match e with
  | runCheckersOnASTBody D => bool_decide (D = id)
  | ExprEngine_run D _ _ _ => bool_decide (D = id)
  | _ => false
  end.

(** Induction over a declaration and the declarations nested in it. *)
Fixpoint Decl_nested_ind (P : Decl -> Prop)
    (step : forall id kind body loc nested,
        Forall P nested -> P (MkDecl id kind body loc nested))
    (D : Decl) : P D :=
  match D with
  | MkDecl id kind body loc nested =>
      step id kind body loc nested
        ((fix all (Ds : list Decl) : Forall P Ds :=
            match Ds with
            | [] => Forall_nil_2 P
            | Child :: Ds' =>
                Forall_cons_2 P Child Ds' (Decl_nested_ind P step Child) (all Ds')
            end) nested)
  end.

(** The walk over the nested declarations, named. *)
Section NestedWalk.

Variable env : Collaborators.

Fixpoint TraverseDecls (Ds : list Decl) : M bool :=
  match Ds with
  | [] => mret true
  | Child :: Ds' =>
      continue ← TraverseDecl env Child;
      if (continue : bool) then TraverseDecls Ds' else mret false
  end.

End NestedWalk.

(** Running an action over a list of declarations, in order. *)
Fixpoint foldDecls {A} (body : Decl -> A -> M A) (Ds : list Decl) (a : A)
    : M A :=
  match Ds with
  | [] => mret a
  | D :: Ds' => a' ← body D a; foldDecls body Ds' a'
  end.

(** * The design document's wording of the two resolvers *)

Section Wording.

Variable env : Collaborators.

(** The display name: selector for methods, identifier for functions. *)
Definition displayName (D : Decl) : option string :=
  match declKind D with
  | ObjCMethodDecl Sel _ _ => Some Sel
  | FunctionDecl II _ _ => II
  | _ => None
  end.

(** The configured name filter, if any. *)
Definition specificFunctionFilter : option string :=
  if bool_decide (AnalyzeSpecificFunction (Opts env) = "") then None
  else Some (AnalyzeSpecificFunction (Opts env)).

Definition ModeResolver (D : Decl) (Requested : AnalysisMode) : AnalysisMode :=
  let location := getExpansionLoc (SM env) (getLocation D) in
  let byLocation :=
    if bool_decide (AnalyzeAll (Opts env) = false
                    /\ isFromMainFile (SM env) location = false)
    then
      if bool_decide (location = 0 \/ isInSystemHeader (SM env) location = true)
      then AM_None
      else Z.clearbit Requested 1
    else Requested in
  match specificFunctionFilter with
  | Some name =>
      if bool_decide (displayName D = Some name) then byLocation else AM_None
  | None => byLocation
  end.

(** The inlining mode of a top-level run when inlining is enabled. *)
Definition InliningModeOfTopLevelRun (D : Decl) (Visited : SetOfConstDecls)
    : InliningModes :=
  match declKind D with
  | ObjCMethodDecl _ family _ =>
      if bool_decide (declID D ∈ Visited /\ family <> OMF_init)
      then Inline_None else Inline_All
  | _ => Inline_All
  end.

End Wording.

(** * Judgements on monadic code *)

Definition isNotMethod (D : Decl) : Prop := isa_ObjCMethodDecl D = false.

#[global] Instance isNotMethod_dec D : Decision (isNotMethod D).
Proof. unfold isNotMethod. apply _. Defined.

(** Whenever [m] returns, the states before and after are related by [R]. *)
Definition preserves {A} (R : relation AnalysisConsumer) (m : M A) : Prop :=
  forall c a c', m c = Ok (a, c') -> R c c'.

(** From a state satisfying [I], [m] returns a value satisfying [Q] in a
    state satisfying [I] and related to the first by [R]. *)
Definition succeeds {A} (I : AnalysisConsumer -> Prop)
    (R : relation AnalysisConsumer) (m : M A) (Q : A -> Prop) : Prop :=
  forall c, I c ->
    exists a c', m c = Ok (a, c') /\ I c' /\ R c c' /\ Q a.

(** The store only grows at its end and the visitor mode stays. *)
Definition StoreGrows (c c' : AnalysisConsumer) : Prop :=
  RecVisitorMode c' = RecVisitorMode c
  /\ LocalTUDecls c `prefix_of` LocalTUDecls c'.

(** Store, visitor mode and pending deliveries are the same. *)
Definition StoreKept (c c' : AnalysisConsumer) : Prop :=
  RecVisitorMode c' = RecVisitorMode c
  /\ LocalTUDecls c' = LocalTUDecls c
  /\ PendingDeserialization c' = PendingDeserialization c.

(** No engine run is recorded between the two states. *)
Definition NoEngineRun (c c' : AnalysisConsumer) : Prop :=
  engineRuns (Trace c') = engineRuns (Trace c).

(** The visitor mode [HandleTranslationUnit] sets before its traversal. *)
Definition visitorMode (env : Collaborators) : AnalysisMode :=
  if shouldInlineCall (Opts env) then AM_Syntax else Z.lor AM_Syntax AM_Path.

Definition VisitorModeSet (env : Collaborators) (c : AnalysisConsumer) : Prop :=
  RecVisitorMode c = visitorMode env.

Definition anyValue {A} (a : A) : Prop := True.

(** Between the two states the trace grows, and every engine run added to
    it reports only callees in [V]. *)
Definition Records (V : SetOfConstDecls) (c c' : AnalysisConsumer) : Prop :=
  exists new, Trace c' = Trace c ++ new
              /\ forall r, r ∈ engineRuns new -> runInlined r ⊆ V.

(** The coverage statistic is the same. *)
Definition PercentKept (c c' : AnalysisConsumer) : Prop :=
  PercentReachableBlocks c' = PercentReachableBlocks c.

(** The declarations the call-graph loop has handed to [HandleCode]. *)
Definition runIDs (L : CallGraphLocals) : list DeclID :=
  (fun run => declID run.1) <$> TopLevelRuns L.

(** What the call-graph loop maintains about its locals. *)
Definition LocalsInv (L : CallGraphLocals) : Prop :=
  VisitedAsTopLevel L = list_to_set (runIDs L)
  /\ NoDup (runIDs L)
  /\ (forall D cs, (D, cs) ∈ TopLevelRuns L -> cs ⊆ Visited L)
  /\ (forall (i j : nat) D cs D' cs',
        TopLevelRuns L !! i = Some (D, cs) ->
        TopLevelRuns L !! j = Some (D', cs') ->
        (i < j)%nat ->
        isa_ObjCMethodDecl D' = false -> declID D' ∉ cs).

Definition noLocals : CallGraphLocals :=
  {| Visited := ∅; VisitedAsTopLevel := ∅; TopLevelRuns := [] |}.

Definition countTopLevel (c : AnalysisConsumer) : AnalysisConsumer :=
  set_NumFunctionTopLevel (to_unsigned (NumFunctionTopLevel c + 1)) c.

(** Between the two states the trace grows by events other than engine
    runs. *)
Definition Quiet (c c' : AnalysisConsumer) : Prop :=
  exists new, Trace c' = Trace c ++ new /\ engineRuns new = [].

(** The accumulator [HandleDeclsCallGraph] hands to [HandleCode]. *)
Definition calleeTracking (env : Collaborators) : option SetOfConstDecls :=
  if bool_decide (InliningMode (Opts env) = All) then None else Some ∅.

Definition afterTopLevelRun (L : CallGraphLocals) (D : Decl)
    (VisitedCallees : SetOfConstDecls) : CallGraphLocals :=
  {| Visited := Visited L ∪ VisitedCallees;
     VisitedAsTopLevel := VisitedAsTopLevel L ∪ {[declID D]};
     TopLevelRuns := TopLevelRuns L ++ [(D, VisitedCallees)] |}.

(** * The parts of [HandleTranslationUnit] *)

Section Parts.

Variable env : Collaborators.

(** The bodies of the two index loops. *)
Definition traverseBody (D : Decl) (_ : unit) : M unit :=
  TraverseDecl env D ;; mret tt.

Definition addNodeBody (D : Decl) (CG : CallGraph env) : M (CallGraph env) :=
  deliverDeserialized ;; mret (addToCallGraph env CG D).

(** The consumer once the visitor mode is set, before the first loop. *)
Definition beforeTraversal (c : AnalysisConsumer) : AnalysisConsumer :=
  set_RecVisitorMode (visitorMode env)
    (set_Trace (Trace c ++ [runCheckersOnASTDecl (TranslationUnitDecl env)]) c).

(** The closing computation of the coverage statistics. *)
Definition countCoverage : M unit :=
  FS ← get FunctionSummaries;
  modify (set_NumBlocksInAnalyzedFunctions (getTotalNumBasicBlocks FS)) ;;
  NumBlocks ← get NumBlocksInAnalyzedFunctions;
  if 0 <? NumBlocks
  then modify (set_PercentReachableBlocks
                 (to_unsigned (getTotalNumVisitedBasicBlocks FS * 100)
                  / NumBlocks))
  else mret tt.

(** The two passes, the end-of-unit checks and the statistics. *)
Definition runPasses : M unit :=
  LocalTUDeclsSize ←
    get (fun c => to_unsigned (Z.of_nat (length (LocalTUDecls c))));
  traverseLocalTUDecls env LocalTUDeclsSize ;;
  (if shouldInlineCall (Opts env)
   then HandleDeclsCallGraph env LocalTUDeclsSize ;; mret tt
   else mret tt) ;;
  emit runCheckersOnEndOfTranslationUnit ;;
  countCoverage.

(** The coverage percentage of summaries with total [b] and visited [v]. *)
Definition coveragePercentage (b v : Z) : Z := (100 * v) / b.

Definition sumTotal (FS : FunctionSummariesTy) : Z :=
  foldr Z.add 0 ((fun kv => TotalBasicBlocks kv.2) <$> map_to_list FS).

Definition sumVisited (FS : FunctionSummariesTy) : Z :=
  foldr Z.add 0 ((fun kv => NumVisitedBasicBlocks kv.2) <$> map_to_list FS).

End Parts.

(** * Statements about the call-graph pass *)

(** A non-method declaration that an engine run of a top-level run reports
    as explored is not handed to [HandleCode] by any later iteration. *)
Definition InlinedNotRescheduled (env : Collaborators) : Prop :=
  shouldInlineCall (Opts env) = true ->
  forall N RPOT L1 c1 L2 c2 L3 c3 new later r D cs,
    HandleDeclsCallGraph_node env N L1 c1 = Ok (L2, c2) ->
    HandleDeclsCallGraph_nodes env RPOT L2 c2 = Ok (L3, c3) ->
    Trace c2 = Trace c1 ++ new ->
    r ∈ engineRuns new ->
    TopLevelRuns L3 = TopLevelRuns L2 ++ later ->
    (D, cs) ∈ later ->
    isa_ObjCMethodDecl D = false ->
    declID D ∉ runInlined r.

(** The events one call of [RunPathSensitiveChecks] adds under each
    collector assumption, given what the engine reports. *)
Definition engineEvents (gc : GCMode) (D : Decl) (IMode : InliningModes)
    (new : list Event) : Prop :=
  match gc with
  | NonGC => exists i, new = [ExprEngine_run (declID D) false IMode i]
  | GCOnly => exists i, new = [ExprEngine_run (declID D) true IMode i]
  | HybridGC =>
      exists i1 i2, new = [ExprEngine_run (declID D) false IMode i1;
                           ExprEngine_run (declID D) true IMode i2]
  end.

(** The scenario of the call graph A -> B -> C. *)
Definition chainEnv (mode : AnalysisInliningMode) : Collaborators :=
  simpleEnv chainCalls (options true mode) mainFileSM NonGC true 4.

Definition chainUnit : AnalysisConsumer := newConsumer [declA; declB; declC].

Definition afterRoot : AnalysisConsumer := countTopLevel chainUnit.

Definition localsOf (r : result (CallGraphLocals * AnalysisConsumer))
    : CallGraphLocals :=
  match r with Ok (L, _) => L | Fail _ => noLocals end.

Definition consumerOf {A} (r : result (A * AnalysisConsumer))
    : AnalysisConsumer :=
  match r with Ok (_, c) => c | Fail _ => newConsumer [] end.

(** The top-level run of A, and the rest of the loop, in the scenario. *)
Definition runOfA (mode : AnalysisInliningMode) :=
  HandleDeclsCallGraph_node (chainEnv mode) (Some declA) noLocals afterRoot.

Definition restAfterA (mode : AnalysisInliningMode) :=
  HandleDeclsCallGraph_nodes (chainEnv mode) [Some declB; Some declC]
    (localsOf (runOfA mode)) (consumerOf (runOfA mode)).

(** A method M of an Objective-C container. *)
Definition methodM : Decl := method 7%positive "init" OMF_init.

(** A translation unit of [n] functions. *)
Definition functions (n : nat) : list Decl :=
  (fun k => function (Pos.of_nat k) "f") <$> seq 1 n.

(** A translation unit of 430 functions of 100000 basic blocks each, all
    of them visited by the engine; inlining is off, so the syntax pass also
    runs the path-sensitive analysis. *)
Definition bigUnitEnv : Collaborators :=
  simpleEnv (fun _ => []) (options false NoRedundancy) mainFileSM NonGC true
            100000.

Definition bigUnit : AnalysisConsumer := newConsumer (functions 430).

(** A fourth function E that nobody calls, stored before A, B and C: the
    traversal order is root, A, B, C, E. *)
Definition declE : Decl := function 4%positive "E".

Definition restWithE (mode : AnalysisInliningMode) :=
  HandleDeclsCallGraph_nodes (chainEnv mode)
    [Some declB; Some declC; Some declE]
    (localsOf (runOfA mode)) (consumerOf (runOfA mode)).

(** The engine run of A's top-level run in the scenario. *)
Definition engineRunOfA : EngineRun :=
  {| runRoot := 1%positive; runGC := false; runIMode := Inline_All;
     runInlined := {[2%positive; 3%positive]} |}.

(** A function declared in a user header, and one without a body. *)
Definition headerEnv : Collaborators :=
  simpleEnv (fun _ => []) (options false NoRedundancy) headerSM HybridGC true 4.

Definition inHeader : Decl :=
  MkDecl 5%positive (FunctionDecl (Some "h") true false) true 150 [].

Definition prototype : Decl :=
  MkDecl 6%positive (FunctionDecl (Some "p") false false) false 1 [].

Definition inlineHelper : Decl :=
  MkDecl 8%positive (FunctionDecl (Some "__inline_memcpy") true false) true 1 [].

(** The same scenario without path-sensitive checkers. *)
Definition noCheckersEnv : Collaborators :=
  simpleEnv chainCalls (options true NoRedundancy) mainFileSM NonGC false 4.

(** A declaration in a system header, a method outside the initializer
    family, and collaborators that cannot build any control-flow graph. *)
Definition inSystemHeader : Decl :=
  MkDecl 10%positive (FunctionDecl (Some "s") true false) true 250 [].

Definition methodCount : Decl := method 9%positive "count" OMF_None.


(** * Reading the consumer's fields and traces *)

(** Field [f] of the consumer is the same in the two states. *)
Definition Kept {A} (f : AnalysisConsumer -> A) (c c' : AnalysisConsumer)
    : Prop :=
  f c' = f c.

(** The calls to the structural (AST) checkers of a declaration or a body. *)
Definition isStructuralCheck (e : Event) : bool :=
  match e with
  | runCheckersOnASTDecl _ | runCheckersOnASTBody _ => true
  | _ => false
  end.

(** The progress output of [DisplayFunction]. *)
Definition isDisplay (D : DeclID) (e : Event) : Prop :=
  exists text, e = errs text D.

(** An engine run on [D] with inlining mode [IMode]. *)
Definition isEngineRunOf (D : DeclID) (IMode : InliningModes) (e : Event)
    : Prop :=
  exists gc Inlined, e = ExprEngine_run D gc IMode Inlined.

(** Between the two states the trace grows by events that satisfy [P]. *)
Definition Adds (P : Event -> Prop) (c c' : AnalysisConsumer) : Prop :=
  exists new, Trace c' = Trace c ++ new /\ Forall P new.

(** An event that is not an engine run with inlining. *)
Definition inlineNoneRun (e : Event) : Prop :=
  forall r, engineRun e = Some r -> runIMode r = Inline_None.

(** Between the two states every engine run added to the trace uses
    inline-none, and the two counters of the call-graph pass stay. *)
Definition OnlyInlineNone (c c' : AnalysisConsumer) : Prop :=
  NumFunctionTopLevel c' = NumFunctionTopLevel c
  /\ NumFunctionsAnalyzed c' = NumFunctionsAnalyzed c
  /\ Adds inlineNoneRun c c'.

(** From a state whose visitor mode is Syntax, the visitor mode stays, the
    trace grows by events other than engine runs, and the function
    summaries and the count of analysed functions stay. *)
Definition SyntaxOnly (c c' : AnalysisConsumer) : Prop :=
  RecVisitorMode c = AM_Syntax ->
  RecVisitorMode c' = AM_Syntax
  /\ Quiet c c'
  /\ FunctionSummaries c' = FunctionSummaries c
  /\ NumFunctionsAnalyzed c' = NumFunctionsAnalyzed c.

(** The declarations of the nodes of a traversal, the root left out. *)
Definition nodeIDs (RPOT : list CallGraphNode) : list DeclID :=
  declID <$> omap id RPOT.

(** An [unsigned] counter after [k] increments. *)
Definition incremented (k : nat) (n : Z) : Z :=
  Nat.iter k (fun n => to_unsigned (n + 1)) n.

(** An event other than the call to the end-of-unit checkers. *)
Definition notEndOfTranslationUnit (e : Event) : Prop :=
  e <> runCheckersOnEndOfTranslationUnit.

(** An event other than a call to the structural checkers. *)
Definition notStructuralCheck (e : Event) : Prop :=
  isStructuralCheck e = false.

Section MoreParts.

Variable env : Collaborators.

(** The body one of the visitor's callbacks hands to [HandleCode]. *)
Definition visitCode (D : Decl) : M unit :=
  RecVisitorMode ← get RecVisitorMode;
  assert ((RecVisitorMode =? AM_Syntax)
          || negb (shouldInlineCall (Opts env)))
         "RecVisitorMode == AM_Syntax || !shouldInlineCall" ;;
  HandleCode env D RecVisitorMode Inline_None None ;; mret tt.

(** Whether [DisplayFunction] writes: progress display is on and the
    declaration has a presumed location. *)
Definition displays (D : Decl) : bool :=
  AnalyzerDisplayProgress (Opts env)
  && PresumedLoc_isValid (SM env) (getLocation D).

(** Whether [HandleCode] gets past its two early returns with mode [Mode]. *)
Definition handled (D : Decl) (Mode : AnalysisMode) : bool :=
  hasBody D && negb (getModeForDecl env D Mode =? AM_None).

(** Whether [HandleCode] reaches the path-sensitive checks. *)
Definition pathSensitive (D : Decl) (Mode : AnalysisMode) : bool :=
  handled D Mode
  && negb (Z.land (getModeForDecl env D Mode) AM_Path =? 0)
  && hasPathSensitiveCheckers env.

(** Whether the engine runs on [D] once the checks are reached. *)
Definition analyzable (D : Decl) : bool :=
  bool_decide (is_Some (getCFG env D)) && RelaxedLiveVariables env D.

(** What [DisplayFunction] writes for mode [Mode], operand by operand:
    the mode, the file name, and the name of a function or method or the
    position of a block, followed by a line feed; for a declaration of
    another class the line ends after the file name. *)
Definition displayed (D : Decl) (Mode : AnalysisMode) : list Event :=
  [errs "ANALYZE" (declID D)]
  ++ (if Mode =? AM_Syntax then [errs " (Syntax)" (declID D)]
      else if Mode =? AM_Path then [errs " (Path)" (declID D)]
      else [])
  ++ [errs ": " (declID D);
      errs (PresumedLoc_getFilename (SM env) (getLocation D)) (declID D)]
  ++ (if isa_FunctionDecl D || isa_ObjCMethodDecl D then
        [errs " " (declID D); errs (printName env D) (declID D);
         errs EOL (declID D)]
      else if isa_BlockDecl D then
        [errs " " (declID D); errs "block(line:" (declID D);
         errs (pretty (PresumedLoc_getLine (SM env) (getLocation D)))
              (declID D);
         errs ",col:" (declID D);
         errs (pretty (PresumedLoc_getColumn (SM env) (getLocation D)))
              (declID D);
         errs EOL (declID D)]
      else []).

(** The steps of [HandleCode] between the progress output and the
    path-sensitive checks, and the count after them. *)
Definition noteCFGSize (D : Decl) (c : AnalysisConsumer) : AnalysisConsumer :=
  match getCFG env D with
  | Some DeclCFG =>
      set_MaxCFGSize
        (if MaxCFGSize c <? CFG_size DeclCFG then CFG_size DeclCFG
         else MaxCFGSize c) c
  | None => c
  end.

Definition checkBody (D : Decl) (Mode : AnalysisMode) (c : AnalysisConsumer)
    : AnalysisConsumer :=
  if negb (Z.land Mode AM_Syntax =? 0)
  then set_Trace (Trace c ++ [runCheckersOnASTBody (declID D)]) c
  else c.

Definition countAnalyzed (IMode : InliningModes) (c : AnalysisConsumer)
    : AnalysisConsumer :=
  if bool_decide (IMode <> Inline_None)
  then set_NumFunctionsAnalyzed (to_unsigned (NumFunctionsAnalyzed c + 1)) c
  else c.

(** One engine action, on the accumulator and the consumer. *)
Definition engineStep (D : Decl) (IMode : InliningModes)
    (st : option SetOfConstDecls * AnalysisConsumer) (ObjCGCEnabled : bool)
    : option SetOfConstDecls * AnalysisConsumer :=
  if analyzable D then
    let Eng :=
      ExecuteWorkList env (FunctionSummaries st.2) D ObjCGCEnabled IMode in
    ((fun VC => VC ∪ Eng.1) <$> st.1,
     set_Trace (Trace st.2 ++ [ExprEngine_run (declID D) ObjCGCEnabled IMode Eng.1])
       (set_FunctionSummaries Eng.2 st.2))
  else st.

(** The collector settings [RunPathSensitiveChecks] runs the engine with,
    in order. *)
Definition gcRuns : list bool :=
  match getGC env with
  | NonGC => [false]
  | GCOnly => [true]
  | HybridGC => [false; true]
  end.

(** A declaration that the mode resolver excludes whatever the mode: its
    name is not the one the configured filter asks for, or it lies outside
    the main file, at an invalid location or in a system header, while
    analyze-all is off. *)
Definition excluded (D : Decl) : bool :=
  (negb (String.eqb (AnalyzeSpecificFunction (Opts env)) "")
   && negb (String.eqb (getFunctionName D) (AnalyzeSpecificFunction (Opts env))))
  || (negb (AnalyzeAll (Opts env))
      && negb (isFromMainFile (SM env)
                 (getExpansionLoc (SM env) (getLocation D)))
      && (SourceLocation_isInvalid (getExpansionLoc (SM env) (getLocation D))
          || isInSystemHeader (SM env)
               (getExpansionLoc (SM env) (getLocation D)))).

(** What [HandleTranslationUnit] does once the visitor mode is set, when
    both index loops run over the entries [l0]: the walk of each entry of
    [l0], then, with inlining, the call graph built from the entries of
    [l0] and the loop over its nodes, then the end-of-unit checks and the
    statistics. *)
Definition passesOver (l0 : list Decl) : M unit :=
  foldDecls (traverseBody env) l0 tt ;;
  (if shouldInlineCall (Opts env)
   then (CG ← foldDecls (addNodeBody env) l0 (CallGraph_new env);
         HandleDeclsCallGraph_nodes env (ReversePostOrderTraversal env CG)
           noLocals) ;; mret tt
   else mret tt) ;;
  emit runCheckersOnEndOfTranslationUnit ;;
  countCoverage.

(** The location of [D] is outside the main file and analyze-all is off. *)
Definition outsideMainFile (D : Decl) : bool :=
  negb (AnalyzeAll (Opts env))
  && negb (isFromMainFile (SM env) (getExpansionLoc (SM env) (getLocation D))).

End MoreParts.

(** * ClangDiagPathDiagConsumer

    The path-diagnostic consumer that reports each diagnostic as a warning
    of the compiler's diagnostics engine.  The engine is the list of the
    reports made so far. *)

Module ClangDiagPathDiagConsumer.

Record SourceRange := {
  getBegin : SourceLocation;
  getEnd : SourceLocation
}.

Record PathDiagnosticPiece := { getRanges : list SourceRange }.

Record PathDiagnostic := {
  getShortDescription : string;
  getLocation : SourceLocation;
  path : list PathDiagnosticPiece
}.

(** One [Diag.Report(L, ErrorDiag)] with the ranges streamed into its
    builder; [Format] is the format string the custom diagnostic [ErrorDiag]
    was created with, at level Warning. *)
Record Report := {
  Location : SourceLocation;
  Format : string;
  Ranges : list SourceRange
}.

Definition DiagnosticsEngine := list Report.

(** The loop over the characters of the description that fills [TmpStr]. *)
Fixpoint TmpStr (desc : string) : string :=
  match desc with
  | EmptyString => EmptyString
  | String ch rest =>
      if Ascii.eqb ch "%"%char then String "%"%char (String "%"%char (TmpStr rest))
      else String ch (TmpStr rest)
  end.

(** [path.back()] is outside the container when the path is empty. *)
Fixpoint FlushDiagnosticsImpl (Diags : list PathDiagnostic)
    (Diag : DiagnosticsEngine) : result DiagnosticsEngine :=
  match Diags with
  | [] => Ok Diag
  | PD :: Diags' =>
      let desc := getShortDescription PD in
      let L := getLocation PD in
      match last (path PD) with
      | None => Fail OutOfRange
      | Some back =>
          FlushDiagnosticsImpl Diags'
            (Diag ++ [{| Location := L; Format := TmpStr desc;
                         Ranges := getRanges back |}])
      end
  end.

(** Reading a format string literally: a doubled percent sign stands for
    one percent sign; a single one starts a format specifier, and the
    string has no literal reading. *)
Fixpoint literal (format : string) : option string :=
  match format with
  | EmptyString => Some EmptyString
  | String ch rest =>
      if Ascii.eqb ch "%"%char then
        match rest with
        | String ch' rest' =>
            if Ascii.eqb ch' "%"%char then String "%"%char <$> literal rest' else None
        | EmptyString => None
        end
      else String ch <$> literal rest
  end.

(** The number of percent signs of a string. *)
Fixpoint percents (s : string) : nat :=
  match s with
  | EmptyString => O
  | String ch rest => ((if Ascii.eqb ch "%"%char then 1 else 0) + percents rest)%nat
  end.

(** The report [FlushDiagnosticsImpl] makes for one diagnostic. *)
Definition reportOf (PD : PathDiagnostic) (back : PathDiagnosticPiece)
    : Report :=
  {| Location := getLocation PD;
     Format := TmpStr (getShortDescription PD);
     Ranges := getRanges back |}.

(** Two diagnostics with a one-piece path, and one without a path. *)
Definition leak : PathDiagnostic :=
  {| getShortDescription := "100% of the buffer is leaked";
     getLocation := 7;
     path := [{| getRanges := [{| getBegin := 7; getEnd := 9 |}] |}] |}.

Definition nullDereference : PathDiagnostic :=
  {| getShortDescription := "Dereference of null pointer";
     getLocation := 12;
     path := [{| getRanges := [] |};
              {| getRanges := [{| getBegin := 12; getEnd := 12 |};
                               {| getBegin := 14; getEnd := 15 |}] |}] |}.

Definition withoutPath : PathDiagnostic :=
  {| getShortDescription := "no path"; getLocation := 3; path := [] |}.

End ClangDiagPathDiagConsumer.

(** * UbigraphViz

    The auditor that writes the exploded graph as commands for the graph
    viewer.  A node pointer is identified by a positive number; the output
    stream is the list of the commands written so far, and [print] gives
    the text of each. *)

Module UbigraphViz.

Definition ExplodedNode := positive.

Inductive Command :=
| vertex_style_attribute
| vertex_style
| vertex_root (ID : Z)
| vertex (ID : Z)
| change_vertex_style (ID : Z)
| edge (SrcID DstID : Z).

Definition newline : string := String "010"%char EmptyString.

Definition print (cmd : Command) : string :=
  (match cmd with
   | vertex_style_attribute =>
       "('vertex_style_attribute', 0, ('shape', 'icosahedron'))"
   | vertex_style =>
       "('vertex_style', 1, 0, ('shape', 'sphere'), ('color', '#ffcc66'),"
       +:+ " ('size', '1.5'))"
   | vertex_root SrcID =>
       "('vertex', " +:+ pretty SrcID +:+ ", ('color','#00ff00'))"
   | vertex DstID => "('vertex', " +:+ pretty DstID +:+ ")"
   | change_vertex_style DstID =>
       "('change_vertex_style', " +:+ pretty DstID +:+ ", 1)"
   | edge SrcID DstID =>
       "('edge', " +:+ pretty SrcID +:+ ", " +:+ pretty DstID
       +:+ ", ('arrow','true'), ('oriented', 'true'))"
   end) +:+ newline.

(** The text written to the stream. *)
Definition text (Out : list Command) : string :=
  foldr (fun cmd rest => print cmd +:+ rest) EmptyString Out.

(** The fields of the class: the stream, the counter and the map from
    nodes to vertex numbers ([M] in the source). *)
Record UbigraphViz := {
  Out : list Command;
  Cntr : Z;
  VMap : gmap ExplodedNode Z
}.

(** The constructor. *)
Definition create : UbigraphViz :=
  {| Out := [vertex_style_attribute; vertex_style]; Cntr := 0; VMap := ∅ |}.

Definition AddEdge (Src Dst : ExplodedNode) (G : UbigraphViz)
    : result UbigraphViz :=
  if bool_decide (Src = Dst)
  then Fail (AssertionFailed "Self-edges are not allowed.")
  else
    (* Lookup the Src.  If it is a new node, it's a root. *)
    let '(SrcID, G) :=
      match VMap G !! Src with
      | None =>
          (Cntr G,
           {| Out := Out G ++ [vertex_root (Cntr G)];
              Cntr := to_unsigned (Cntr G + 1);
              VMap := <[Src := Cntr G]> (VMap G) |})
      | Some SrcID => (SrcID, G)
      end in
    (* Lookup the Dst. *)
    let '(DstID, G) :=
      match VMap G !! Dst with
      | None =>
          (Cntr G,
           {| Out := Out G ++ [vertex (Cntr G)];
              Cntr := to_unsigned (Cntr G + 1);
              VMap := <[Dst := Cntr G]> (VMap G) |})
      | Some DstID =>
          (* We have hit DstID before. *)
          (DstID,
           {| Out := Out G ++ [change_vertex_style DstID];
              Cntr := Cntr G;
              VMap := VMap G |})
      end in
    (* Add the edge. *)
    Ok {| Out := Out G ++ [edge SrcID DstID];
          Cntr := Cntr G;
          VMap := VMap G |}.

(** The auditor called on a sequence of edges, in order. *)
Fixpoint AddEdges (edges : list (ExplodedNode * ExplodedNode))
    (G : UbigraphViz) : result UbigraphViz :=
  match edges with
  | [] => Ok G
  | (Src, Dst) :: edges' =>
      match AddEdge Src Dst G with
      | Ok G' => AddEdges edges' G'
      | Fail e => Fail e
      end
  end.

(** The vertex numbers a stream declares, in order. *)
Definition declared (Out : list Command) : list Z :=
  omap (fun cmd =>
          match cmd with
          | vertex_root ID | vertex ID => Some ID
          | _ => None
          end) Out.

(** The edges a stream draws, in order. *)
Definition drawn (Out : list Command) : list (Z * Z) :=
  omap (fun cmd =>
          match cmd with
          | edge SrcID DstID => Some (SrcID, DstID)
          | _ => None
          end) Out.

(** A stream the viewer can replay: a vertex is declared once, and a
    command refers only to vertices declared before it; an edge joins two
    different vertices. *)
Fixpoint replayable (known : list Z) (Out : list Command) : Prop :=
  match Out with
  | [] => True
  | cmd :: Out' =>
      match cmd with
      | vertex_style_attribute | vertex_style => replayable known Out'
      | vertex_root ID | vertex ID =>
          (ID ∉ known) /\ replayable (known ++ [ID]) Out'
      | change_vertex_style ID => (ID ∈ known) /\ replayable known Out'
      | edge SrcID DstID =>
          (SrcID ∈ known) /\ (DstID ∈ known) /\ SrcID <> DstID
          /\ replayable known Out'
      end
  end.

(** What the class maintains: the vertex numbers handed out are
    [0 .. Cntr - 1], each to one node, and the stream is replayable and
    declares exactly these numbers, in increasing order. *)
Record Consistent (G : UbigraphViz) : Prop := {
  Cntr_size : Cntr G = Z.of_nat (size (VMap G));
  IDs_bounded : forall N ID, VMap G !! N = Some ID -> 0 <= ID < Cntr G;
  IDs_injective :
    forall N1 N2 ID, VMap G !! N1 = Some ID -> VMap G !! N2 = Some ID -> N1 = N2;
  declared_Out : declared (Out G) = Z.of_nat <$> seq 0 (size (VMap G));
  replayable_Out : replayable [] (Out G)
}.

(** Three nodes and the edges of a triangle between them. *)
Definition triangle : list (ExplodedNode * ExplodedNode) :=
  [(1%positive, 2%positive); (2%positive, 3%positive);
   (1%positive, 3%positive)].

Definition graphOf (r : result UbigraphViz) : UbigraphViz :=
  match r with Ok G => G | Fail _ => create end.

End UbigraphViz.

(** * Further scenarios *)

(** The scenario of the call graph A -> B -> C with progress display. *)
Definition progressEnv : Collaborators :=
  simpleEnv chainCalls
    {| AnalyzeSpecificFunction := "";
       AnalyzeAll := false;
       AnalyzerDisplayProgress := true;
       InliningMode := NoRedundancy;
       shouldInlineCall := true |}
    mainFileSM NonGC true 4.

(** The same scenario when only the function named A is to be analysed. *)
Definition filterEnv : Collaborators :=
  simpleEnv chainCalls
    {| AnalyzeSpecificFunction := "A";
       AnalyzeAll := false;
       AnalyzerDisplayProgress := false;
       InliningMode := NoRedundancy;
       shouldInlineCall := true |}
    mainFileSM NonGC true 4.

(** A block with a body. *)
Definition aBlock : Decl := MkDecl 11%positive BlockDecl true 1 [].

(** The value a computation returns, or [d] when it fails. *)
Definition valueOf {A} (d : A) (r : result (A * AnalysisConsumer)) : A :=
  match r with Ok (a, _) => a | Fail _ => d end.

(** The unit of A, B and C with a group holding E still to be
    deserialized: it is delivered while the first declaration is walked. *)
Definition chainUnitPending : AnalysisConsumer :=
  set_PendingDeserialization [[[declE]]] chainUnit.

(** One top-level run of A, the call-graph pass over A, B and C, and the
    loop over the traversal root, A, B, C. *)
Definition topLevelRunOfA : result (option SetOfConstDecls * AnalysisConsumer) :=
  HandleCode (chainEnv NoRedundancy) declA AM_Path Inline_All (Some ∅) chainUnit.

Definition callGraphPass (mode : AnalysisInliningMode)
    : result (CallGraphLocals * AnalysisConsumer) :=
  HandleDeclsCallGraph (chainEnv mode) 3 chainUnit.

Definition chainLoop (mode : AnalysisInliningMode)
    : result (CallGraphLocals * AnalysisConsumer) :=
  HandleDeclsCallGraph_nodes (chainEnv mode)
    [None; Some declA; Some declB; Some declC] noLocals chainUnit.


(** * Properties *)

#[local] Set Warnings "-clear-no-such-hyp".

(** ** Reasoning about monadic code *)

Ltac munfold :=
  unfold mbind, M_bind, mret, M_ret, get, modify, emit, assert, fail in *.

Lemma bind_Ok {A B} (m : M A) (f : A -> M B) c a c' :
  m c = Ok (a, c') -> (m ≫= f) c = f a c'.
Proof. intros H. munfold. by rewrite H. Qed.

Lemma bind_inv {A B} (m : M A) (f : A -> M B) c b c'' :
  (m ≫= f) c = Ok (b, c'') ->
  exists a c', m c = Ok (a, c') /\ f a c' = Ok (b, c'').
Proof.
  munfold. destruct (m c) as [[a c']|e]; [|done]. intros H. by exists a, c'.
Qed.

Lemma set_LocalTUDecls_id c : set_LocalTUDecls (LocalTUDecls c) c = c.
Proof. by destruct c. Qed.

Lemma set_LocalTUDecls_twice l l' c :
  set_LocalTUDecls l (set_LocalTUDecls l' c) = set_LocalTUDecls l c.
Proof. done. Qed.

(** ** The two judgements *)

Section Judgements.

Context (R : relation AnalysisConsumer) `{!PreOrder R}.

Lemma preserves_ret {A} (a : A) : preserves R (mret a).
Proof. intros c a' c' H. munfold. by simplify_eq. Qed.

Lemma preserves_bind {A B} (m : M A) (f : A -> M B) :
  preserves R m -> (forall a, preserves R (f a)) -> preserves R (m ≫= f).
Proof.
  intros Hm Hf c b c'' H. apply bind_inv in H as (a & c' & H1 & H2).
  transitivity c'; [by eapply Hm|by eapply Hf].
Qed.

Lemma preserves_get {A} (f : AnalysisConsumer -> A) : preserves R (get f).
Proof. intros c a c' H. munfold. by simplify_eq. Qed.

Lemma preserves_assert b msg : preserves R (assert b msg).
Proof. intros c a c' H. munfold. destruct b; by simplify_eq. Qed.

Lemma preserves_fail {A} e : preserves R (@fail A e).
Proof. intros c a c' H. munfold. done. Qed.

Lemma preserves_modify f : (forall c, R c (f c)) -> preserves R (modify f).
Proof. intros Hf c a c' H. munfold. by simplify_eq. Qed.

Lemma preserves_emit e :
  (forall c, R c (set_Trace (Trace c ++ [e]) c)) -> preserves R (emit e).
Proof. intros Hf. by apply preserves_modify. Qed.

Context (I : AnalysisConsumer -> Prop).

Lemma succeeds_ret {A} (a : A) (Q : A -> Prop) : Q a -> succeeds I R (mret a) Q.
Proof. intros HQ c Hc. exists a, c. munfold. done. Qed.

Lemma succeeds_bind {A B} (m : M A) (f : A -> M B) Q Q' :
  succeeds I R m Q -> (forall a, Q a -> succeeds I R (f a) Q') ->
  succeeds I R (m ≫= f) Q'.
Proof.
  intros Hm Hf c Hc. destruct (Hm c Hc) as (a & c' & H1 & HI & HR & HQ).
  destruct (Hf a HQ c' HI) as (b & c'' & H2 & HI' & HR' & HQ').
  exists b, c''. rewrite (bind_Ok _ _ _ _ _ H1). repeat split; try done.
  by transitivity c'.
Qed.

Lemma succeeds_get {A} (f : AnalysisConsumer -> A) (Q : A -> Prop) :
  (forall c, I c -> Q (f c)) -> succeeds I R (get f) Q.
Proof.
  intros HQ c Hc. exists (f c), c. munfold. repeat split; auto; reflexivity.
Qed.

Lemma succeeds_assert (b : bool) msg :
  b = true -> succeeds I R (assert b msg) anyValue.
Proof. intros -> c Hc. exists tt, c. munfold. done. Qed.

Lemma succeeds_modify f :
  (forall c, I c -> I (f c) /\ R c (f c)) -> succeeds I R (modify f) anyValue.
Proof.
  intros Hf c Hc. exists tt, (f c). munfold. destruct (Hf c Hc).
  repeat split; auto.
Qed.

Lemma succeeds_emit e :
  (forall c, I c -> I (set_Trace (Trace c ++ [e]) c)
                    /\ R c (set_Trace (Trace c ++ [e]) c)) ->
  succeeds I R (emit e) anyValue.
Proof. intros Hf. by apply succeeds_modify. Qed.

Lemma succeeds_weaken {A} (m : M A) (Q Q' : A -> Prop) :
  succeeds I R m Q -> (forall a, Q a -> Q' a) -> succeeds I R m Q'.
Proof.
  intros Hm HQ c Hc. destruct (Hm c Hc) as (a & c' & ? & ? & ? & ?).
  exists a, c'. repeat split; auto.
Qed.

End Judgements.

Lemma preserves_apply {A} (R : relation AnalysisConsumer) (m : M A) c a c' :
  m c = Ok (a, c') -> preserves R m -> R c c'.
Proof. intros H Hm. by eapply Hm. Qed.

Lemma preserves_weaken {A} (R R' : relation AnalysisConsumer) (m : M A) :
  (forall c c', R c c' -> R' c c') -> preserves R m -> preserves R' m.
Proof. intros HR Hm c a c' H. eapply HR, Hm, H. Qed.

Lemma engineRuns_app t1 t2 : engineRuns (t1 ++ t2) = engineRuns t1 ++ engineRuns t2.
Proof. unfold engineRuns. apply omap_app. Qed.

#[global] Instance StoreGrows_preorder : PreOrder StoreGrows.
Proof.
  split.
  - intros c. by split.
  - intros c1 c2 c3 [E1 P1] [E2 P2]. split; [congruence|by etrans].
Qed.

#[global] Instance StoreKept_preorder : PreOrder StoreKept.
Proof.
  split.
  - intros c. by repeat split.
  - intros c1 c2 c3 (?&?&?) (?&?&?). repeat split; congruence.
Qed.

#[global] Instance NoEngineRun_preorder : PreOrder NoEngineRun.
Proof.
  split.
  - intros c. done.
  - intros c1 c2 c3. unfold NoEngineRun. congruence.
Qed.

#[global] Instance PercentKept_preorder : PreOrder PercentKept.
Proof.
  split.
  - intros c. done.
  - intros c1 c2 c3. unfold PercentKept. congruence.
Qed.

#[global] Instance Records_preorder V : PreOrder (Records V).
Proof.
  split.
  - intros c. exists []. rewrite app_nil_r. split; [done|].
    intros r Hr. by apply elem_of_nil in Hr.
  - intros c1 c2 c3 (n1 & E1 & H1) (n2 & E2 & H2). exists (n1 ++ n2).
    split; [by rewrite E2, E1, app_assoc|].
    intros r Hr. rewrite engineRuns_app in Hr.
    apply elem_of_app in Hr as [Hr|Hr]; auto.
Qed.

(** Emitting an event that is not an engine run. *)
Lemma Records_quiet V e c :
  engineRun e = None -> Records V c (set_Trace (Trace c ++ [e]) c).
Proof.
  intros He. exists [e]. split; [done|]. intros r Hr.
  unfold engineRuns in Hr. cbn in Hr. rewrite He in Hr.
  by apply elem_of_nil in Hr.
Qed.

#[global] Instance Quiet_preorder : PreOrder Quiet.
Proof.
  split.
  - intros c. exists []. by rewrite app_nil_r.
  - intros c1 c2 c3 (n1 & E1 & H1) (n2 & E2 & H2). exists (n1 ++ n2).
    split; [by rewrite E2, E1, app_assoc|].
    by rewrite engineRuns_app, H1, H2.
Qed.

Lemma Quiet_same_trace c c' : Trace c' = Trace c -> Quiet c c'.
Proof. intros E. exists []. by rewrite app_nil_r. Qed.

Lemma Quiet_Records V c c' : Quiet c c' -> Records V c c'.
Proof.
  intros (new & E & H). exists new. split; [done|].
  rewrite H. intros r Hr. by apply elem_of_nil in Hr.
Qed.

Lemma Quiet_NoEngineRun c c' : Quiet c c' -> NoEngineRun c c'.
Proof.
  intros (new & E & H). unfold NoEngineRun.
  by rewrite E, engineRuns_app, H, app_nil_r.
Qed.

Lemma StoreKept_StoreGrows c c' : StoreKept c c' -> StoreGrows c c'.
Proof. intros (?&E&?). split; [done|]. by rewrite E. Qed.

Ltac frame_solve :=
  intros;
  first
    [ by (unfold StoreKept; cbn)
    | by (unfold StoreGrows; cbn)
    | by (unfold PercentKept; cbn)
    | by (unfold NoEngineRun; cbn; rewrite ?engineRuns_app; cbn;
          rewrite ?app_nil_r)
    | by (apply Records_quiet; cbn)
    | by (apply Quiet_same_trace; cbn)
    | by (apply Quiet_Records, Quiet_same_trace; cbn)
    | by (eexists [_]; cbn; split)
    | by (eexists []; cbn; rewrite ?app_nil_r; split;
          [|intros ? ?%elem_of_nil]) ].

Ltac instance_goal := try (solve [apply _]).

Ltac preserves_step :=
  first
    [ apply preserves_ret; instance_goal
    | apply preserves_get; instance_goal
    | apply preserves_assert; instance_goal
    | apply preserves_fail; instance_goal
    | apply preserves_emit; [frame_solve]
    | apply preserves_modify; [frame_solve]
    | apply preserves_bind; instance_goal;
      lazymatch goal with
      | |- forall _, _ => intros ?
      | _ => idtac
      end
    | progress cbn zeta
    | lazymatch goal with
      | |- preserves _ (if ?b then _ else _) => destruct b
      | |- preserves _ (match ?x with _ => _ end) => destruct x
      end ].

Ltac preserves_auto := repeat preserves_step.

Ltac sbind := eapply succeeds_bind; [apply _| |].
Ltac succeeds_done := apply succeeds_ret; first [done|apply _].

Lemma succeeds_StoreKept_StoreGrows {A} I (m : M A) Q :
  succeeds I StoreKept m Q -> succeeds I StoreGrows m Q.
Proof.
  intros H c Hc. destruct (H c Hc) as (a & c' & ? & ? & ? & ?).
  exists a, c'. repeat split; try done; by apply StoreKept_StoreGrows.
Qed.

(** ** Machine integers *)

Lemma to_unsigned_range z : 0 <= to_unsigned z < 2 ^ UNSIGNED_BITS.
Proof. unfold to_unsigned. apply Z.mod_pos_bound. done. Qed.

Lemma to_unsigned_small z : 0 <= z < 2 ^ UNSIGNED_BITS -> to_unsigned z = z.
Proof. intros H. unfold to_unsigned. by apply Z.mod_small. Qed.

Lemma to_unsigned_add_l a b : to_unsigned (to_unsigned a + b) = to_unsigned (a + b).
Proof. unfold to_unsigned. apply Zplus_mod_idemp_l. Qed.

(** Masking an [unsigned] with [~AM_Path] clears bit 1 and nothing else. *)
Lemma land_not_AM_Path (Mode : Z) :
  0 <= Mode < 2 ^ UNSIGNED_BITS ->
  Z.land Mode (to_unsigned (Z.lnot AM_Path)) = Z.clearbit Mode 1.
Proof.
  intros [Hlo Hhi]. apply Z.bits_inj'. intros n Hn.
  rewrite Z.land_spec. unfold to_unsigned, UNSIGNED_BITS.
  destruct (Z_lt_dec n 32) as [Hlt|Hge].
  - rewrite Z.mod_pow2_bits_low by lia.
    rewrite Z.lnot_spec by lia.
    change AM_Path with (2 ^ 1). rewrite Z.pow2_bits_eqb by lia.
    destruct (Z.eqb_spec 1 n) as [<-|Hne].
    + rewrite Z.clearbit_eq by lia. apply andb_false_r.
    + rewrite Z.clearbit_neq by lia. apply andb_true_r.
  - rewrite Z.mod_pow2_bits_high by lia. rewrite andb_false_r.
    rewrite Z.clearbit_neq by lia.
    symmetry. destruct (Z.eq_dec Mode 0) as [->|Hnz].
    + apply Z.bits_0.
    + apply Z.bits_above_log2; [lia|].
      assert (Z.log2 Mode < 32); [|lia].
      apply Z.log2_lt_pow2; unfold UNSIGNED_BITS in *; lia.
Qed.

(** ** Declaration collector *)

Lemma storeTopLevelDecls_spec (DG : list Decl) c :
  storeTopLevelDecls DG c
  = Ok (tt, set_LocalTUDecls (LocalTUDecls c ++ filter isNotMethod DG) c).
Proof.
  revert c. induction DG as [|D Rest IH]; intros c; cbn [storeTopLevelDecls].
  - simpl. rewrite app_nil_r, set_LocalTUDecls_id. done.
  - destruct (isa_ObjCMethodDecl D) eqn:HD.
    + rewrite IH. rewrite filter_cons_False; [done|].
      unfold isNotMethod. by rewrite HD.
    + rewrite filter_cons_True by done.
      munfold. rewrite IH. unfold push_back.
      rewrite set_LocalTUDecls_twice. cbn [LocalTUDecls set_LocalTUDecls].
      rewrite <- app_assoc. done.
Qed.

(** C9 (as amended).  Both delivery entry points skip every method
    declaration of the group, however often it is delivered, and append
    every other declaration to the store in discovery order; nothing else
    of the consumer changes (no analysis is run) and delivery cannot fail. *)
Theorem storeTopLevelDecls_appends_non_methods (DG : list Decl) c :
  let c' := set_LocalTUDecls (LocalTUDecls c ++ filter isNotMethod DG) c in
  HandleTopLevelDecl DG c = Ok (true, c')
  /\ HandleTopLevelDeclInObjCContainer DG c = Ok (tt, c')
  /\ Trace c' = Trace c
  /\ forall D, D ∈ DG -> isa_ObjCMethodDecl D = true ->
       D ∉ LocalTUDecls c -> D ∉ LocalTUDecls c'.
Proof.
  cbn zeta. unfold HandleTopLevelDecl, HandleTopLevelDeclInObjCContainer.
  munfold. rewrite storeTopLevelDecls_spec. repeat split.
  intros D _ HM Hnot Hin. cbn [LocalTUDecls set_LocalTUDecls] in Hin.
  apply elem_of_app in Hin as [Hin|Hin]; [done|].
  apply list_elem_of_filter in Hin as [Hnm _].
  unfold isNotMethod in Hnm. congruence.
Qed.

Lemma deliverGroups_spec (groups : list (list Decl)) c :
  deliverGroups groups c
  = Ok (tt, set_LocalTUDecls
              (LocalTUDecls c ++ filter isNotMethod (concat groups)) c).
Proof.
  revert c. induction groups as [|DG rest IH]; intros c; cbn [deliverGroups].
  - cbn. rewrite app_nil_r, set_LocalTUDecls_id. done.
  - unfold HandleTopLevelDecl. munfold. rewrite storeTopLevelDecls_spec.
    rewrite IH. cbn [concat]. rewrite filter_app, app_assoc. done.
Qed.

Lemma deliverDeserialized_spec c :
  deliverDeserialized c
  = Ok (tt, match PendingDeserialization c with
            | [] => c
            | groups :: rest =>
                set_LocalTUDecls
                  (LocalTUDecls c ++ filter isNotMethod (concat groups))
                  (set_PendingDeserialization rest c)
            end).
Proof.
  unfold deliverDeserialized. munfold.
  destruct (PendingDeserialization c) as [|groups rest]; [done|].
  rewrite deliverGroups_spec. done.
Qed.

Lemma deliverDeserialized_StoreGrows : preserves StoreGrows deliverDeserialized.
Proof.
  intros c a c' H. rewrite deliverDeserialized_spec in H. simplify_eq.
  destruct (PendingDeserialization c); [done|].
  split; [done|]. cbn. by apply prefix_app_r.
Qed.

Lemma deliverDeserialized_NoEngineRun : preserves NoEngineRun deliverDeserialized.
Proof.
  intros c a c' H. rewrite deliverDeserialized_spec in H. simplify_eq.
  by destruct (PendingDeserialization c).
Qed.

Lemma deliverDeserialized_succeeds I :
  (forall c l p, I c -> I (set_LocalTUDecls l (set_PendingDeserialization p c))) ->
  succeeds I StoreGrows deliverDeserialized anyValue.
Proof.
  intros HI c Hc. eexists tt, _. split; [apply deliverDeserialized_spec|].
  destruct (PendingDeserialization c) eqn:E.
  - by repeat split.
  - split; [by apply HI|]. split; [|done].
    split; [done|]. cbn. by apply prefix_app_r.
Qed.

(** ** Loops *)

Lemma LocalTUDecls_at_Ok (k : nat) D c :
  LocalTUDecls c !! k = Some D -> LocalTUDecls_at (Z.of_nat k) c = Ok (D, c).
Proof. intros H. unfold LocalTUDecls_at. munfold. by rewrite Nat2Z.id, H. Qed.

(** An index loop whose bound lies within the snapshot [l0] runs its body
    on the snapshot's entries, whatever the body appends to the store, and
    does not run out of fuel. *)
Lemma for_unsigned_from_snapshot {A} (body : Decl -> A -> M A) (l0 : list Decl) :
  (forall D a, preserves StoreGrows (body D a)) ->
  forall (count k fuel : nat) a c,
    l0 `prefix_of` LocalTUDecls c ->
    (k + count <= length l0)%nat ->
    (count <= fuel)%nat ->
    Z.of_nat (k + count) < 2 ^ UNSIGNED_BITS ->
    for_unsigned_from fuel (Z.of_nat k) (Z.of_nat (k + count))
      (fun i a => D ← LocalTUDecls_at i; body D a) a c
    = foldDecls body (take count (drop k l0)) a c.
Proof.
  intros Hbody count.
  induction count as [|count IH]; intros k fuel a c Hpre Hlen Hfuel Hhi.
  - destruct fuel; cbn [for_unsigned_from];
      rewrite Nat.add_0_r, Z.ltb_irrefl; done.
  - destruct fuel as [|fuel]; [lia|]. cbn [for_unsigned_from].
    destruct (Z.ltb_spec (Z.of_nat k) (Z.of_nat (k + S count))) as [_|?];
      [|lia].
    destruct (lookup_lt_is_Some_2 l0 k) as [D HD]; [lia|].
    rewrite (drop_S _ _ _ HD). cbn [take foldDecls].
    assert (HD' : LocalTUDecls c !! k = Some D)
      by (by eapply prefix_lookup_Some).
    unfold mbind, M_bind.
    rewrite (LocalTUDecls_at_Ok _ _ _ HD').
    destruct (body D a c) as [[a' c']|e] eqn:Hrun; [|done].
    rewrite to_unsigned_small by lia.
    replace (Z.of_nat k + 1) with (Z.of_nat (S k)) by lia.
    replace (k + S count)%nat with (S k + count)%nat in * by lia.
    apply IH; [|lia|lia|lia].
    etrans; [exact Hpre|]. by apply (Hbody D a c a' c').
Qed.

Lemma for_unsigned_snapshot {A} (body : Decl -> A -> M A) (l0 : list Decl) :
  (forall D a, preserves StoreGrows (body D a)) ->
  forall a c,
    l0 `prefix_of` LocalTUDecls c ->
    for_unsigned (to_unsigned (Z.of_nat (length l0)))
      (fun i a => D ← LocalTUDecls_at i; body D a) a c
    = foldDecls body
        (take (Z.to_nat (to_unsigned (Z.of_nat (length l0)))) l0) a c.
Proof.
  intros Hbody a c Hpre. unfold for_unsigned.
  pose proof (to_unsigned_range (Z.of_nat (length l0))) as [Hlo Hhi].
  assert (Hle : to_unsigned (Z.of_nat (length l0)) <= Z.of_nat (length l0))
    by (unfold to_unsigned; apply Z.mod_le; [lia|done]).
  set (n := Z.to_nat (to_unsigned (Z.of_nat (length l0)))).
  assert (Hn : to_unsigned (Z.of_nat (length l0)) = Z.of_nat (0 + n))
    by (subst n; lia).
  transitivity
    (for_unsigned_from n (Z.of_nat 0) (Z.of_nat (0 + n))
       (fun i a => D ← LocalTUDecls_at i; body D a) a c).
  { by rewrite <- Hn. }
  change (take n l0) with (take n (drop 0 l0)).
  apply for_unsigned_from_snapshot; [done|done|lia|lia|lia].
Qed.

Lemma foldDecls_preserves {A} R `{!PreOrder R} (body : Decl -> A -> M A) :
  (forall D a, preserves R (body D a)) ->
  forall Ds a, preserves R (foldDecls body Ds a).
Proof.
  intros Hbody Ds. induction Ds as [|D Ds IH]; intros a; cbn.
  - by apply preserves_ret.
  - apply preserves_bind; [done|apply Hbody|apply IH].
Qed.

Lemma foldDecls_succeeds {A} I R `{!PreOrder R} (body : Decl -> A -> M A) :
  (forall D a, succeeds I R (body D a) anyValue) ->
  forall Ds a, succeeds I R (foldDecls body Ds a) anyValue.
Proof.
  intros Hbody Ds. induction Ds as [|D Ds IH]; intros a; cbn.
  - by apply succeeds_ret.
  - eapply succeeds_bind; [done|apply Hbody|intros a' _; apply IH].
Qed.

Section Properties.

Variable env : Collaborators.

(** ** Mode resolver *)

Lemma getFunctionName_displayName D name :
  name <> "" ->
  (getFunctionName D = name <-> displayName D = Some name).
Proof.
  intros Hne. unfold getFunctionName, displayName.
  destruct (declKind D) as [[II|] ? ?|Sel ? ?| |]; split; intros H;
    try congruence; try (by inversion H).
Qed.

(** C3.  For every declaration and every requested mode (an [unsigned]),
    [getModeForDecl] returns what the Mode Resolver of the design document
    prescribes: the empty mode when a name filter is configured and the
    display name does not match; otherwise, outside the main file and
    without analyze-all, the empty mode for an invalid or system-header
    location and the requested mode without its Path bit for any other;
    otherwise the requested mode.  Being a function of the declaration, the
    mode and the configuration, it is deterministic. *)
Theorem getModeForDecl_resolves (D : Decl) (Mode : AnalysisMode) :
  0 <= Mode < 2 ^ UNSIGNED_BITS ->
  getModeForDecl env D Mode = ModeResolver env D Mode.
Proof.
  intros HMode. unfold getModeForDecl, ModeResolver, specificFunctionFilter.
  set (Filter := AnalyzeSpecificFunction (Opts env)).
  set (byLocation := if bool_decide (_ /\ _) then _ else Mode).
  assert (Hloc :
    (let SL := getExpansionLoc (SM env) (getLocation D) in
     if negb (AnalyzeAll (Opts env)) && negb (isFromMainFile (SM env) SL)
     then if SourceLocation_isInvalid SL || isInSystemHeader (SM env) SL
          then AM_None else Z.land Mode (to_unsigned (Z.lnot AM_Path))
     else Mode) = byLocation).
  { subst byLocation. cbn zeta. unfold SourceLocation_isInvalid.
    rewrite land_not_AM_Path by done.
    destruct (AnalyzeAll (Opts env)), (isFromMainFile (SM env) _); simpl;
      try done.
    destruct (Z.eqb_spec (getExpansionLoc (SM env) (getLocation D)) 0) as [E|E];
      simpl.
    - rewrite bool_decide_eq_true_2 by (by left). done.
    - destruct (isInSystemHeader (SM env) _).
      + rewrite bool_decide_eq_true_2 by (by right). done.
      + rewrite bool_decide_eq_false_2 by (intros [?|?]; congruence). done. }
  cbn zeta in Hloc. rewrite Hloc. clear Hloc.
  destruct (String.eqb_spec Filter "") as [E|E]; simpl.
  - rewrite bool_decide_eq_true_2 by done. done.
  - rewrite bool_decide_eq_false_2 by done.
    destruct (String.eqb_spec (getFunctionName D) Filter) as [E'|E']; simpl.
    + rewrite bool_decide_eq_true_2; [done|].
      by apply getFunctionName_displayName.
    + rewrite bool_decide_eq_false_2; [done|].
      intros H. by apply getFunctionName_displayName in H.
Qed.

(** ** Scheduling decisions *)

Lemma shouldSkipFunction_true D V T :
  shouldSkipFunction D V T = true
  <-> declID D ∈ T \/ (isa_ObjCMethodDecl D = false /\ declID D ∈ V).
Proof.
  unfold shouldSkipFunction.
  destruct (bool_decide_reflect (declID D ∈ T)) as [HT|HT].
  - split; [by left|done].
  - destruct (isa_ObjCMethodDecl D).
    + split; [done|]. intros [?|[? _]]; done.
    + rewrite bool_decide_eq_true. split; [by right|].
      intros [?|[_ ?]]; done.
Qed.

Lemma getInliningModeForFunction_Ok (D : Decl)
    (Visited VisitedAsTopLevel : SetOfConstDecls) c :
  shouldInlineCall (Opts env) = true ->
  shouldSkipFunction D Visited VisitedAsTopLevel = false ->
  getInliningModeForFunction env D Visited c
  = Ok (InliningModeOfTopLevelRun D Visited, c).
Proof.
  intros Hinl Hskip.
  assert (Hm : declID D ∈ Visited -> isa_ObjCMethodDecl D = true).
  { intros HV. destruct (isa_ObjCMethodDecl D) eqn:E; [done|].
    assert (shouldSkipFunction D Visited VisitedAsTopLevel = true); [|congruence].
    apply shouldSkipFunction_true. by right. }
  unfold getInliningModeForFunction, InliningModeOfTopLevelRun.
  rewrite Hinl.
  destruct (bool_decide_reflect (declID D ∈ Visited)) as [HV|HV].
  - specialize (Hm HV). munfold. rewrite Hm.
    unfold isa_ObjCMethodDecl in Hm.
    destruct (declKind D) as [| Sel family def | |]; try done.
    destruct (bool_decide_reflect (family <> OMF_init)) as [Hf|Hf].
    + rewrite bool_decide_eq_true_2 by done. done.
    + rewrite bool_decide_eq_false_2 by (intros [? ?]; done). done.
  - munfold. destruct (declKind D); try done.
    rewrite bool_decide_eq_false_2 by (intros [? ?]; done). done.
Qed.

(** C2.  With inlining enabled, the inlining mode of a top-level run (a
    declaration that [shouldSkipFunction] does not skip) is inline-all,
    except for a method already in [Visited] whose family is not the
    initializer family, which is re-run with inline-none; a visited method
    of the initializer family keeps inline-all.  The computation does not
    fail and leaves the consumer unchanged. *)
Theorem getInliningModeForFunction_top_level (D : Decl)
    (Visited VisitedAsTopLevel : SetOfConstDecls) c :
  shouldInlineCall (Opts env) = true ->
  shouldSkipFunction D Visited VisitedAsTopLevel = false ->
  getInliningModeForFunction env D Visited c
  = Ok (InliningModeOfTopLevelRun D Visited, c).
Proof. apply getInliningModeForFunction_Ok. Qed.

(** ** Engine invoker *)

Lemma ActionExprEngine_skips (D : Decl) gc IMode acc c :
  getCFG env D = None \/ RelaxedLiveVariables env D = false ->
  ActionExprEngine env D gc IMode acc c = Ok (acc, c).
Proof.
  unfold ActionExprEngine. intros [H|H].
  - by rewrite H.
  - rewrite H. by destruct (getCFG env D).
Qed.

Lemma ActionExprEngine_runs (D : Decl) gc IMode acc c :
  is_Some (getCFG env D) -> RelaxedLiveVariables env D = true ->
  let Eng := ExecuteWorkList env (FunctionSummaries c) D gc IMode in
  ActionExprEngine env D gc IMode acc c
  = Ok ((fun VC => VC ∪ Eng.1) <$> acc,
        set_Trace (Trace c ++ [ExprEngine_run (declID D) gc IMode Eng.1])
                  (set_FunctionSummaries Eng.2 c)).
Proof.
  intros [cfg Hcfg] Hlive. unfold ActionExprEngine. rewrite Hcfg, Hlive.
  done.
Qed.

Lemma ActionExprEngine_StoreKept D gc IMode acc :
  preserves StoreKept (ActionExprEngine env D gc IMode acc).
Proof. unfold ActionExprEngine. preserves_auto. Qed.

Lemma RunPathSensitiveChecks_StoreKept D IMode acc :
  preserves StoreKept (RunPathSensitiveChecks env D IMode acc).
Proof.
  unfold RunPathSensitiveChecks.
  destruct (getGC env); preserves_auto; apply ActionExprEngine_StoreKept.
Qed.

Lemma DisplayFunction_StoreKept D Mode :
  preserves StoreKept (DisplayFunction env D Mode).
Proof. unfold DisplayFunction. preserves_auto. Qed.

Lemma DisplayFunction_NoEngineRun D Mode :
  preserves NoEngineRun (DisplayFunction env D Mode).
Proof. unfold DisplayFunction. preserves_auto. Qed.

Lemma HandleCode_StoreKept D Mode IMode acc :
  preserves StoreKept (HandleCode env D Mode IMode acc).
Proof.
  unfold HandleCode. preserves_auto;
    first [apply DisplayFunction_StoreKept|apply RunPathSensitiveChecks_StoreKept].
Qed.

Lemma HandleCode_NoEngineRun D Mode IMode acc :
  hasPathSensitiveCheckers env = false ->
  preserves NoEngineRun (HandleCode env D Mode IMode acc).
Proof.
  intros Hno. unfold HandleCode. rewrite Hno, andb_false_r.
  preserves_auto; apply DisplayFunction_NoEngineRun.
Qed.

(** ** Success of the engine invoker *)

Lemma getModeForDecl_cases D Mode :
  getModeForDecl env D Mode = AM_None
  \/ getModeForDecl env D Mode = Mode
  \/ getModeForDecl env D Mode = Z.land Mode (to_unsigned (Z.lnot AM_Path)).
Proof.
  unfold getModeForDecl.
  destruct (_ && _); [by left|]. cbn zeta.
  destruct (_ && _); [|by right; left].
  destruct (_ || _); [by left|by right; right].
Qed.

Lemma getModeForDecl_well_formed D Mode :
  Mode = 1 \/ Mode = 2 \/ Mode = 3 ->
  getModeForDecl env D Mode = AM_None
  \/ getModeForDecl env D Mode = 1
  \/ getModeForDecl env D Mode = 2
  \/ getModeForDecl env D Mode = 3.
Proof.
  intros HMode.
  destruct (getModeForDecl_cases D Mode) as [E|[E|E]]; rewrite E.
  - by left.
  - right. exact HMode.
  - destruct HMode as [-> | [-> | ->]]; vm_compute; auto.
Qed.

Section Invariant.

(** An invariant that only reads the visitor mode. *)
Variable I : AnalysisConsumer -> Prop.
Hypothesis I_stable :
  forall c c', RecVisitorMode c' = RecVisitorMode c -> I c -> I c'.

Ltac inv_frame_solve :=
  let c := fresh "c" in
  let Hc := fresh "Hc" in
  intros c Hc; split; [by apply (I_stable c)|frame_solve].

Ltac succeeds_prim :=
  first
    [ apply succeeds_emit; first [apply _|inv_frame_solve]
    | apply succeeds_modify; first [apply _|inv_frame_solve] ].

Lemma DisplayFunction_succeeds D Mode :
  Mode = 1 \/ Mode = 2 \/ Mode = 3 ->
  succeeds I StoreKept (DisplayFunction env D Mode) anyValue.
Proof.
  intros HMode. unfold DisplayFunction.
  destruct (negb _); [succeeds_done|].
  destruct (PresumedLoc_isValid _ _); [|succeeds_done].
  sbind; [succeeds_prim|intros _ _].
  sbind.
  { destruct HMode as [-> | [-> | ->]]; cbn.
    - succeeds_prim.
    - succeeds_prim.
    - apply succeeds_assert; [apply _|done]. }
  intros _ _.
  repeat first
    [ succeeds_prim
    | succeeds_done
    | sbind; [succeeds_prim|intros _ _]
    | lazymatch goal with
      | |- succeeds _ _ (if ?b then _ else _) _ => destruct b
      | |- succeeds _ _ (match ?x with _ => _ end) _ => destruct x
      end ].
Qed.

Lemma ActionExprEngine_succeeds D gc IMode acc :
  succeeds I StoreKept (ActionExprEngine env D gc IMode acc) anyValue.
Proof.
  intros c Hc.
  destruct (getCFG env D) as [cfg|] eqn:Hcfg;
    [destruct (RelaxedLiveVariables env D) eqn:Hlive|].
  - eexists _, _. rewrite ActionExprEngine_runs by eauto.
    split; [done|]. split; [by apply (I_stable c)|]. by repeat split.
  - exists acc, c. rewrite ActionExprEngine_skips by auto. by repeat split.
  - exists acc, c. rewrite ActionExprEngine_skips by auto. by repeat split.
Qed.

Lemma RunPathSensitiveChecks_succeeds D IMode acc :
  succeeds I StoreKept (RunPathSensitiveChecks env D IMode acc) anyValue.
Proof.
  unfold RunPathSensitiveChecks. destruct (getGC env).
  - apply ActionExprEngine_succeeds.
  - apply ActionExprEngine_succeeds.
  - sbind; [apply ActionExprEngine_succeeds|].
    intros acc' _. apply ActionExprEngine_succeeds.
Qed.

Lemma HandleCode_succeeds D Mode IMode acc :
  Mode = 1 \/ Mode = 2 \/ Mode = 3 ->
  succeeds I StoreKept (HandleCode env D Mode IMode acc) anyValue.
Proof.
  intros HMode. unfold HandleCode.
  destruct (negb (hasBody D)); [succeeds_done|]. cbn zeta.
  destruct (getModeForDecl_well_formed D Mode HMode) as [E|HM].
  { rewrite E, Z.eqb_refl. succeeds_done. }
  destruct (Z.eqb_spec (getModeForDecl env D Mode) AM_None) as [E0|_];
    [succeeds_done|].
  sbind; [by apply DisplayFunction_succeeds|intros _ _].
  sbind.
  { destruct (getCFG env D); [succeeds_prim|succeeds_done]. }
  intros _ _. sbind.
  { destruct (negb _); [succeeds_prim|succeeds_done]. }
  intros _ _. destruct (_ && _); [|succeeds_done].
  sbind; [apply RunPathSensitiveChecks_succeeds|].
  intros acc' _. sbind; [|intros _ _; succeeds_done].
  destruct (bool_decide _); [succeeds_prim|succeeds_done].
Qed.

End Invariant.

Lemma VisitorModeSet_stable c c' :
  RecVisitorMode c' = RecVisitorMode c ->
  VisitorModeSet env c -> VisitorModeSet env c'.
Proof. unfold VisitorModeSet. congruence. Qed.

Ltac inv_frame_solve :=
  let c := fresh "c" in
  let Hc := fresh "Hc" in
  intros c Hc; split; [exact Hc|frame_solve].

Ltac succeeds_prim :=
  first
    [ apply succeeds_emit; first [apply _|inv_frame_solve]
    | apply succeeds_modify; first [apply _|inv_frame_solve] ].

(** [HandleCode] returns from every state when the requested mode is one of
    Syntax, Path and Syntax|Path. *)
Lemma HandleCode_total D Mode IMode acc c :
  Mode = 1 \/ Mode = 2 \/ Mode = 3 ->
  exists r c', HandleCode env D Mode IMode acc c = Ok (r, c').
Proof.
  intros HMode.
  destruct (HandleCode_succeeds (fun _ => True) (fun _ _ _ H => H)
              D Mode IMode acc HMode c) as (r & c' & H & _); [done|].
  by exists r, c'.
Qed.

(** ** The recursive visitor *)

Lemma TraverseDecl_unfold D :
  TraverseDecl env D
  = (deliverDeserialized ;;
     continue ← WalkUpFromDecl env D;
     if (continue : bool) then TraverseDecls env (nestedDecls D)
     else mret false).
Proof. by destruct D. Qed.

Section Walk.

Context (R : relation AnalysisConsumer) `{!PreOrder R}.
Hypothesis deliver_preserves : preserves R deliverDeserialized.
Hypothesis HandleCode_preserves :
  forall D Mode IMode acc, preserves R (HandleCode env D Mode IMode acc).
Hypothesis emit_preserves :
  forall e c, engineRun e = None -> R c (set_Trace (Trace c ++ [e]) c).
Hypothesis count_preserves : forall c, R c (countTopLevel c).

Lemma WalkUpFromDecl_preserves D : preserves R (WalkUpFromDecl env D).
Proof.
  unfold WalkUpFromDecl, VisitDecl, VisitFunctionDecl, VisitObjCMethodDecl,
    VisitBlockDecl.
  repeat first
    [ apply HandleCode_preserves
    | apply preserves_emit; first [apply _|intros ?; by apply emit_preserves]
    | preserves_step ].
Qed.

Lemma TraverseDecl_preserves D : preserves R (TraverseDecl env D).
Proof.
  induction D as [id kind body loc nested IH] using Decl_nested_ind.
  rewrite TraverseDecl_unfold.
  apply preserves_bind; [apply _|apply deliver_preserves|intros _].
  apply preserves_bind; [apply _|apply WalkUpFromDecl_preserves|intros [|]];
    [|apply preserves_ret; apply _].
  cbn [nestedDecls]. induction IH as [|Child Ds HChild _ IHDs]; cbn.
  - apply preserves_ret; apply _.
  - apply preserves_bind; [apply _|apply HChild|intros [|]];
      [apply IHDs|apply preserves_ret; apply _].
Qed.

Lemma for_unsigned_from_preserves {A} (body : Z -> A -> M A) :
  (forall i a, preserves R (body i a)) ->
  forall fuel i hi a, preserves R (for_unsigned_from fuel i hi body a).
Proof.
  intros Hbody fuel. induction fuel as [|fuel IH]; intros i hi a; cbn.
  - destruct (i <? hi); [apply preserves_fail|apply preserves_ret]; apply _.
  - destruct (i <? hi); [|apply preserves_ret; apply _].
    apply preserves_bind; [apply _|apply Hbody|intros a'; apply IH].
Qed.

Lemma LocalTUDecls_at_preserves i : preserves R (LocalTUDecls_at i).
Proof. unfold LocalTUDecls_at. preserves_auto. Qed.

Lemma traverseLocalTUDecls_preserves n :
  preserves R (traverseLocalTUDecls env n).
Proof.
  unfold traverseLocalTUDecls, for_unsigned. apply for_unsigned_from_preserves.
  intros i []. apply preserves_bind; [apply _|apply LocalTUDecls_at_preserves|].
  intros D. apply preserves_bind; [apply _|apply TraverseDecl_preserves|].
  intros ?. apply preserves_ret; apply _.
Qed.

Lemma buildCallGraph_preserves n : preserves R (buildCallGraph env n).
Proof.
  unfold buildCallGraph, for_unsigned. apply for_unsigned_from_preserves.
  intros i CG. apply preserves_bind; [apply _|apply LocalTUDecls_at_preserves|].
  intros D. apply preserves_bind; [apply _|apply deliver_preserves|].
  intros ?. apply preserves_ret; apply _.
Qed.

Lemma HandleDeclsCallGraph_node_preserves N L :
  preserves R (HandleDeclsCallGraph_node env N L).
Proof.
  unfold HandleDeclsCallGraph_node, getInliningModeForFunction.
  apply preserves_bind;
    [apply _|apply preserves_modify; first [apply _|apply count_preserves]|].
  intros _.
  repeat first [apply HandleCode_preserves | preserves_step].
Qed.

Lemma HandleDeclsCallGraph_nodes_preserves RPOT L :
  preserves R (HandleDeclsCallGraph_nodes env RPOT L).
Proof.
  revert L. induction RPOT as [|N RPOT IH]; intros L; cbn.
  - apply preserves_ret; apply _.
  - apply preserves_bind;
      [apply _|apply HandleDeclsCallGraph_node_preserves|intros L'; apply IH].
Qed.

Lemma HandleDeclsCallGraph_preserves n :
  preserves R (HandleDeclsCallGraph env n).
Proof.
  unfold HandleDeclsCallGraph.
  apply preserves_bind; [apply _|apply buildCallGraph_preserves|].
  intros CG. apply HandleDeclsCallGraph_nodes_preserves.
Qed.

(** [runPasses] is the passes, which respect [R], followed by the
    statistics. *)
Lemma runPasses_inv c c' :
  runPasses env c = Ok (tt, c') ->
  exists c1, R c c1 /\ countCoverage c1 = Ok (tt, c').
Proof.
  unfold runPasses. intros H.
  apply bind_inv in H as (n & c0 & H0 & H).
  assert (c0 = c) as -> by (munfold; by simplify_eq).
  apply bind_inv in H as (? & c1 & H1 & H).
  apply (preserves_apply R) in H1; [|apply traverseLocalTUDecls_preserves].
  apply bind_inv in H as (? & c2 & H2 & H).
  apply (preserves_apply R) in H2.
  2:{ destruct (shouldInlineCall _); [|apply preserves_ret; apply _].
      apply preserves_bind; [apply _|apply HandleDeclsCallGraph_preserves|].
      intros ?. apply preserves_ret; apply _. }
  apply bind_inv in H as (? & c3 & H3 & H).
  apply (preserves_apply R) in H3;
    [|apply preserves_emit; first [apply _|intros ?; by apply emit_preserves]].
  exists c3. split; [|done]. etrans; [exact H1|by etrans].
Qed.

End Walk.

Lemma HandleCode_StoreGrows D Mode IMode acc :
  preserves StoreGrows (HandleCode env D Mode IMode acc).
Proof.
  eapply preserves_weaken; [apply StoreKept_StoreGrows|].
  apply HandleCode_StoreKept.
Qed.

Lemma TraverseDecl_StoreGrows D : preserves StoreGrows (TraverseDecl env D).
Proof.
  apply TraverseDecl_preserves; try apply _.
  - apply deliverDeserialized_StoreGrows.
  - apply HandleCode_StoreGrows.
  - frame_solve.
Qed.

Lemma NoEngineRun_emit e c :
  engineRun e = None -> NoEngineRun c (set_Trace (Trace c ++ [e]) c).
Proof.
  intros He. unfold NoEngineRun, engineRuns. cbn.
  by rewrite omap_app; cbn; rewrite He, app_nil_r.
Qed.

Lemma visitorMode_well_formed :
  visitorMode env = 1 \/ visitorMode env = 2 \/ visitorMode env = 3.
Proof. unfold visitorMode. destruct (shouldInlineCall _); auto. Qed.

Lemma visitorMode_assert :
  (visitorMode env =? AM_Syntax) || negb (shouldInlineCall (Opts env)) = true.
Proof. unfold visitorMode. by destruct (shouldInlineCall _). Qed.

(** A body handled by one of the visitor's callbacks. *)
Lemma visit_HandleCode_succeeds D :
  succeeds (VisitorModeSet env) StoreGrows
    (RecVisitorMode ← get RecVisitorMode;
     assert ((RecVisitorMode =? AM_Syntax)
             || negb (shouldInlineCall (Opts env)))
            "RecVisitorMode == AM_Syntax || !shouldInlineCall" ;;
     HandleCode env D RecVisitorMode Inline_None None ;; mret tt)
    anyValue.
Proof.
  sbind; [apply (succeeds_get _ _ _ (fun a => a = visitorMode env)); by auto|].
  intros a ->. sbind; [apply succeeds_assert; [apply _|apply visitorMode_assert]|].
  intros _ _. sbind; [|intros _ _; succeeds_done].
  apply succeeds_StoreKept_StoreGrows, HandleCode_succeeds.
  - apply VisitorModeSet_stable.
  - apply visitorMode_well_formed.
Qed.

(** The callbacks never end the walk: they return true. *)
Lemma WalkUpFromDecl_succeeds D :
  succeeds (VisitorModeSet env) StoreGrows (WalkUpFromDecl env D)
    (fun continue => continue = true).
Proof.
  unfold WalkUpFromDecl.
  eapply succeeds_bind with (Q := fun continue => continue = true);
    [apply _| |].
  { unfold VisitDecl. sbind; [apply (succeeds_get _ _ _ anyValue); done|].
    intros Mode _. sbind; [|intros _ _; succeeds_done].
    destruct (negb _); [succeeds_prim|succeeds_done]. }
  intros continue ->.
  unfold VisitFunctionDecl, VisitObjCMethodDecl, VisitBlockDecl.
  destruct (declKind D) as [II isDef isDep|Sel family isDef| |].
  - destruct (match II with Some _ => _ | None => _ end); [succeeds_done|].
    sbind; [|intros _ _; succeeds_done].
    destruct (_ && _); [apply visit_HandleCode_succeeds|succeeds_done].
  - sbind; [|intros _ _; succeeds_done].
    destruct isDef; [apply visit_HandleCode_succeeds|succeeds_done].
  - sbind; [|intros _ _; succeeds_done].
    destruct (hasBody D); [apply visit_HandleCode_succeeds|succeeds_done].
  - succeeds_done.
Qed.

Lemma TraverseDecl_succeeds D :
  succeeds (VisitorModeSet env) StoreGrows (TraverseDecl env D)
    (fun continue => continue = true).
Proof.
  induction D as [id kind body loc nested IH] using Decl_nested_ind.
  rewrite TraverseDecl_unfold.
  sbind; [by apply deliverDeserialized_succeeds|intros _ _].
  sbind; [apply WalkUpFromDecl_succeeds|intros continue ->].
  cbn [nestedDecls]. induction IH as [|Child Ds HChild _ IHDs]; cbn.
  - succeeds_done.
  - sbind; [apply HChild|intros continue ->]. apply IHDs.
Qed.

(** ** What [HandleCode] records *)

Lemma DisplayFunction_Quiet D Mode : preserves Quiet (DisplayFunction env D Mode).
Proof. unfold DisplayFunction. preserves_auto. Qed.

(** [HandleCode] either returns its accumulator after events that are not
    engine runs, or runs the path-sensitive checks between such events. *)
Lemma HandleCode_inv D Mode IMode acc c r c' :
  HandleCode env D Mode IMode acc c = Ok (r, c') ->
  (r = acc /\ Quiet c c')
  \/ (hasPathSensitiveCheckers env = true
      /\ exists c1 c2,
           Quiet c c1
           /\ RunPathSensitiveChecks env D IMode acc c1 = Ok (r, c2)
           /\ Quiet c2 c').
Proof.
  unfold HandleCode. intros H.
  destruct (negb (hasBody D)).
  { munfold. simplify_eq. left. by split. }
  cbn zeta in H. destruct (_ =? AM_None).
  { munfold. simplify_eq. left. by split. }
  apply bind_inv in H as (? & c1 & H1 & H).
  apply bind_inv in H as (? & c2 & H2 & H).
  apply bind_inv in H as (? & c3 & H3 & H).
  apply (preserves_apply Quiet) in H1; [|apply DisplayFunction_Quiet].
  apply (preserves_apply Quiet) in H2; [|preserves_auto].
  apply (preserves_apply Quiet) in H3; [|preserves_auto].
  assert (HQ : Quiet c c3) by (etrans; [exact H1|by etrans]).
  destruct (negb _ && hasPathSensitiveCheckers env) eqn:Hpath.
  - apply andb_true_iff in Hpath as [_ Hcheck].
    apply bind_inv in H as (acc' & c4 & H4 & H).
    apply bind_inv in H as (? & c5 & H5 & H).
    apply (preserves_apply Quiet) in H5; [|preserves_auto].
    munfold. simplify_eq. right. split; [done|]. by exists c3, c4.
  - munfold. simplify_eq. left. by split.
Qed.

Lemma ActionExprEngine_records D gc IMode (s : SetOfConstDecls) c r c' :
  ActionExprEngine env D gc IMode (Some s) c = Ok (r, c') ->
  exists s', r = Some s' /\ s ⊆ s' /\ forall V, s' ⊆ V -> Records V c c'.
Proof.
  destruct (getCFG env D) as [cfg|] eqn:Hcfg;
    [destruct (RelaxedLiveVariables env D) eqn:Hlive|].
  - rewrite ActionExprEngine_runs by eauto. intros H. simplify_eq.
    eexists. split; [done|]. split; [set_solver|].
    intros V HV. eexists [_]. split; [done|].
    intros r Hr. apply list_elem_of_singleton in Hr as ->. cbn. set_solver.
  - rewrite ActionExprEngine_skips by auto. intros H. simplify_eq.
    exists s. repeat split; [done|]. intros V _. reflexivity.
  - rewrite ActionExprEngine_skips by auto. intros H. simplify_eq.
    exists s. repeat split; [done|]. intros V _. reflexivity.
Qed.

Lemma ActionExprEngine_untracked D gc IMode c r c' :
  ActionExprEngine env D gc IMode None c = Ok (r, c') -> r = None.
Proof.
  destruct (getCFG env D) as [cfg|] eqn:Hcfg;
    [destruct (RelaxedLiveVariables env D) eqn:Hlive|].
  - rewrite ActionExprEngine_runs by eauto. intros H. by simplify_eq.
  - rewrite ActionExprEngine_skips by auto. intros H. by simplify_eq.
  - rewrite ActionExprEngine_skips by auto. intros H. by simplify_eq.
Qed.

Lemma RunPathSensitiveChecks_records D IMode (s : SetOfConstDecls) c r c' :
  RunPathSensitiveChecks env D IMode (Some s) c = Ok (r, c') ->
  exists s', r = Some s' /\ s ⊆ s' /\ forall V, s' ⊆ V -> Records V c c'.
Proof.
  unfold RunPathSensitiveChecks. destruct (getGC env).
  - apply ActionExprEngine_records.
  - apply ActionExprEngine_records.
  - intros H. apply bind_inv in H as (r1 & c1 & H1 & H2).
    apply ActionExprEngine_records in H1 as (s1 & -> & Hs1 & HR1).
    apply ActionExprEngine_records in H2 as (s2 & -> & Hs2 & HR2).
    exists s2. split; [done|]. split; [set_solver|].
    intros V HV. etrans; [apply HR1; set_solver|by apply HR2].
Qed.

Lemma RunPathSensitiveChecks_untracked D IMode c r c' :
  RunPathSensitiveChecks env D IMode None c = Ok (r, c') -> r = None.
Proof.
  unfold RunPathSensitiveChecks. destruct (getGC env).
  - apply ActionExprEngine_untracked.
  - apply ActionExprEngine_untracked.
  - intros H. apply bind_inv in H as (r1 & c1 & H1 & H2).
    apply ActionExprEngine_untracked in H1 as ->.
    by apply ActionExprEngine_untracked in H2.
Qed.

(** With an accumulator, [HandleCode] returns it enlarged by at least the
    callees every engine run of the call reports. *)
Lemma HandleCode_records D Mode IMode (s : SetOfConstDecls) c r c' :
  HandleCode env D Mode IMode (Some s) c = Ok (r, c') ->
  exists s', r = Some s' /\ s ⊆ s' /\ forall V, s' ⊆ V -> Records V c c'.
Proof.
  intros H. apply HandleCode_inv in H as [[-> HQ]|(_ & c1 & c2 & HQ1 & H & HQ2)].
  - exists s. repeat split; [done|]. intros V _. by apply Quiet_Records.
  - apply RunPathSensitiveChecks_records in H as (s' & -> & Hs & HR).
    exists s'. repeat split; [done|]. intros V HV.
    etrans; [by apply Quiet_Records|].
    etrans; [by apply HR|by apply Quiet_Records].
Qed.

Lemma HandleCode_untracked D Mode IMode c r c' :
  HandleCode env D Mode IMode None c = Ok (r, c') -> r = None.
Proof.
  intros H. apply HandleCode_inv in H as [[-> _]|(_ & c1 & c2 & _ & H & _)].
  - done.
  - by apply RunPathSensitiveChecks_untracked in H.
Qed.

(** ** The call-graph loop *)

Lemma getInliningModeForFunction_inv D V c IMode c' :
  getInliningModeForFunction env D V c = Ok (IMode, c') -> c' = c.
Proof.
  unfold getInliningModeForFunction. intros H.
  eapply (preserves_apply eq) in H; [done|]. preserves_auto.
Qed.

Lemma getInliningModeForFunction_total D V T c :
  shouldSkipFunction D V T = false ->
  exists IMode, getInliningModeForFunction env D V c = Ok (IMode, c).
Proof.
  intros Hskip.
  assert (Hm : declID D ∈ V -> isa_ObjCMethodDecl D = true).
  { intros HV. destruct (isa_ObjCMethodDecl D) eqn:E; [done|].
    assert (shouldSkipFunction D V T = true); [|congruence].
    apply shouldSkipFunction_true. by right. }
  unfold getInliningModeForFunction.
  destruct (bool_decide_reflect (declID D ∈ V)) as [HV|HV].
  - munfold. rewrite (Hm HV).
    destruct (declKind D); try (by eexists).
    destruct (bool_decide _); by eexists.
  - by eexists.
Qed.

Lemma HandleDeclsCallGraph_node_inv N L c L' c' :
  HandleDeclsCallGraph_node env N L c = Ok (L', c') ->
  match N with
  | None => L' = L /\ c' = countTopLevel c
  | Some D =>
      if shouldSkipFunction D (Visited L) (VisitedAsTopLevel L)
      then L' = L /\ c' = countTopLevel c
      else exists IMode Tracked,
          getInliningModeForFunction env D (Visited L) (countTopLevel c)
          = Ok (IMode, countTopLevel c)
          /\ HandleCode env D AM_Path IMode (calleeTracking env)
               (countTopLevel c) = Ok (Tracked, c')
          /\ L' = afterTopLevelRun L D (default ∅ Tracked)
  end.
Proof.
  unfold HandleDeclsCallGraph_node. intros H.
  apply bind_inv in H as ([] & c1 & H1 & H).
  assert (c1 = countTopLevel c) as -> by (munfold; by simplify_eq).
  destruct N as [D|]; [|munfold; by simplify_eq].
  destruct (shouldSkipFunction _ _ _); [munfold; by simplify_eq|].
  apply bind_inv in H as (IMode & c2 & H2 & H).
  pose proof (getInliningModeForFunction_inv _ _ _ _ _ H2) as ->.
  apply bind_inv in H as (Tracked & c3 & H3 & H).
  munfold. simplify_eq. by exists IMode, Tracked.
Qed.

Lemma HandleDeclsCallGraph_node_total N L c :
  exists L' c', HandleDeclsCallGraph_node env N L c = Ok (L', c').
Proof.
  unfold HandleDeclsCallGraph_node.
  erewrite bind_Ok by (munfold; reflexivity).
  destruct N as [D|]; [|by eexists _, _].
  destruct (shouldSkipFunction _ _ _) eqn:Hskip; [by eexists _, _|].
  destruct (getInliningModeForFunction_total D _ _
              (countTopLevel c) Hskip) as [IMode HI].
  fold (countTopLevel c). erewrite bind_Ok by exact HI.
  destruct (HandleCode_total D AM_Path IMode (calleeTracking env)
              (countTopLevel c)) as (r & c' & HC); [auto|].
  fold (calleeTracking env).
  erewrite bind_Ok by exact HC. by eexists _, _.
Qed.

Lemma HandleDeclsCallGraph_nodes_total RPOT L c :
  exists L' c', HandleDeclsCallGraph_nodes env RPOT L c = Ok (L', c').
Proof.
  revert L c. induction RPOT as [|N RPOT IH]; intros L c; cbn.
  - by eexists _, _.
  - destruct (HandleDeclsCallGraph_node_total N L c) as (L1 & c1 & H1).
    erewrite bind_Ok by exact H1. apply IH.
Qed.

Lemma shouldSkipFunction_false D V T :
  shouldSkipFunction D V T = false ->
  (declID D ∉ T) /\ (isa_ObjCMethodDecl D = false -> declID D ∉ V).
Proof.
  intros H. split.
  - intros HT. assert (shouldSkipFunction D V T = true); [|congruence].
    apply shouldSkipFunction_true. by left.
  - intros Hm HV. assert (shouldSkipFunction D V T = true); [|congruence].
    apply shouldSkipFunction_true. by right.
Qed.

Lemma runIDs_afterTopLevelRun L D cs :
  runIDs (afterTopLevelRun L D cs) = runIDs L ++ [declID D].
Proof. unfold runIDs. cbn. by rewrite fmap_app. Qed.

Lemma LocalsInv_noLocals : LocalsInv noLocals.
Proof.
  repeat split; cbn.
  - apply NoDup_nil_2.
  - intros D cs H. by apply elem_of_nil in H.
  - intros i j D cs D' cs' H. done.
Qed.

Lemma LocalsInv_afterTopLevelRun L D cs :
  LocalsInv L ->
  shouldSkipFunction D (Visited L) (VisitedAsTopLevel L) = false ->
  LocalsInv (afterTopLevelRun L D cs).
Proof.
  intros (HT & Hnd & Hsub & Hord) Hskip.
  apply shouldSkipFunction_false in Hskip as [HnT HnV].
  split; [|split; [|split]].
  - rewrite runIDs_afterTopLevelRun, list_to_set_app_L. cbn.
    rewrite HT. set_solver.
  - rewrite runIDs_afterTopLevelRun. apply NoDup_app. split; [done|]. split.
    + intros id Hid Hin. apply list_elem_of_singleton in Hin as ->.
      apply HnT. rewrite HT. by apply elem_of_list_to_set.
    + apply NoDup_singleton.
  - intros D0 cs0 Hin. cbn in Hin. cbn.
    apply elem_of_app in Hin as [Hin|Hin].
    + specialize (Hsub _ _ Hin). set_solver.
    + apply list_elem_of_singleton in Hin. simplify_eq. set_solver.
  - intros i j D1 cs1 D2 cs2 Hi Hj Hlt Hm. cbn in Hi, Hj.
    destruct (decide (j < length (TopLevelRuns L))%nat) as [Hjl|Hjl].
    + rewrite lookup_app_l in Hj by done.
      rewrite lookup_app_l in Hi by lia. by eapply Hord.
    + rewrite lookup_app_r in Hj by lia.
      apply list_lookup_singleton_Some in Hj as [Hj0 Hj]. simplify_eq.
      rewrite lookup_app_l in Hi by lia.
      apply list_elem_of_lookup_2 in Hi. specialize (Hsub _ _ Hi).
      specialize (HnV Hm). set_solver.
Qed.

Lemma HandleDeclsCallGraph_node_LocalsInv N L c L' c' :
  LocalsInv L ->
  HandleDeclsCallGraph_node env N L c = Ok (L', c') -> LocalsInv L'.
Proof.
  intros HL H. apply HandleDeclsCallGraph_node_inv in H.
  destruct N as [D|]; [|by destruct H as [-> _]].
  destruct (shouldSkipFunction _ _ _) eqn:Hskip; [by destruct H as [-> _]|].
  destruct H as (IMode & Tracked & _ & _ & ->).
  by apply LocalsInv_afterTopLevelRun.
Qed.

Lemma HandleDeclsCallGraph_nodes_LocalsInv RPOT L c L' c' :
  LocalsInv L ->
  HandleDeclsCallGraph_nodes env RPOT L c = Ok (L', c') -> LocalsInv L'.
Proof.
  revert L c. induction RPOT as [|N RPOT IH]; intros L c HL H; cbn in H.
  - munfold. by simplify_eq.
  - apply bind_inv in H as (L1 & c1 & H1 & H).
    eapply IH; [|exact H]. by eapply HandleDeclsCallGraph_node_LocalsInv.
Qed.

(** Runs added by the rest of the loop avoid the non-method declarations
    already in [Visited]. *)
Lemma HandleDeclsCallGraph_nodes_later (V0 : SetOfConstDecls) RPOT L c L' c' :
  V0 ⊆ Visited L ->
  HandleDeclsCallGraph_nodes env RPOT L c = Ok (L', c') ->
  exists later,
    TopLevelRuns L' = TopLevelRuns L ++ later
    /\ forall D cs, (D, cs) ∈ later ->
         isa_ObjCMethodDecl D = false -> declID D ∉ V0.
Proof.
  revert L c. induction RPOT as [|N RPOT IH]; intros L c HV H; cbn in H.
  - munfold. simplify_eq. exists []. rewrite app_nil_r. split; [done|].
    intros D cs Hin. by apply elem_of_nil in Hin.
  - apply bind_inv in H as (L1 & c1 & H1 & H).
    apply HandleDeclsCallGraph_node_inv in H1.
    assert (Hsame : L1 = L -> exists later,
      TopLevelRuns L' = TopLevelRuns L ++ later
      /\ forall D cs, (D, cs) ∈ later ->
           isa_ObjCMethodDecl D = false -> declID D ∉ V0).
    { intros ->. by eapply IH. }
    destruct N as [D|]; [|destruct H1 as [-> _]; by apply Hsame].
    destruct (shouldSkipFunction _ _ _) eqn:Hskip;
      [destruct H1 as [-> _]; by apply Hsame|].
    destruct H1 as (IMode & Tracked & _ & _ & ->).
    apply IH in H as (later & E & Hl); [|cbn; set_solver].
    exists ((D, default ∅ Tracked) :: later). split.
    + rewrite E. cbn. by rewrite <- app_assoc.
    + intros D0 cs0 Hin Hm. apply elem_of_cons in Hin as [Hin|Hin].
      * simplify_eq. apply shouldSkipFunction_false in Hskip as [_ HnV].
        specialize (HnV Hm). set_solver.
      * by eapply Hl.
Qed.

(** With callee tracking, what the engine explores during a top-level run
    ends up in [Visited]. *)
Lemma HandleDeclsCallGraph_node_records N L c L' c' new r :
  InliningMode (Opts env) <> All ->
  HandleDeclsCallGraph_node env N L c = Ok (L', c') ->
  Trace c' = Trace c ++ new ->
  r ∈ engineRuns new -> runInlined r ⊆ Visited L'.
Proof.
  intros Hmode H Hnew Hr. apply HandleDeclsCallGraph_node_inv in H.
  assert (Hnone : c' = countTopLevel c -> False).
  { intros ->. cbn in Hnew. rewrite <- (app_nil_r (Trace c)) in Hnew at 1.
    apply app_inv_head in Hnew as <-. by apply elem_of_nil in Hr. }
  destruct N as [D|]; [|destruct H as [_ ?]; by exfalso].
  destruct (shouldSkipFunction _ _ _); [destruct H as [_ ?]; by exfalso|].
  destruct H as (IMode & Tracked & _ & H & ->).
  unfold calleeTracking in H. rewrite bool_decide_eq_false_2 in H by done.
  apply HandleCode_records in H as (s' & -> & _ & HR).
  destruct (HR s') as (new' & E & Hall); [done|].
  cbn in E. rewrite Hnew in E. apply app_inv_head in E as <-.
  cbn. specialize (Hall _ Hr). set_solver.
Qed.

(** ** The translation unit *)

Lemma HandleTranslationUnit_unfold c :
  HandleTranslationUnit env c
  = if hasErrorOccurred env || hasFatalErrorOccurred env then Ok (tt, c)
    else runPasses env (beforeTraversal env c).
Proof.
  unfold HandleTranslationUnit, runPasses, beforeTraversal, visitorMode.
  destruct (_ || _); [done|].
  destruct (shouldInlineCall (Opts env)); reflexivity.
Qed.

Lemma traverseLocalTUDecls_snapshot (l0 : list Decl) c :
  l0 `prefix_of` LocalTUDecls c ->
  traverseLocalTUDecls env (to_unsigned (Z.of_nat (length l0))) c
  = foldDecls (traverseBody env)
      (take (Z.to_nat (to_unsigned (Z.of_nat (length l0)))) l0) tt c.
Proof.
  intros Hpre. unfold traverseLocalTUDecls.
  apply (for_unsigned_snapshot (traverseBody env)); [|done].
  intros D []. unfold traverseBody.
  apply preserves_bind; [apply _|apply TraverseDecl_StoreGrows|].
  intros ?. apply preserves_ret; apply _.
Qed.

Lemma addNodeBody_StoreGrows D CG : preserves StoreGrows (addNodeBody env D CG).
Proof.
  unfold addNodeBody.
  apply preserves_bind; [apply _|apply deliverDeserialized_StoreGrows|].
  intros ?. apply preserves_ret; apply _.
Qed.

Lemma buildCallGraph_snapshot (l0 : list Decl) c :
  l0 `prefix_of` LocalTUDecls c ->
  buildCallGraph env (to_unsigned (Z.of_nat (length l0))) c
  = foldDecls (addNodeBody env)
      (take (Z.to_nat (to_unsigned (Z.of_nat (length l0)))) l0)
      (CallGraph_new env) c.
Proof.
  intros Hpre. unfold buildCallGraph.
  apply (for_unsigned_snapshot (addNodeBody env)); [|done].
  apply addNodeBody_StoreGrows.
Qed.

Lemma HandleDeclsCallGraph_nodes_StoreKept RPOT L :
  preserves StoreKept (HandleDeclsCallGraph_nodes env RPOT L).
Proof.
  apply HandleDeclsCallGraph_nodes_preserves; try apply _.
  - apply HandleCode_StoreKept.
  - frame_solve.
Qed.

Lemma countCoverage_spec c :
  countCoverage c
  = Ok (tt,
        let FS := FunctionSummaries c in
        let c1 := set_NumBlocksInAnalyzedFunctions (getTotalNumBasicBlocks FS) c in
        if 0 <? getTotalNumBasicBlocks FS
        then set_PercentReachableBlocks
               (to_unsigned (getTotalNumVisitedBasicBlocks FS * 100)
                / getTotalNumBasicBlocks FS) c1
        else c1).
Proof.
  unfold countCoverage. munfold. cbn.
  by destruct (0 <? getTotalNumBasicBlocks (FunctionSummaries c)).
Qed.

Lemma traverseBody_succeeds D a :
  succeeds (VisitorModeSet env) StoreGrows (traverseBody env D a) anyValue.
Proof.
  unfold traverseBody. sbind; [apply TraverseDecl_succeeds|].
  intros _ _. succeeds_done.
Qed.

Lemma addNodeBody_succeeds D CG :
  succeeds (VisitorModeSet env) StoreGrows (addNodeBody env D CG) anyValue.
Proof.
  unfold addNodeBody. sbind; [by apply deliverDeserialized_succeeds|].
  intros _ _. succeeds_done.
Qed.

(** The passes return from every state in which the visitor mode is set. *)
Lemma runPasses_total c :
  VisitorModeSet env c -> exists c', runPasses env c = Ok (tt, c').
Proof.
  intros Hc. unfold runPasses.
  erewrite bind_Ok by (munfold; reflexivity).
  set (l0 := LocalTUDecls c).
  destruct (foldDecls_succeeds _ StoreGrows _ traverseBody_succeeds
              (take (Z.to_nat (to_unsigned (Z.of_nat (length l0)))) l0) tt c Hc)
    as ([] & c1 & H1 & Hc1 & [_ Hpre] & _).
  rewrite <- traverseLocalTUDecls_snapshot in H1 by done.
  erewrite bind_Ok by exact H1.
  assert (exists c2, VisitorModeSet env c2 /\
    (if shouldInlineCall (Opts env)
     then HandleDeclsCallGraph env (to_unsigned (Z.of_nat (length l0))) ;; mret tt
     else mret tt) c1 = Ok (tt, c2)) as (c2 & Hc2 & H2).
  { destruct (shouldInlineCall (Opts env)); [|by exists c1].
    destruct (foldDecls_succeeds _ StoreGrows _ addNodeBody_succeeds
                (take (Z.to_nat (to_unsigned (Z.of_nat (length l0)))) l0)
                (CallGraph_new env) c1 Hc1)
      as (CG & c2 & H2 & Hc2 & _).
    rewrite <- buildCallGraph_snapshot in H2 by done.
    destruct (HandleDeclsCallGraph_nodes_total
                (ReversePostOrderTraversal env CG) noLocals c2)
      as (L & c3 & H3).
    exists c3. split.
    - apply HandleDeclsCallGraph_nodes_StoreKept in H3 as [E _].
      eapply VisitorModeSet_stable; [exact E|exact Hc2].
    - unfold HandleDeclsCallGraph.
      erewrite bind_Ok; [reflexivity|].
      erewrite bind_Ok by exact H2. exact H3. }
  erewrite bind_Ok by exact H2.
  erewrite bind_Ok by (munfold; reflexivity).
  rewrite countCoverage_spec. by eexists.
Qed.

Lemma HandleTranslationUnit_total c :
  exists c', HandleTranslationUnit env c = Ok (tt, c').
Proof.
  rewrite HandleTranslationUnit_unfold.
  destruct (_ || _); [by eexists|]. by apply runPasses_total.
Qed.

Lemma HandleTranslationUnit_NoEngineRun :
  hasPathSensitiveCheckers env = false ->
  preserves NoEngineRun (HandleTranslationUnit env).
Proof.
  intros Hno c [] c' H. rewrite HandleTranslationUnit_unfold in H.
  destruct (_ || _); [by simplify_eq|].
  apply (runPasses_inv NoEngineRun) in H as (c1 & H1 & H2).
  - rewrite countCoverage_spec in H2. simplify_eq.
    transitivity (beforeTraversal env c).
    { unfold beforeTraversal, NoEngineRun. cbn.
      by rewrite engineRuns_app; cbn; rewrite app_nil_r. }
    etrans; [exact H1|]. unfold NoEngineRun. cbn. by destruct (0 <? _).
  - apply deliverDeserialized_NoEngineRun.
  - intros. by apply HandleCode_NoEngineRun.
  - apply NoEngineRun_emit.
  - frame_solve.
Qed.

(** ** Coverage statistics *)

Lemma getTotalNumBasicBlocks_sum FS :
  getTotalNumBasicBlocks FS = to_unsigned (sumTotal FS).
Proof.
  unfold getTotalNumBasicBlocks, sumTotal.
  induction (map_to_list FS) as [|kv l IH]; cbn; [done|].
  rewrite IH, to_unsigned_add_l. f_equal. lia.
Qed.

Lemma getTotalNumVisitedBasicBlocks_sum FS :
  getTotalNumVisitedBasicBlocks FS = to_unsigned (sumVisited FS).
Proof.
  unfold getTotalNumVisitedBasicBlocks, sumVisited.
  induction (map_to_list FS) as [|kv l IH]; cbn; [done|].
  rewrite IH, to_unsigned_add_l. f_equal. lia.
Qed.

Lemma HandleCode_PercentKept D Mode IMode acc :
  preserves PercentKept (HandleCode env D Mode IMode acc).
Proof.
  unfold HandleCode, DisplayFunction, RunPathSensitiveChecks, ActionExprEngine.
  preserves_auto.
Qed.

Lemma deliverDeserialized_PercentKept : preserves PercentKept deliverDeserialized.
Proof.
  intros c a c' H. rewrite deliverDeserialized_spec in H. simplify_eq.
  by destruct (PendingDeserialization c).
Qed.

(** At the end of a unit without parse errors the block count is the sum
    of the summaries' totals held in an [unsigned], and the percentage is
    computed from the two [unsigned] sums when the count is positive and
    left as it was otherwise. *)
Lemma HandleTranslationUnit_coverage c c' :
  hasErrorOccurred env || hasFatalErrorOccurred env = false ->
  HandleTranslationUnit env c = Ok (tt, c') ->
  let b := to_unsigned (sumTotal (FunctionSummaries c')) in
  let v := to_unsigned (sumVisited (FunctionSummaries c')) in
  NumBlocksInAnalyzedFunctions c' = b
  /\ PercentReachableBlocks c'
     = if 0 <? b then to_unsigned (v * 100) / b
       else PercentReachableBlocks c.
Proof.
  intros Herr H. rewrite HandleTranslationUnit_unfold, Herr in H.
  apply (runPasses_inv PercentKept) in H as (c1 & H1 & H2).
  - rewrite countCoverage_spec in H2. simplify_eq. cbn zeta.
    rewrite getTotalNumBasicBlocks_sum, getTotalNumVisitedBasicBlocks_sum.
    unfold PercentKept in H1. cbn in H1.
    destruct (0 <? to_unsigned (sumTotal (FunctionSummaries c1))) eqn:Hpos;
      cbn; rewrite Hpos; by split.
  - apply deliverDeserialized_PercentKept.
  - apply HandleCode_PercentKept.
  - frame_solve.
  - frame_solve.
Qed.

(** Without overflow the percentage is the floor of 100 * visited / total. *)
Lemma HandleTranslationUnit_coverage_small c c' :
  hasErrorOccurred env || hasFatalErrorOccurred env = false ->
  HandleTranslationUnit env c = Ok (tt, c') ->
  let b := sumTotal (FunctionSummaries c') in
  let v := sumVisited (FunctionSummaries c') in
  0 <= b < 2 ^ UNSIGNED_BITS -> 0 <= v -> 100 * v < 2 ^ UNSIGNED_BITS ->
  PercentReachableBlocks c'
  = if 0 <? b then coveragePercentage b v else PercentReachableBlocks c.
Proof.
  intros Herr H b v Hb Hv Hv100.
  destruct (HandleTranslationUnit_coverage c c' Herr H) as [_ ->].
  fold b v. rewrite (to_unsigned_small b) by done.
  rewrite (to_unsigned_small v) by (unfold UNSIGNED_BITS in *; lia).
  rewrite (to_unsigned_small (v * 100)) by lia.
  unfold coveragePercentage. by rewrite (Z.mul_comm v).
Qed.

(** ** The claims about the scheduler and the engine invoker *)

Lemma HandleDeclsCallGraph_node_skip_rule D L c L' c' :
  HandleDeclsCallGraph_node env (Some D) L c = Ok (L', c') ->
  if shouldSkipFunction D (Visited L) (VisitedAsTopLevel L)
  then L' = L /\ Trace c' = Trace c
  else runIDs L' = runIDs L ++ [declID D]
       /\ VisitedAsTopLevel L' = VisitedAsTopLevel L ∪ {[declID D]}.
Proof.
  intros H. apply HandleDeclsCallGraph_node_inv in H.
  destruct (shouldSkipFunction _ _ _).
  - by destruct H as [-> ->].
  - destruct H as (IMode & Tracked & _ & _ & ->).
    by rewrite runIDs_afterTopLevelRun.
Qed.

Lemma InlinedNotRescheduled_tracking :
  InliningMode (Opts env) <> All -> InlinedNotRescheduled env.
Proof.
  intros Hmode _ N RPOT L1 c1 L2 c2 L3 c3 new later r D cs
    Hnode Hrest Hnew Hr Hlater Hin Hm.
  pose proof (HandleDeclsCallGraph_node_records _ _ _ _ _ _ _
                Hmode Hnode Hnew Hr) as Hsub.
  destruct (HandleDeclsCallGraph_nodes_later _ _ _ _ _ _ Hsub Hrest)
    as (later' & E & Hl).
  rewrite Hlater in E. apply app_inv_head in E as <-.
  by eapply Hl.
Qed.

(** C1 (as amended).  A call-graph node's declaration D is skipped exactly
    when D is in VisitedAsTopLevel, or D is not a method and D is in
    Visited, and the loop hands D to [HandleCode] and adds it to
    VisitedAsTopLevel exactly when it does not skip it.  The loop returns
    for every traversal order; the declarations it analysed at top level
    are exactly the members of VisitedAsTopLevel and none was analysed
    twice.  When callee tracking is on (the configured inlining mode is not
    All), a non-method declaration that an engine run of a top-level run
    reports as explored is not scheduled by any later iteration: with call
    graph A -> B -> C, once A's run has explored B and C, neither is
    scheduled. *)
Theorem HandleDeclsCallGraph_schedule :
  (forall D V T,
      shouldSkipFunction D V T = true
      <-> declID D ∈ T \/ (isa_ObjCMethodDecl D = false /\ declID D ∈ V))
  /\ (forall D L c L' c',
        HandleDeclsCallGraph_node env (Some D) L c = Ok (L', c') ->
        if shouldSkipFunction D (Visited L) (VisitedAsTopLevel L)
        then L' = L /\ Trace c' = Trace c
        else runIDs L' = runIDs L ++ [declID D]
             /\ VisitedAsTopLevel L' = VisitedAsTopLevel L ∪ {[declID D]})
  /\ (forall RPOT c,
        exists L c',
          HandleDeclsCallGraph_nodes env RPOT noLocals c = Ok (L, c')
          /\ VisitedAsTopLevel L = list_to_set (runIDs L)
          /\ NoDup (runIDs L))
  /\ (InliningMode (Opts env) <> All -> InlinedNotRescheduled env).
Proof.
  split; [apply shouldSkipFunction_true|].
  split; [apply HandleDeclsCallGraph_node_skip_rule|].
  split; [|apply InlinedNotRescheduled_tracking].
  intros RPOT c.
  destruct (HandleDeclsCallGraph_nodes_total RPOT noLocals c) as (L & c' & H).
  exists L, c'. split; [done|].
  destruct (HandleDeclsCallGraph_nodes_LocalsInv _ _ _ _ _ LocalsInv_noLocals H)
    as (HT & Hnd & _).
  by split.
Qed.

Lemma foldDecls_traverseBody_StoreGrows l :
  preserves StoreGrows (foldDecls (traverseBody env) l tt).
Proof.
  apply foldDecls_preserves; [apply _|].
  intros D []. unfold traverseBody.
  apply preserves_bind; [apply _|apply TraverseDecl_StoreGrows|].
  intros ?. apply preserves_ret; apply _.
Qed.

(** [HandleDeclsCallGraph], given the size of a snapshot [l0] the store
    begins with, builds the call graph from the entries of [l0]. *)
Lemma HandleDeclsCallGraph_snapshot (l0 : list Decl) c :
  Z.of_nat (length l0) < 2 ^ UNSIGNED_BITS ->
  l0 `prefix_of` LocalTUDecls c ->
  HandleDeclsCallGraph env (to_unsigned (Z.of_nat (length l0))) c
  = (CG ← foldDecls (addNodeBody env) l0 (CallGraph_new env);
     HandleDeclsCallGraph_nodes env (ReversePostOrderTraversal env CG)
       noLocals) c.
Proof.
  intros Hlen Hpre. unfold HandleDeclsCallGraph. unfold mbind, M_bind.
  rewrite buildCallGraph_snapshot by done.
  rewrite to_unsigned_small by lia. rewrite Nat2Z.id, take_ge by done. done.
Qed.

(** [HandleTranslationUnit] captures the length of the store before its
    first loop and hands the same length to both loops. *)
Lemma HandleTranslationUnit_snapshot c :
  Z.of_nat (length (LocalTUDecls c)) < 2 ^ UNSIGNED_BITS ->
  hasErrorOccurred env || hasFatalErrorOccurred env = false ->
  HandleTranslationUnit env c
  = passesOver env (LocalTUDecls c) (beforeTraversal env c).
Proof.
  intros Hlen Herr. rewrite HandleTranslationUnit_unfold, Herr.
  unfold runPasses, passesOver.
  assert (Hl0 : LocalTUDecls (beforeTraversal env c) = LocalTUDecls c) by done.
  revert Hl0 Hlen.
  generalize (beforeTraversal env c) as c0, (LocalTUDecls c) as l0.
  intros c0 l0 Hl0 Hlen.
  unfold mbind, M_bind, get. rewrite Hl0.
  rewrite traverseLocalTUDecls_snapshot by (by rewrite Hl0).
  rewrite (to_unsigned_small (Z.of_nat (length l0))) by lia.
  rewrite Nat2Z.id, take_ge by done.
  destruct (foldDecls (traverseBody env) l0 tt c0) as [[[] c1]|e] eqn:H1;
    [|done].
  apply foldDecls_traverseBody_StoreGrows in H1 as [_ Hpre].
  rewrite Hl0 in Hpre.
  destruct (shouldInlineCall (Opts env)); [|done].
  pose proof (HandleDeclsCallGraph_snapshot l0 c1 Hlen Hpre) as E.
  rewrite to_unsigned_small in E by lia. rewrite E.
  unfold mbind, M_bind. done.
Qed.

(** C4.  [HandleTranslationUnit] captures the length of the store before
    its first loop and runs both index loops up to that length: a unit
    whose store holds the entries [l0] is handled by walking each entry of
    [l0], once and in order, and then building the call graph from each
    entry of [l0], once and in order, whatever the walks and the build
    append meanwhile; the appended entries stay in the store, after the
    snapshot, and are not visited.  The same holds of each loop by itself,
    started on a store that begins with the snapshot [l0] (whatever was
    appended since), and of [HandleDeclsCallGraph] given the snapshot
    length. *)
Theorem index_loops_follow_snapshot (l0 extra : list Decl) c :
  Z.of_nat (length l0) < 2 ^ UNSIGNED_BITS ->
  LocalTUDecls c = l0 ++ extra ->
  let LocalTUDeclsSize := to_unsigned (Z.of_nat (length l0)) in
  traverseLocalTUDecls env LocalTUDeclsSize c
  = foldDecls (traverseBody env) l0 tt c
  /\ buildCallGraph env LocalTUDeclsSize c
     = foldDecls (addNodeBody env) l0 (CallGraph_new env) c
  /\ (forall c', traverseLocalTUDecls env LocalTUDeclsSize c = Ok (tt, c') ->
        exists appended, LocalTUDecls c' = l0 ++ extra ++ appended)
  /\ (forall CG c', buildCallGraph env LocalTUDeclsSize c = Ok (CG, c') ->
        exists appended, LocalTUDecls c' = l0 ++ extra ++ appended)
  /\ HandleDeclsCallGraph env LocalTUDeclsSize c
     = (CG ← foldDecls (addNodeBody env) l0 (CallGraph_new env);
        HandleDeclsCallGraph_nodes env (ReversePostOrderTraversal env CG)
          noLocals) c
  /\ (extra = [] ->
      hasErrorOccurred env || hasFatalErrorOccurred env = false ->
      HandleTranslationUnit env c = passesOver env l0 (beforeTraversal env c)
      /\ forall c', HandleTranslationUnit env c = Ok (tt, c') ->
           exists appended, LocalTUDecls c' = l0 ++ appended).
Proof.
  intros Hlen Hstore LocalTUDeclsSize.
  assert (Hpre : l0 `prefix_of` LocalTUDecls c) by (by exists extra).
  assert (Htake : take (Z.to_nat LocalTUDeclsSize) l0 = l0).
  { subst LocalTUDeclsSize. rewrite to_unsigned_small by lia.
    rewrite Nat2Z.id. by apply take_ge. }
  assert (Hgrow : forall c', StoreGrows c c' ->
            exists appended, LocalTUDecls c' = l0 ++ extra ++ appended).
  { intros c' [_ [appended E]]. exists appended.
    by rewrite E, Hstore, <- app_assoc. }
  subst LocalTUDeclsSize.
  split; [by rewrite traverseLocalTUDecls_snapshot, Htake|].
  split; [by rewrite buildCallGraph_snapshot, Htake|].
  split; [|split; [|split]].
  - intros c' H. apply Hgrow.
    rewrite traverseLocalTUDecls_snapshot, Htake in H by done.
    revert H. apply foldDecls_traverseBody_StoreGrows.
  - intros CG c' H. apply Hgrow.
    rewrite buildCallGraph_snapshot, Htake in H by done.
    revert H. apply foldDecls_preserves; [apply _|].
    apply addNodeBody_StoreGrows.
  - by apply HandleDeclsCallGraph_snapshot.
  - intros -> Herr. rewrite app_nil_r in Hstore.
    split.
    + rewrite <- Hstore. apply HandleTranslationUnit_snapshot; [|done].
      by rewrite Hstore.
    + intros c' H. rewrite HandleTranslationUnit_unfold, Herr in H.
      apply (runPasses_inv StoreGrows) in H as (c1 & [_ [appended E]] & H2).
      * rewrite countCoverage_spec in H2. simplify_eq. exists appended.
        cbn zeta. cbn in E. by destruct (0 <? _).
      * apply deliverDeserialized_StoreGrows.
      * apply HandleCode_StoreGrows.
      * frame_solve.
      * frame_solve.
Qed.

(** C6.  When no path-sensitive checker is registered, no call of
    [HandleCode] runs the engine or touches the callee accumulator, for any
    declaration, mode and inlining mode, and it returns for every mode the
    two passes request; and the whole of [HandleTranslationUnit] returns
    without a single engine run. *)
Theorem no_path_sensitive_checkers_no_engine_run :
  hasPathSensitiveCheckers env = false ->
  (forall D Mode IMode acc c r c',
      HandleCode env D Mode IMode acc c = Ok (r, c') ->
      engineRuns (Trace c') = engineRuns (Trace c) /\ r = acc)
  /\ (forall D Mode IMode acc c,
        Mode = 1 \/ Mode = 2 \/ Mode = 3 ->
        exists r c', HandleCode env D Mode IMode acc c = Ok (r, c'))
  /\ (forall c,
        exists c', HandleTranslationUnit env c = Ok (tt, c')
                   /\ engineRuns (Trace c') = engineRuns (Trace c)).
Proof.
  intros Hno. repeat split.
  - by eapply (HandleCode_NoEngineRun _ _ _ _ Hno).
  - apply HandleCode_inv in H as [[-> _]|[Hyes _]]; [done|congruence].
  - intros D Mode IMode acc c HMode. by apply HandleCode_total.
  - intros c. destruct (HandleTranslationUnit_total c) as [c' H].
    exists c'. split; [done|].
    by apply (HandleTranslationUnit_NoEngineRun Hno) in H.
Qed.

(** C7.  For a declaration with a control-flow graph and a scalable
    liveness analysis, one call of [RunPathSensitiveChecks] runs the engine
    exactly twice under the hybrid assumption, first without and then with
    the collector, and exactly once under each of the other two
    assumptions, with the requested inlining mode. *)
Theorem RunPathSensitiveChecks_runs (D : Decl) IMode acc c :
  is_Some (getCFG env D) ->
  RelaxedLiveVariables env D = true ->
  exists r c' new,
    RunPathSensitiveChecks env D IMode acc c = Ok (r, c')
    /\ Trace c' = Trace c ++ new
    /\ engineEvents (getGC env) D IMode new
    /\ length (engineRuns new)
       = match getGC env with HybridGC => 2%nat | _ => 1%nat end.
Proof.
  intros Hcfg Hlive. unfold RunPathSensitiveChecks, engineEvents.
  destruct (getGC env).
  - rewrite ActionExprEngine_runs by done. eexists _, _, [_].
    repeat split. by eexists.
  - rewrite ActionExprEngine_runs by done. eexists _, _, [_].
    repeat split. by eexists.
  - erewrite bind_Ok by (by apply ActionExprEngine_runs).
    rewrite ActionExprEngine_runs by done. eexists _, _, [_; _].
    split; [reflexivity|]. split; [cbn; by rewrite <- app_assoc|].
    split; [by eexists _, _|done].
Qed.


Lemma VisitDecl_spec D c :
  VisitDecl env D c
  = Ok (true,
        if negb (Z.land (getModeForDecl env D (RecVisitorMode c)) AM_Syntax =? 0)
        then set_Trace (Trace c ++ [runCheckersOnASTDecl (declID D)]) c
        else c).
Proof. unfold VisitDecl. munfold. cbn. by destruct (negb _). Qed.

(** C10 (as amended).  For a function declaration whose identifier starts
    with "__inline" the visitor's function callback returns true and does
    nothing: the declaration is not handed to [HandleCode], so the syntax
    pass runs neither the structural checks of its body nor a
    path-sensitive analysis on it.  The generic callback of the visitor
    still runs the declaration-level structural checkers on it, exactly
    when its resolved mode has the Syntax bit, and that is all the walk
    adds to the trace.  The call-graph loop does not look at the name: a
    node for such a declaration that is not skipped is handed to
    [HandleCode] with the Path mode like any other. *)
Theorem VisitFunctionDecl_skips_inline (FD : Decl) Name isDef isDep c :
  declKind FD = FunctionDecl (Some Name) isDef isDep ->
  startswith Name "__inline" = true ->
  VisitFunctionDecl env FD c = Ok (true, c)
  /\ WalkUpFromDecl env FD c
     = Ok (true,
           if negb (Z.land (getModeForDecl env FD (RecVisitorMode c)) AM_Syntax
                    =? 0)
           then set_Trace (Trace c ++ [runCheckersOnASTDecl (declID FD)]) c
           else c)
  /\ (exists c' new,
        WalkUpFromDecl env FD c = Ok (true, c')
        /\ Trace c' = Trace c ++ new
        /\ forall e, e ∈ new -> analysesBodyOf (declID FD) e = false)
  /\ (forall L c1,
        shouldSkipFunction FD (Visited L) (VisitedAsTopLevel L) = false ->
        exists IMode,
          HandleDeclsCallGraph_node env (Some FD) L c1
          = (Tracked ← HandleCode env FD AM_Path IMode (calleeTracking env);
             mret (afterTopLevelRun L FD (default ∅ Tracked)))
              (countTopLevel c1)).
Proof.
  intros Hkind Hname.
  assert (HV : forall s, VisitFunctionDecl env FD s = Ok (true, s)).
  { intros s. unfold VisitFunctionDecl. by rewrite Hkind, Hname. }
  assert (HW : WalkUpFromDecl env FD c
               = Ok (true,
                     if negb (Z.land (getModeForDecl env FD (RecVisitorMode c))
                                AM_Syntax =? 0)
                     then set_Trace
                            (Trace c ++ [runCheckersOnASTDecl (declID FD)]) c
                     else c)).
  { unfold WalkUpFromDecl. erewrite bind_Ok by apply VisitDecl_spec.
    by rewrite Hkind, HV. }
  split; [apply HV|]. split; [exact HW|]. split.
  - rewrite HW. destruct (negb _).
    + eexists _, [_]. repeat split.
      intros e He. by apply list_elem_of_singleton in He as ->.
    + exists c, []. rewrite app_nil_r. repeat split.
      intros e He. by apply elem_of_nil in He.
  - intros L c1 Hskip.
    destruct (getInliningModeForFunction_total FD _ _ (countTopLevel c1) Hskip)
      as [IMode HI].
    exists IMode. unfold HandleDeclsCallGraph_node.
    erewrite bind_Ok by (munfold; reflexivity).
    rewrite Hskip. fold (countTopLevel c1).
    erewrite bind_Ok by exact HI. reflexivity.
Qed.

End Properties.

(** * The scenarios, evaluated *)

Example chain_traversal_order :
  simple_RPOT chainCalls [declA; declB; declC]
  = [None; Some declA; Some declB; Some declC].
Proof. vm_compute. reflexivity. Qed.

Example chain_with_E_traversal_order :
  simple_RPOT chainCalls [declE; declA; declB; declC]
  = [None; Some declA; Some declB; Some declC; Some declE].
Proof. vm_compute. reflexivity. Qed.

(** With the inlining mode NoRedundancy only A is analysed at top level. *)
Example chain_NoRedundancy_schedule :
  runIDs (localsOf (HandleDeclsCallGraph (chainEnv NoRedundancy) 3 chainUnit))
  = [1%positive].
Proof. vm_compute. reflexivity. Qed.

(** With the inlining mode All, A, B and C are all analysed at top level. *)
Example chain_All_schedule :
  runIDs (localsOf (HandleDeclsCallGraph (chainEnv All) 3 chainUnit))
  = [1%positive; 2%positive; 3%positive].
Proof. vm_compute. reflexivity. Qed.

(** The mode resolver on a function of the main file, of a user header and
    of a system header, asked for Syntax|Path. *)
Example getModeForDecl_main_file : getModeForDecl headerEnv declA 3 = 3.
Proof. reflexivity. Qed.

Example getModeForDecl_user_header : getModeForDecl headerEnv inHeader 3 = 1.
Proof. reflexivity. Qed.

Example getModeForDecl_system_header :
  getModeForDecl headerEnv inSystemHeader 3 = 0.
Proof. reflexivity. Qed.

(** A visited function is skipped, a visited method is not, and a
    declaration already analysed at top level is. *)
Example shouldSkipFunction_visited_function :
  shouldSkipFunction declB {[2%positive]} ∅ = true.
Proof. vm_compute. reflexivity. Qed.

Example shouldSkipFunction_visited_method :
  shouldSkipFunction methodCount {[9%positive]} ∅ = false.
Proof. vm_compute. reflexivity. Qed.

Example shouldSkipFunction_top_level_method :
  shouldSkipFunction methodCount ∅ {[9%positive]} = true.
Proof. vm_compute. reflexivity. Qed.

(** The whole pass on the chain, with the engine's runs: under
    NoRedundancy one run, of A; under All one run each of A, B and C. *)
Example chain_NoRedundancy_engine_runs :
  runRoot <$> engineRuns
    (Trace (consumerOf (HandleTranslationUnit (chainEnv NoRedundancy) chainUnit)))
  = [1%positive].
Proof. vm_compute. reflexivity. Qed.

Example chain_All_engine_runs :
  runRoot <$> engineRuns
    (Trace (consumerOf (HandleTranslationUnit (chainEnv All) chainUnit)))
  = [1%positive; 2%positive; 3%positive].
Proof. vm_compute. reflexivity. Qed.

(** C1, counterexample.  Inlining is enabled and the inlining mode is All;
    the call graph is A -> B -> C.  The engine run of A's top-level run
    explores B and C, and the later iterations still hand B (a function, not
    a method) to [HandleCode]. *)
Lemma InlinedNotRescheduled_fails_for_All :
  ~ InlinedNotRescheduled (chainEnv All).
Proof.
  intros H.
  apply (H eq_refl (Some declA) [Some declB; Some declC]
           noLocals afterRoot
           (localsOf (runOfA All)) (consumerOf (runOfA All))
           (localsOf (restAfterA All)) (consumerOf (restAfterA All))
           [ExprEngine_run 1%positive false Inline_All
              {[2%positive; 3%positive]}]
           [(declB, ∅); (declC, ∅)]
           engineRunOfA declB ∅).
  - vm_compute. reflexivity.
  - vm_compute. reflexivity.
  - vm_compute. reflexivity.
  - vm_compute. constructor.
  - vm_compute. reflexivity.
  - constructor.
  - reflexivity.
  - apply (bool_decide_unpack _). vm_compute. exact I.
Qed.

(** C9, counterexample.  The method M is delivered with its group, and
    delivered again from its completed container; the store stays empty:
    M is not appended. *)
Lemma method_is_never_appended :
  (HandleTopLevelDecl [methodM] ;;
   HandleTopLevelDeclInObjCContainer [methodM]) (newConsumer [])
  = Ok (tt, newConsumer [])
  /\ methodM ∉ LocalTUDecls (newConsumer []).
Proof.
  split; [reflexivity|]. intros H. by apply elem_of_nil in H.
Qed.

(** C10, counterexample.  The unit holds one function, __inline_memcpy,
    defined with a body in the main file, and inlining is enabled, so the
    visitor mode is Syntax.  The syntax pass of [HandleTranslationUnit]
    runs the declaration-level structural checkers on it: the function is
    not left without structural analysis.  The call-graph loop, which does
    not look at the name, then hands it to [HandleCode] with the Path mode,
    and the engine runs on it. *)
Lemma inline_function_is_checked_as_declaration :
  let env := chainEnv NoRedundancy in
  let c0 := beforeTraversal env (newConsumer [inlineHelper]) in
  let c' := consumerOf (HandleTranslationUnit env (newConsumer [inlineHelper])) in
  declKind inlineHelper = FunctionDecl (Some "__inline_memcpy") true false
  /\ startswith "__inline_memcpy" "__inline" = true
  /\ isFromMainFile (SM env) (getLocation inlineHelper) = true
  /\ RecVisitorMode c0 = AM_Syntax
  /\ traverseLocalTUDecls env 1 c0
     = Ok (tt, set_Trace (Trace c0 ++ [runCheckersOnASTDecl 8%positive]) c0)
  /\ isStructuralCheck (runCheckersOnASTDecl 8%positive) = true
  /\ HandleTranslationUnit env (newConsumer [inlineHelper]) = Ok (tt, c')
  /\ Trace c' !! 1%nat = Some (runCheckersOnASTDecl 8%positive)
  /\ (runRoot <$> engineRuns (Trace c')) = [8%positive].
Proof.
  cbv zeta.
  split; [reflexivity|]. split; [reflexivity|]. split; [reflexivity|].
  split; [reflexivity|]. split; [vm_compute; reflexivity|].
  split; [reflexivity|]. split; [vm_compute; reflexivity|].
  split; vm_compute; reflexivity.
Qed.

(** C4, evaluated.  A group holding E is deserialized while A is walked and
    E is appended to the store; both loops stop at the three entries the
    store held when [HandleTranslationUnit] began: E stays in the store and
    no event of the unit is about E. *)
Example appended_declaration_is_not_visited :
  let env := chainEnv NoRedundancy in
  let c' := consumerOf (HandleTranslationUnit env chainUnitPending) in
  HandleTranslationUnit env chainUnitPending = Ok (tt, c')
  /\ LocalTUDecls c' = [declA; declB; declC; declE]
  /\ forallb (fun e => negb (analysesBodyOf (declID declE) e)) (Trace c')
     = true
  /\ forallb (fun e => match e with
                       | runCheckersOnASTDecl id =>
                           negb (bool_decide (id = declID declE))
                       | _ => true
                       end) (Trace c')
     = true.
Proof.
  cbv zeta.
  split; [vm_compute; reflexivity|]. split; [vm_compute; reflexivity|].
  split; vm_compute; reflexivity.
Qed.

(** C5, evaluated.  In a unit of 430 functions of 100000 basic blocks each,
    all visited, the two sums are 43000000, the percentage the design
    document prescribes is 100, and [HandleTranslationUnit] stores 0: the
    product 100 * 43000000 does not fit the [unsigned] it is computed in. *)
Theorem coverage_overflows_unsigned :
  let c' := consumerOf (HandleTranslationUnit bigUnitEnv bigUnit) in
  HandleTranslationUnit bigUnitEnv bigUnit = Ok (tt, c')
  /\ sumTotal (FunctionSummaries c') = 43000000
  /\ sumVisited (FunctionSummaries c') = 43000000
  /\ coveragePercentage 43000000 43000000 = 100
  /\ PercentReachableBlocks c' = 0.
Proof. vm_compute. repeat split. Qed.

(** * The theorems at concrete inputs *)

Lemma HandleDeclsCallGraph_schedule_witness :
  InliningMode (Opts (chainEnv NoRedundancy)) <> All
  /\ shouldInlineCall (Opts (chainEnv NoRedundancy)) = true
  /\ runOfA NoRedundancy
     = Ok (localsOf (runOfA NoRedundancy), consumerOf (runOfA NoRedundancy))
  /\ restWithE NoRedundancy
     = Ok (localsOf (restWithE NoRedundancy),
           consumerOf (restWithE NoRedundancy))
  /\ Trace (consumerOf (runOfA NoRedundancy))
     = Trace afterRoot
       ++ [ExprEngine_run 1%positive false Inline_All {[2%positive; 3%positive]}]
  /\ engineRunOfA
     ∈ engineRuns
         [ExprEngine_run 1%positive false Inline_All {[2%positive; 3%positive]}]
  /\ TopLevelRuns (localsOf (restWithE NoRedundancy))
     = TopLevelRuns (localsOf (runOfA NoRedundancy)) ++ [(declE, ∅)]
  /\ (declE, ∅) ∈ [(declE, (∅ : SetOfConstDecls))]
  /\ isa_ObjCMethodDecl declE = false
  /\ declID declE ∉ runInlined engineRunOfA.
Proof.
  assert (H1 : InliningMode (Opts (chainEnv NoRedundancy)) <> All)
    by discriminate.
  assert (H2 : shouldInlineCall (Opts (chainEnv NoRedundancy)) = true)
    by reflexivity.
  assert (H3 : runOfA NoRedundancy
               = Ok (localsOf (runOfA NoRedundancy),
                     consumerOf (runOfA NoRedundancy)))
    by (vm_compute; reflexivity).
  assert (H4 : restWithE NoRedundancy
               = Ok (localsOf (restWithE NoRedundancy),
                     consumerOf (restWithE NoRedundancy)))
    by (vm_compute; reflexivity).
  assert (H5 : Trace (consumerOf (runOfA NoRedundancy))
               = Trace afterRoot
                 ++ [ExprEngine_run 1%positive false Inline_All
                       {[2%positive; 3%positive]}])
    by (vm_compute; reflexivity).
  assert (H6 : engineRunOfA
               ∈ engineRuns
                   [ExprEngine_run 1%positive false Inline_All
                      {[2%positive; 3%positive]}])
    by (vm_compute; constructor).
  assert (H7 : TopLevelRuns (localsOf (restWithE NoRedundancy))
               = TopLevelRuns (localsOf (runOfA NoRedundancy)) ++ [(declE, ∅)])
    by (vm_compute; reflexivity).
  assert (H8 : (declE, ∅) ∈ [(declE, (∅ : SetOfConstDecls))])
    by constructor.
  assert (H9 : isa_ObjCMethodDecl declE = false) by reflexivity.
  repeat (split; [assumption|]).
  exact (proj2 (proj2 (proj2
           (HandleDeclsCallGraph_schedule (chainEnv NoRedundancy))))
           H1 H2 (Some declA) [Some declB; Some declC; Some declE]
           noLocals afterRoot
           (localsOf (runOfA NoRedundancy)) (consumerOf (runOfA NoRedundancy))
           (localsOf (restWithE NoRedundancy))
           (consumerOf (restWithE NoRedundancy))
           [ExprEngine_run 1%positive false Inline_All
              {[2%positive; 3%positive]}]
           [(declE, ∅)] engineRunOfA declE ∅
           H3 H4 H5 H6 H7 H8 H9).
Defined.

Lemma getInliningModeForFunction_top_level_witness :
  shouldInlineCall (Opts (chainEnv NoRedundancy)) = true
  /\ shouldSkipFunction methodCount {[9%positive]} ∅ = false
  /\ getInliningModeForFunction (chainEnv NoRedundancy) methodCount
       {[9%positive]} chainUnit
     = Ok (InliningModeOfTopLevelRun methodCount {[9%positive]}, chainUnit).
Proof.
  assert (H1 : shouldInlineCall (Opts (chainEnv NoRedundancy)) = true)
    by reflexivity.
  assert (H2 : shouldSkipFunction methodCount {[9%positive]} ∅ = false)
    by (vm_compute; reflexivity).
  split; [exact H1|]. split; [exact H2|].
  exact (getInliningModeForFunction_top_level (chainEnv NoRedundancy)
           methodCount {[9%positive]} ∅ chainUnit H1 H2).
Defined.

Lemma getModeForDecl_resolves_witness :
  0 <= 3 < 2 ^ UNSIGNED_BITS
  /\ getModeForDecl headerEnv inHeader 3 = ModeResolver headerEnv inHeader 3.
Proof.
  assert (H : 0 <= 3 < 2 ^ UNSIGNED_BITS) by (unfold UNSIGNED_BITS; lia).
  split; [exact H|].
  exact (getModeForDecl_resolves headerEnv inHeader 3 H).
Defined.

Lemma index_loops_follow_snapshot_witness :
  let env := chainEnv NoRedundancy in
  Z.of_nat (length [declA; declB; declC]) < 2 ^ UNSIGNED_BITS
  /\ LocalTUDecls chainUnitPending = [declA; declB; declC] ++ []
  /\ hasErrorOccurred env || hasFatalErrorOccurred env = false
  /\ HandleTranslationUnit env chainUnitPending
     = passesOver env [declA; declB; declC]
         (beforeTraversal env chainUnitPending)
  /\ LocalTUDecls (consumerOf (HandleTranslationUnit env chainUnitPending))
     = [declA; declB; declC; declE].
Proof.
  intros env.
  assert (H1 : Z.of_nat (length [declA; declB; declC]) < 2 ^ UNSIGNED_BITS)
    by (vm_compute; reflexivity).
  assert (H2 : LocalTUDecls chainUnitPending = [declA; declB; declC] ++ [])
    by reflexivity.
  assert (H3 : hasErrorOccurred env || hasFatalErrorOccurred env = false)
    by reflexivity.
  split; [exact H1|]. split; [exact H2|]. split; [exact H3|].
  split; [|vm_compute; reflexivity].
  exact (proj1 (proj2 (proj2 (proj2 (proj2 (proj2
           (index_loops_follow_snapshot env [declA; declB; declC] []
              chainUnitPending H1 H2))))) eq_refl H3)).
Defined.

Lemma no_path_sensitive_checkers_no_engine_run_witness :
  hasPathSensitiveCheckers noCheckersEnv = false
  /\ exists c', HandleTranslationUnit noCheckersEnv chainUnit = Ok (tt, c')
                /\ engineRuns (Trace c') = engineRuns (Trace chainUnit).
Proof.
  assert (H : hasPathSensitiveCheckers noCheckersEnv = false) by reflexivity.
  split; [exact H|].
  exact (proj2 (proj2 (no_path_sensitive_checkers_no_engine_run
                         noCheckersEnv H)) chainUnit).
Defined.

Lemma RunPathSensitiveChecks_runs_witness :
  is_Some (getCFG headerEnv declA)
  /\ RelaxedLiveVariables headerEnv declA = true
  /\ exists r c' new,
       RunPathSensitiveChecks headerEnv declA Inline_None None chainUnit
       = Ok (r, c')
       /\ Trace c' = Trace chainUnit ++ new
       /\ engineEvents (getGC headerEnv) declA Inline_None new
       /\ length (engineRuns new)
          = match getGC headerEnv with HybridGC => 2%nat | _ => 1%nat end.
Proof.
  assert (H1 : is_Some (getCFG headerEnv declA))
    by (exists {| CFG_size := 4 |}; reflexivity).
  assert (H2 : RelaxedLiveVariables headerEnv declA = true) by reflexivity.
  split; [exact H1|]. split; [exact H2|].
  exact (RunPathSensitiveChecks_runs headerEnv declA Inline_None None
           chainUnit H1 H2).
Defined.


Lemma storeTopLevelDecls_appends_non_methods_witness :
  methodM ∈ [declA; methodM; declB]
  /\ isa_ObjCMethodDecl methodM = true
  /\ (methodM ∉ LocalTUDecls (newConsumer []))
  /\ (methodM
      ∉ LocalTUDecls
          (set_LocalTUDecls
             (LocalTUDecls (newConsumer [])
              ++ filter isNotMethod [declA; methodM; declB])
             (newConsumer []))).
Proof.
  assert (H1 : methodM ∈ [declA; methodM; declB])
    by (constructor; constructor).
  assert (H2 : isa_ObjCMethodDecl methodM = true) by reflexivity.
  assert (H3 : methodM ∉ LocalTUDecls (newConsumer []))
    by (intros H; inversion H).
  split; [exact H1|]. split; [exact H2|]. split; [exact H3|].
  exact (proj2 (proj2 (proj2
           (storeTopLevelDecls_appends_non_methods
              [declA; methodM; declB] (newConsumer []))))
           methodM H1 H2 H3).
Defined.

Lemma VisitFunctionDecl_skips_inline_witness :
  let env := chainEnv NoRedundancy in
  let c := beforeTraversal env (newConsumer [inlineHelper]) in
  declKind inlineHelper = FunctionDecl (Some "__inline_memcpy") true false
  /\ startswith "__inline_memcpy" "__inline" = true
  /\ VisitFunctionDecl env inlineHelper c = Ok (true, c)
  /\ WalkUpFromDecl env inlineHelper c
     = Ok (true,
           if negb (Z.land (getModeForDecl env inlineHelper (RecVisitorMode c))
                      AM_Syntax =? 0)
           then set_Trace
                  (Trace c ++ [runCheckersOnASTDecl (declID inlineHelper)]) c
           else c).
Proof.
  intros env c.
  assert (H1 : declKind inlineHelper
               = FunctionDecl (Some "__inline_memcpy") true false)
    by reflexivity.
  assert (H2 : startswith "__inline_memcpy" "__inline" = true) by reflexivity.
  split; [exact H1|]. split; [exact H2|].
  pose proof (VisitFunctionDecl_skips_inline env inlineHelper
                "__inline_memcpy" true false c H1 H2) as H.
  split; [exact (proj1 H)|exact (proj1 (proj2 H))].
Defined.

(** * Further properties of the code *)

(** ** The diagnostic consumer *)

Section ClangDiagPathDiagConsumerProperties.

Import ClangDiagPathDiagConsumer.

Lemma TmpStr_app s1 s2 : TmpStr (s1 +:+ s2) = TmpStr s1 +:+ TmpStr s2.
Proof.
  induction s1 as [|ch s1 IH]; [done|].
  change (TmpStr (String ch (s1 +:+ s2)) = TmpStr (String ch s1) +:+ TmpStr s2).
  cbn [TmpStr]. rewrite IH. by destruct (Ascii.eqb ch "%").
Qed.

Lemma TmpStr_length desc :
  String.length (TmpStr desc) = (String.length desc + percents desc)%nat.
Proof.
  induction desc as [|ch desc IH]; cbn; [done|].
  destruct (Ascii.eqb ch "%"); cbn; rewrite IH; lia.
Qed.

Lemma literal_TmpStr desc : literal (TmpStr desc) = Some desc.
Proof.
  induction desc as [|ch desc IH]; cbn; [done|].
  destruct (Ascii.eqb ch "%") eqn:E; cbn.
  - apply Ascii.eqb_eq in E as ->. by rewrite IH.
  - by rewrite E, IH.
Qed.

(** X1.  The format string built from a description reads back, literally,
    as the description: every percent sign is doubled and no format
    specifier is left in it.  So two different descriptions never give the
    same format string. *)
Theorem TmpStr_reads_back_literally :
  (forall desc, literal (TmpStr desc) = Some desc)
  /\ (forall desc1 desc2, TmpStr desc1 = TmpStr desc2 -> desc1 = desc2).
Proof.
  split; [apply literal_TmpStr|].
  intros desc1 desc2 E.
  pose proof (literal_TmpStr desc1) as H1. rewrite E, literal_TmpStr in H1.
  by simplify_eq.
Qed.

(** X2.  The format string is longer than the description by the number of
    its percent signs; a description is copied unchanged exactly when it
    has none; and the format string of a concatenation is the
    concatenation of the format strings. *)
Theorem TmpStr_length_and_append :
  (forall desc,
      String.length (TmpStr desc)
      = (String.length desc + percents desc)%nat)
  /\ (forall desc, TmpStr desc = desc <-> percents desc = 0%nat)
  /\ (forall s1 s2, TmpStr (s1 +:+ s2) = TmpStr s1 +:+ TmpStr s2).
Proof.
  split; [apply TmpStr_length|]. split; [|apply TmpStr_app].
  intros desc. split.
  - intros E. pose proof (TmpStr_length desc) as H. rewrite E in H. lia.
  - induction desc as [|ch desc IH]; cbn; [done|].
    destruct (Ascii.eqb ch "%"); [done|]. intros H. by rewrite IH.
Qed.

(** X3.  Flushing diagnostics that all have a non-empty path keeps the
    reports already made and adds one report per diagnostic, in order: at
    the diagnostic's location, with the ranges of the last piece of its
    path, and with a format string that reads back as its short
    description.  A diagnostic with an empty path makes the flush fail on
    the access to the last piece. *)
Theorem FlushDiagnosticsImpl_reports Diags Diag :
  (Forall (fun PD => path PD <> []) Diags ->
   exists new,
     FlushDiagnosticsImpl Diags Diag = Ok (Diag ++ new)
     /\ Forall2 (fun PD R =>
                   Location R = getLocation PD
                   /\ literal (Format R) = Some (getShortDescription PD)
                   /\ exists back, last (path PD) = Some back
                                   /\ Ranges R = getRanges back)
          Diags new)
  /\ (Exists (fun PD => path PD = []) Diags ->
      FlushDiagnosticsImpl Diags Diag = Fail OutOfRange).
Proof.
  split.
  - intros Hall. revert Diag.
    induction Hall as [|PD Diags HPD _ IH]; intros Diag; cbn.
    + exists []. by rewrite app_nil_r.
    + destruct (last (path PD)) as [back|] eqn:Hback.
      2:{ apply last_None in Hback. done. }
      destruct (IH (Diag ++ [reportOf PD back])) as (new & E & Hnew).
      exists (reportOf PD back :: new). split.
      * fold (reportOf PD back). rewrite E. by rewrite <- app_assoc.
      * constructor; [|done]. cbn. split; [done|].
        split; [apply literal_TmpStr|]. by exists back.
  - intros Hex. revert Diag.
    induction Hex as [PD Diags HPD|PD Diags _ IH]; intros Diag; cbn.
    + by rewrite HPD.
    + destruct (last (path PD)); [apply IH|done].
Qed.

End ClangDiagPathDiagConsumerProperties.

(** ** The graph visualizer *)

Section UbigraphVizProperties.

Import UbigraphViz.

Lemma declared_app o1 o2 : declared (o1 ++ o2) = declared o1 ++ declared o2.
Proof. unfold declared. apply omap_app. Qed.

Lemma drawn_app o1 o2 : drawn (o1 ++ o2) = drawn o1 ++ drawn o2.
Proof. unfold drawn. apply omap_app. Qed.

Lemma replayable_app known o1 o2 :
  replayable known (o1 ++ o2)
  <-> replayable known o1 /\ replayable (known ++ declared o1) o2.
Proof.
  revert known. induction o1 as [|cmd o1 IH]; intros known; cbn.
  - rewrite app_nil_r. tauto.
  - destruct cmd; cbn; rewrite ?IH, <- ?app_assoc; cbn; tauto.
Qed.

Lemma elem_of_numbers (n : nat) ID :
  ID ∈ (Z.of_nat <$> seq 0 n) <-> 0 <= ID < Z.of_nat n.
Proof.
  rewrite list_elem_of_fmap. split.
  - intros (k & -> & Hk). apply elem_of_seq in Hk. lia.
  - intros H. exists (Z.to_nat ID). split; [lia|]. apply elem_of_seq. lia.
Qed.

Lemma Consistent_create : Consistent create.
Proof.
  split; cbn; try done; intros ? ? ? H; by rewrite lookup_empty in H.
Qed.

(** A new node gets the next vertex number and is declared. *)
Lemma Consistent_declare G N cmd :
  Consistent G -> VMap G !! N = None -> Cntr G + 1 < 2 ^ UNSIGNED_BITS ->
  cmd = vertex_root (Cntr G) \/ cmd = vertex (Cntr G) ->
  Consistent {| Out := Out G ++ [cmd];
                Cntr := to_unsigned (Cntr G + 1);
                VMap := <[N := Cntr G]> (VMap G) |}.
Proof.
  intros [Hsize Hbound Hinj Hdecl Hreplay] Hnew Hroom Hcmd.
  assert (Hnext : to_unsigned (Cntr G + 1) = Cntr G + 1).
  { apply to_unsigned_small. lia. }
  split; cbn.
  - rewrite Hnext, map_size_insert_None by done. lia.
  - intros N' ID H. rewrite Hnext.
    apply lookup_insert_Some in H as [[_ <-]|[_ H]]; [lia|].
    specialize (Hbound _ _ H). lia.
  - intros N1 N2 ID H1 H2.
    apply lookup_insert_Some in H1 as [[<- <-]|[Hne1 H1]];
      apply lookup_insert_Some in H2 as [[<- E]|[Hne2 H2]]; try done.
    + specialize (Hbound _ _ H2). lia.
    + specialize (Hbound _ _ H1). lia.
    + by eapply Hinj.
  - rewrite declared_app, Hdecl, map_size_insert_None, seq_S, fmap_app by done.
    f_equal. destruct Hcmd as [-> | ->]; cbn; by rewrite Hsize.
  - apply replayable_app. split; [done|]. cbn. rewrite Hdecl.
    assert (Cntr G ∉ Z.of_nat <$> seq 0 (size (VMap G))).
    { rewrite elem_of_numbers. lia. }
    by destruct Hcmd as [-> | ->].
Qed.

(** A command on vertices that were declared leaves the invariant. *)
Lemma Consistent_command G cmd :
  Consistent G ->
  (exists N ID, cmd = change_vertex_style ID /\ VMap G !! N = Some ID)
  \/ (exists N1 N2 ID1 ID2,
        cmd = edge ID1 ID2 /\ N1 <> N2
        /\ VMap G !! N1 = Some ID1 /\ VMap G !! N2 = Some ID2) ->
  Consistent {| Out := Out G ++ [cmd]; Cntr := Cntr G; VMap := VMap G |}.
Proof.
  intros [Hsize Hbound Hinj Hdecl Hreplay] Hcmd.
  assert (Hknown : forall N ID,
            VMap G !! N = Some ID -> ID ∈ Z.of_nat <$> seq 0 (size (VMap G))).
  { intros N ID H. apply elem_of_numbers. rewrite <- Hsize. by eapply Hbound. }
  split; cbn; try done.
  - rewrite declared_app, Hdecl.
    destruct Hcmd as [(N & ID & -> & _)|(N1 & N2 & ID1 & ID2 & -> & _)];
      cbn; by rewrite app_nil_r.
  - apply replayable_app. split; [done|]. cbn. rewrite Hdecl.
    destruct Hcmd as [(N & ID & -> & H)|(N1 & N2 & ID1 & ID2 & -> & Hne & H1 & H2)].
    + split; [by eapply Hknown|done].
    + split; [by eapply Hknown|]. split; [by eapply Hknown|].
      split; [|done]. intros <-. apply Hne. by eapply Hinj.
Qed.

(** What one call does, by cases on the two lookups. *)
Lemma AddEdge_cases Src Dst G :
  Src <> Dst ->
  exists G1 G2 SrcID DstID,
    AddEdge Src Dst G
    = Ok {| Out := Out G2 ++ [edge SrcID DstID];
            Cntr := Cntr G2; VMap := VMap G2 |}
    /\ VMap G1 !! Src = Some SrcID
    /\ VMap G2 !! Src = Some SrcID
    /\ VMap G2 !! Dst = Some DstID
    /\ match VMap G !! Src with
       | None =>
           SrcID = Cntr G
           /\ G1 = {| Out := Out G ++ [vertex_root (Cntr G)];
                      Cntr := to_unsigned (Cntr G + 1);
                      VMap := <[Src := Cntr G]> (VMap G) |}
       | Some ID => SrcID = ID /\ G1 = G
       end
    /\ match VMap G1 !! Dst with
       | None =>
           DstID = Cntr G1
           /\ G2 = {| Out := Out G1 ++ [vertex (Cntr G1)];
                      Cntr := to_unsigned (Cntr G1 + 1);
                      VMap := <[Dst := Cntr G1]> (VMap G1) |}
       | Some ID =>
           DstID = ID
           /\ G2 = {| Out := Out G1 ++ [change_vertex_style ID];
                      Cntr := Cntr G1; VMap := VMap G1 |}
       end.
Proof.
  intros Hne. unfold AddEdge. rewrite bool_decide_eq_false_2 by done.
  destruct (VMap G !! Src) as [SrcID|] eqn:HSrc.
  - destruct (VMap G !! Dst) as [DstID|] eqn:HDst.
    + eexists G, _, SrcID, DstID. split; [reflexivity|].
      rewrite HDst. cbn. by repeat split.
    + eexists G, _, SrcID, (Cntr G). split; [reflexivity|].
      rewrite HDst. cbn. rewrite lookup_insert_ne by done.
      rewrite lookup_insert_eq. by repeat split.
  - cbn [VMap].
    destruct (<[Src:=Cntr G]> (VMap G) !! Dst) as [DstID|] eqn:HDst.
    + eexists {| Out := Out G ++ [vertex_root (Cntr G)];
                 Cntr := to_unsigned (Cntr G + 1);
                 VMap := <[Src := Cntr G]> (VMap G) |}, _, (Cntr G), DstID.
      split; [reflexivity|].
      cbn. rewrite lookup_insert_eq, HDst. by repeat split.
    + eexists {| Out := Out G ++ [vertex_root (Cntr G)];
                 Cntr := to_unsigned (Cntr G + 1);
                 VMap := <[Src := Cntr G]> (VMap G) |}, _, (Cntr G), _.
      split; [reflexivity|].
      cbn. rewrite HDst. repeat split;
        first [ apply lookup_insert_eq
              | rewrite lookup_insert_ne by done; apply lookup_insert_eq ].
Qed.

Lemma AddEdge_spec Src Dst G :
  Src <> Dst ->
  exists G' SrcID DstID,
    AddEdge Src Dst G = Ok G'
    /\ VMap G' !! Src = Some SrcID
    /\ VMap G' !! Dst = Some DstID
    /\ drawn (Out G') = drawn (Out G) ++ [(SrcID, DstID)]
    /\ (forall N ID, VMap G !! N = Some ID -> VMap G' !! N = Some ID)
    /\ dom (VMap G') = dom (VMap G) ∪ {[Src; Dst]}.
Proof.
  intros Hne.
  destruct (AddEdge_cases Src Dst G Hne)
    as (G1 & G2 & SrcID & DstID & E & HS1 & HS2 & HD2 & H1 & H2).
  eexists _, SrcID, DstID. split; [exact E|]. cbn.
  split; [done|]. split; [done|].
  assert (Hstep1 : drawn (Out G1) = drawn (Out G)
                   /\ (forall N ID, VMap G !! N = Some ID -> VMap G1 !! N = Some ID)
                   /\ dom (VMap G1) = dom (VMap G) ∪ {[Src]}).
  { destruct (VMap G !! Src) as [ID|] eqn:HSrc.
    - destruct H1 as [_ ->]. split; [done|]. split; [done|].
      apply elem_of_dom_2 in HSrc. set_solver.
    - destruct H1 as [_ ->]. cbn. split.
      { rewrite drawn_app. cbn. by rewrite app_nil_r. }
      split; [|by rewrite dom_insert_L; set_solver].
      intros N ID H. rewrite lookup_insert_ne; [done|]. congruence. }
  destruct Hstep1 as (Hd1 & Hk1 & Hdom1).
  assert (Hstep2 : drawn (Out G2) = drawn (Out G1)
                   /\ (forall N ID, VMap G1 !! N = Some ID -> VMap G2 !! N = Some ID)
                   /\ dom (VMap G2) = dom (VMap G1) ∪ {[Dst]}).
  { destruct (VMap G1 !! Dst) as [ID|] eqn:HDst.
    - destruct H2 as [_ ->]. cbn. split.
      { rewrite drawn_app. cbn. by rewrite app_nil_r. }
      split; [done|]. apply elem_of_dom_2 in HDst. set_solver.
    - destruct H2 as [_ ->]. cbn. split.
      { rewrite drawn_app. cbn. by rewrite app_nil_r. }
      split; [|by rewrite dom_insert_L; set_solver].
      intros N ID H. rewrite lookup_insert_ne; [done|]. congruence. }
  destruct Hstep2 as (Hd2 & Hk2 & Hdom2).
  split; [by rewrite drawn_app, Hd2, Hd1|].
  split; [by auto|]. rewrite Hdom2, Hdom1. set_solver.
Qed.

Lemma AddEdge_Consistent Src Dst G G' :
  Consistent G -> Cntr G + 2 < 2 ^ UNSIGNED_BITS ->
  AddEdge Src Dst G = Ok G' ->
  Consistent G' /\ Cntr G <= Cntr G' <= Cntr G + 2.
Proof.
  intros HG Hroom H.
  destruct (decide (Src = Dst)) as [->|Hne].
  { unfold AddEdge in H. by rewrite bool_decide_eq_true_2 in H. }
  destruct (AddEdge_cases Src Dst G Hne)
    as (G1 & G2 & SrcID & DstID & E & HS1 & HS2 & HD2 & H1 & H2).
  rewrite E in H. simplify_eq.
  assert (Hnonneg : 0 <= Cntr G) by (rewrite (Cntr_size G HG); lia).
  assert (HG1 : Consistent G1 /\ Cntr G <= Cntr G1 <= Cntr G + 1).
  { destruct (VMap G !! Src) as [ID|] eqn:HSrc.
    - destruct H1 as [_ ->]. split; [done|lia].
    - destruct H1 as [_ ->]. split.
      + apply Consistent_declare; auto; lia.
      + cbn. rewrite to_unsigned_small; lia. }
  destruct HG1 as [HG1 Hc1].
  assert (HG2 : Consistent G2 /\ Cntr G1 <= Cntr G2 <= Cntr G1 + 1).
  { destruct (VMap G1 !! Dst) as [ID|] eqn:HDst.
    - destruct H2 as [_ ->]. split; [|cbn; lia].
      apply Consistent_command; [done|]. left. by exists Dst, ID.
    - destruct H2 as [_ ->]. split.
      + apply Consistent_declare; auto; lia.
      + cbn. rewrite to_unsigned_small; lia. }
  destruct HG2 as [HG2 Hc2]. split; [|cbn; lia].
  apply Consistent_command; [done|]. right. by exists Src, Dst, SrcID, DstID.
Qed.

(** X4.  A call fails exactly on a self-edge.  Any other call draws one
    edge, between the vertex numbers its two nodes have afterwards; the
    numbers handed out before the call stay, and only the two nodes of the
    call can get a number. *)
Theorem AddEdge_draws_one_edge Src Dst G :
  (Src = Dst ->
   AddEdge Src Dst G = Fail (AssertionFailed "Self-edges are not allowed."))
  /\ (Src <> Dst ->
      exists G' SrcID DstID,
        AddEdge Src Dst G = Ok G'
        /\ VMap G' !! Src = Some SrcID
        /\ VMap G' !! Dst = Some DstID
        /\ drawn (Out G') = drawn (Out G) ++ [(SrcID, DstID)]
        /\ (forall N ID, VMap G !! N = Some ID -> VMap G' !! N = Some ID)
        /\ dom (VMap G') = dom (VMap G) ∪ {[Src; Dst]}).
Proof.
  split.
  - intros ->. unfold AddEdge. by rewrite bool_decide_eq_true_2.
  - apply AddEdge_spec.
Qed.

(** X5.  The visualizer keeps its numbering consistent as long as the
    counter does not wrap: starting from the constructor (or from any
    consistent state), after any sequence of calls that leaves room for two
    new vertices per call, the vertex numbers handed out are exactly
    [0 .. Cntr - 1], no two nodes share a number, and the stream declares
    each number once, in increasing order and before any command that
    refers to it; no edge of the stream joins a vertex to itself. *)
Theorem AddEdges_keep_Consistent edges G G' :
  Consistent create
  /\ (Consistent G ->
      Cntr G + 2 * Z.of_nat (length edges) < 2 ^ UNSIGNED_BITS ->
      AddEdges edges G = Ok G' ->
      Consistent G').
Proof.
  split; [apply Consistent_create|].
  revert G. induction edges as [|[Src Dst] edges IH]; intros G HG Hroom H.
  - cbn in H. by simplify_eq.
  - cbn in H. cbn [length] in Hroom.
    destruct (AddEdge Src Dst G) as [G1|] eqn:E; [|done].
    apply AddEdge_Consistent in E as [HG1 Hc]; [|done|lia].
    apply (IH G1); [done|lia|done].
Qed.

(** X6.  A sequence of calls without self-edges never fails.  The edges
    it draws are the edges it was given, in order, each between the final
    vertex numbers of its two nodes; and the nodes that have a number at
    the end are those that had one before and the end points of the
    edges given. *)
Theorem AddEdges_draw_the_edges edges G :
  Forall (fun e => e.1 <> e.2) edges ->
  exists G' new,
    AddEdges edges G = Ok G'
    /\ drawn (Out G') = drawn (Out G) ++ new
    /\ Forall2 (fun e d => VMap G' !! e.1 = Some d.1
                           /\ VMap G' !! e.2 = Some d.2) edges new
    /\ dom (VMap G') = dom (VMap G) ∪ list_to_set (edges.*1 ++ edges.*2).
Proof.
  intros Hall. revert G.
  induction Hall as [|[Src Dst] edges Hne _ IH]; intros G.
  - exists G, []. cbn. rewrite app_nil_r. repeat split; [constructor|set_solver].
  - cbn in Hne.
    destruct (AddEdge_spec Src Dst G Hne)
      as (G1 & SrcID & DstID & E & HS & HD & Hdrawn & Hkept & Hdom).
    destruct (IH G1) as (G' & new & E' & Hdrawn' & Hnew & Hdom').
    assert (Hlater : forall N ID, VMap G1 !! N = Some ID -> VMap G' !! N = Some ID).
    { clear -E'. revert G1 E'. induction edges as [|[S' D'] edges IH];
        intros G1 E' N ID H; cbn in E'; [by simplify_eq|].
      destruct (AddEdge S' D' G1) as [G2|] eqn:E2; [|done].
      eapply IH; [exact E'|].
      destruct (decide (S' = D')) as [->|Hne'].
      { unfold AddEdge in E2. by rewrite bool_decide_eq_true_2 in E2. }
      destruct (AddEdge_spec S' D' G1 Hne') as (G2' & ? & ? & E3 & _ & _ & _ & Hk & _).
      rewrite E2 in E3. simplify_eq. by apply Hk. }
    exists G', ((SrcID, DstID) :: new). cbn. rewrite E. split; [done|].
    split; [by rewrite Hdrawn', Hdrawn, <- app_assoc|].
    split; [constructor; [split; by apply Hlater|done]|].
    rewrite Hdom', Hdom. rewrite !list_to_set_app_L. set_solver.
Qed.

End UbigraphVizProperties.

(** ** Frames for the further properties *)

#[global] Instance Kept_preorder {A} (f : AnalysisConsumer -> A) :
  PreOrder (Kept f).
Proof.
  split; [by intros c|]. intros c1 c2 c3. unfold Kept. congruence.
Qed.

#[global] Instance Adds_preorder P : PreOrder (Adds P).
Proof.
  split.
  - intros c. exists []. by rewrite app_nil_r.
  - intros c1 c2 c3 (n1 & E1 & H1) (n2 & E2 & H2). exists (n1 ++ n2).
    split; [by rewrite E2, E1, app_assoc|]. by apply Forall_app.
Qed.

#[global] Instance OnlyInlineNone_preorder : PreOrder OnlyInlineNone.
Proof.
  split.
  - intros c. split; [done|]. split; [done|]. reflexivity.
  - intros c1 c2 c3 (T1 & A1 & H1) (T2 & A2 & H2).
    split; [congruence|]. split; [congruence|]. by etrans.
Qed.

#[global] Instance SyntaxOnly_preorder : PreOrder SyntaxOnly.
Proof.
  split.
  - intros c Hc. split; [done|]. split; [reflexivity|done].
  - intros c1 c2 c3 H1 H2 Hc. destruct (H1 Hc) as (E1 & N1 & F1 & A1).
    destruct (H2 E1) as (E2 & N2 & F2 & A2).
    split; [done|]. split; [by etrans|]. split; congruence.
Qed.

Lemma Adds_emit (P : Event -> Prop) e c :
  P e -> Adds P c (set_Trace (Trace c ++ [e]) c).
Proof. intros He. exists [e]. split; [done|]. by constructor. Qed.

Lemma Adds_same_trace P c c' : Trace c' = Trace c -> Adds P c c'.
Proof. intros E. exists []. by rewrite app_nil_r. Qed.

Lemma OnlyInlineNone_same c c' :
  NumFunctionTopLevel c' = NumFunctionTopLevel c ->
  NumFunctionsAnalyzed c' = NumFunctionsAnalyzed c ->
  Trace c' = Trace c -> OnlyInlineNone c c'.
Proof. intros HT HA E. split; [done|]. split; [done|]. by apply Adds_same_trace. Qed.

Ltac kept_solve :=
  intros;
  first
    [ by (unfold Kept; cbn)
    | by (apply Adds_emit)
    | by (apply Adds_same_trace)
    | by (apply OnlyInlineNone_same)
    | frame_solve ].

Ltac kept_step :=
  first
    [ apply preserves_emit; first [apply _|kept_solve]
    | apply preserves_modify; first [apply _|kept_solve]
    | preserves_step ].

Ltac kept_auto := repeat kept_step.

Section MoreProperties.

Variable env : Collaborators.

(** ** [HandleCode], step by step *)

Lemma DisplayFunction_eq D Mode c :
  DisplayFunction env D Mode c
  = if displays env D then
      if (Mode =? 1) || (Mode =? 2) || (Mode =? 3)
      then Ok (tt, set_Trace (Trace c ++ displayed env D Mode) c)
      else Fail (AssertionFailed "Unexpected mode!")
    else Ok (tt, c).
Proof.
  unfold DisplayFunction, displays, displayed.
  destruct (AnalyzerDisplayProgress (Opts env)); [|done].
  destruct (PresumedLoc_isValid (SM env) (getLocation D)); [|done].
  cbn [negb andb]. change AM_Syntax with 1. change AM_Path with 2.
  change (Z.lor 1 2) with 3.
  unfold isa_FunctionDecl, isa_ObjCMethodDecl, isa_BlockDecl.
  destruct (Mode =? 1); [|destruct (Mode =? 2); [|destruct (Mode =? 3)]];
    destruct (declKind D);
    unfold emit; munfold; cbn; by rewrite <- ?app_assoc.
Qed.

Lemma ActionExprEngine_eq D gc IMode acc c :
  ActionExprEngine env D gc IMode acc c = Ok (engineStep env D IMode (acc, c) gc).
Proof.
  unfold engineStep, analyzable.
  destruct (getCFG env D) as [cfg|] eqn:Hcfg;
    [destruct (RelaxedLiveVariables env D) eqn:Hlive|].
  - rewrite ActionExprEngine_runs by eauto.
    by rewrite bool_decide_eq_true_2 by eauto.
  - rewrite ActionExprEngine_skips by auto. by rewrite andb_false_r.
  - rewrite ActionExprEngine_skips by auto.
    by rewrite bool_decide_eq_false_2 by (by intros [? ?]).
Qed.

Lemma RunPathSensitiveChecks_eq D IMode acc c :
  RunPathSensitiveChecks env D IMode acc c
  = Ok (foldl (engineStep env D IMode) (acc, c) (gcRuns env)).
Proof.
  unfold RunPathSensitiveChecks, gcRuns. destruct (getGC env); cbn.
  - apply ActionExprEngine_eq.
  - apply ActionExprEngine_eq.
  - unfold mbind, M_bind. rewrite ActionExprEngine_eq.
    destruct (engineStep env D IMode (acc, c) false) as [acc1 c1].
    apply ActionExprEngine_eq.
Qed.

Lemma HandleCode_eq D Mode IMode acc c :
  HandleCode env D Mode IMode acc c
  = if handled env D Mode then
      match DisplayFunction env D (getModeForDecl env D Mode) c with
      | Ok (_, c1) =>
          let c3 := checkBody D (getModeForDecl env D Mode)
                      (noteCFGSize env D c1) in
          if pathSensitive env D Mode then
            let st := foldl (engineStep env D IMode) (acc, c3) (gcRuns env) in
            Ok (st.1, countAnalyzed IMode st.2)
          else Ok (acc, c3)
      | Fail e => Fail e
      end
    else Ok (acc, c).
Proof.
  unfold HandleCode, pathSensitive, handled.
  destruct (hasBody D); [|done]. cbn [negb andb].
  destruct (getModeForDecl env D Mode =? AM_None); [done|]. cbn [negb andb].
  munfold.
  destruct (DisplayFunction env D (getModeForDecl env D Mode) c)
    as [[[] c1]|e]; [|done].
  unfold noteCFGSize, checkBody, countAnalyzed.
  destruct (getCFG env D) as [cfg|]; cbn.
  - destruct (negb (Z.land _ AM_Syntax =? 0)); cbn;
      (destruct (negb (Z.land _ AM_Path =? 0) && hasPathSensitiveCheckers env);
       [|done]);
      rewrite RunPathSensitiveChecks_eq;
      match goal with
      | |- context [foldl ?f ?a ?l] => destruct (foldl f a l) as [r c4]
      end; cbn; by destruct (bool_decide _).
  - destruct (negb (Z.land _ AM_Syntax =? 0)); cbn;
      (destruct (negb (Z.land _ AM_Path =? 0) && hasPathSensitiveCheckers env);
       [|done]);
      rewrite RunPathSensitiveChecks_eq;
      match goal with
      | |- context [foldl ?f ?a ?l] => destruct (foldl f a l) as [r c4]
      end; cbn; by destruct (bool_decide _).
Qed.

(** The engine actions add engine runs on [D] to the trace, and touch
    nothing but the trace and the function summaries. *)
Lemma engineSteps_trace D IMode gcs acc c :
  exists eng,
    Trace (foldl (engineStep env D IMode) (acc, c) gcs).2 = Trace c ++ eng
    /\ Forall (isEngineRunOf (declID D) IMode) eng
    /\ length eng = if analyzable env D then length gcs else 0%nat.
Proof.
  revert acc c. induction gcs as [|gc gcs IH]; intros acc c; cbn.
  - exists []. rewrite app_nil_r. split; [done|]. split; [done|].
    by destruct (analyzable env D).
  - unfold engineStep at 2. destruct (analyzable env D) eqn:Ha; cbn.
    + match goal with
      | |- context [foldl _ (?a, ?s) gcs] => destruct (IH a s) as (eng & E & HF & HL)
      end.
      cbn in E. eexists (_ :: eng). split; [by rewrite E, <- app_assoc|].
      split; [|by cbn; rewrite HL].
      constructor; [by eexists _, _|done].
    + destruct (IH acc c) as (eng & E & HF & HL). by exists eng.
Qed.

Lemma engineSteps_kept {A} (f : AnalysisConsumer -> A) D IMode gcs acc c :
  (forall t s, f (set_Trace t s) = f s) ->
  (forall FS s, f (set_FunctionSummaries FS s) = f s) ->
  f (foldl (engineStep env D IMode) (acc, c) gcs).2 = f c.
Proof.
  intros HT HFS. revert acc c. induction gcs as [|gc gcs IH]; intros acc c; cbn.
  - done.
  - unfold engineStep at 2. destruct (analyzable env D); cbn.
    + by rewrite IH, HT, HFS.
    + apply IH.
Qed.

Lemma gcRuns_length :
  length (gcRuns env) = match getGC env with HybridGC => 2%nat | _ => 1%nat end.
Proof. unfold gcRuns. by destruct (getGC env). Qed.

(** What one call of [HandleCode] adds to the trace, in order. *)
Lemma HandleCode_trace D Mode IMode acc c r c' :
  HandleCode env D Mode IMode acc c = Ok (r, c') ->
  exists eng,
    Trace c'
    = Trace c
      ++ (if handled env D Mode && displays env D
          then displayed env D (getModeForDecl env D Mode) else [])
      ++ (if handled env D Mode
             && negb (Z.land (getModeForDecl env D Mode) AM_Syntax =? 0)
          then [runCheckersOnASTBody (declID D)] else [])
      ++ eng
    /\ Forall (isEngineRunOf (declID D) IMode) eng
    /\ length eng
       = if pathSensitive env D Mode && analyzable env D
         then match getGC env with HybridGC => 2%nat | _ => 1%nat end
         else 0%nat.
Proof.
  rewrite HandleCode_eq. unfold pathSensitive.
  destruct (handled env D Mode); cbn [andb].
  2:{ intros H. simplify_eq. exists []. by rewrite !app_nil_r. }
  rewrite DisplayFunction_eq.
  set (Mode' := getModeForDecl env D Mode).
  assert (Hrest : forall c1 new,
    Trace c1 = Trace c ++ new ->
    (let c3 := checkBody D Mode' (noteCFGSize env D c1) in
     if negb (Z.land Mode' AM_Path =? 0) && hasPathSensitiveCheckers env
     then
       let st := foldl (engineStep env D IMode) (acc, c3) (gcRuns env) in
       Ok (st.1, countAnalyzed IMode st.2)
     else Ok (acc, c3)) = Ok (r, c') ->
    exists eng,
      Trace c'
      = Trace c ++ new
        ++ (if negb (Z.land Mode' AM_Syntax =? 0)
            then [runCheckersOnASTBody (declID D)] else [])
        ++ eng
      /\ Forall (isEngineRunOf (declID D) IMode) eng
      /\ length eng
         = if negb (Z.land Mode' AM_Path =? 0) && hasPathSensitiveCheckers env
              && analyzable env D
           then match getGC env with HybridGC => 2%nat | _ => 1%nat end
           else 0%nat).
  { intros c1 new E1. cbn zeta.
    assert (E3 : Trace (checkBody D Mode' (noteCFGSize env D c1))
                 = Trace c ++ new
                   ++ (if negb (Z.land Mode' AM_Syntax =? 0)
                       then [runCheckersOnASTBody (declID D)] else [])).
    { unfold checkBody, noteCFGSize.
      destruct (negb (Z.land Mode' AM_Syntax =? 0)), (getCFG env D); cbn;
        rewrite E1, <- ?app_assoc, ?app_nil_r; done. }
    destruct (negb (Z.land Mode' AM_Path =? 0) && hasPathSensitiveCheckers env);
      cbn [andb].
    - intros H. simplify_eq.
      destruct (engineSteps_trace D IMode (gcRuns env) acc
                  (checkBody D Mode' (noteCFGSize env D c1)))
        as (eng & E & HF & HL).
      exists eng. split; [|split; [done|by rewrite HL, gcRuns_length]].
      unfold countAnalyzed. destruct (bool_decide _); cbn;
        by rewrite E, E3, <- !app_assoc.
    - intros H. simplify_eq. exists []. by rewrite E3, !app_nil_r. }
  destruct (displays env D); cbn [andb].
  - destruct (_ || _); [|done]. apply Hrest. done.
  - intros H. apply (Hrest c []); [by rewrite app_nil_r|done].
Qed.

Lemma HandleCode_NumFunctionsAnalyzed D Mode IMode acc c r c' :
  HandleCode env D Mode IMode acc c = Ok (r, c') ->
  NumFunctionsAnalyzed c'
  = if pathSensitive env D Mode && bool_decide (IMode <> Inline_None)
    then to_unsigned (NumFunctionsAnalyzed c + 1)
    else NumFunctionsAnalyzed c.
Proof.
  rewrite HandleCode_eq. unfold pathSensitive.
  destruct (handled env D Mode); cbn [andb]; [|intros H; by simplify_eq].
  rewrite DisplayFunction_eq.
  assert (Hrest : forall c1,
    NumFunctionsAnalyzed
      (checkBody D (getModeForDecl env D Mode) (noteCFGSize env D c1))
    = NumFunctionsAnalyzed c1).
  { intros c1. unfold checkBody, noteCFGSize.
    by destruct (negb _), (getCFG env D). }
  assert (Hgoal : forall c1,
    NumFunctionsAnalyzed c1 = NumFunctionsAnalyzed c ->
    (let c3 := checkBody D (getModeForDecl env D Mode) (noteCFGSize env D c1) in
     if negb (Z.land (getModeForDecl env D Mode) AM_Path =? 0)
        && hasPathSensitiveCheckers env
     then
       let st := foldl (engineStep env D IMode) (acc, c3) (gcRuns env) in
       Ok (st.1, countAnalyzed IMode st.2)
     else Ok (acc, c3)) = Ok (r, c') ->
    NumFunctionsAnalyzed c'
    = if negb (Z.land (getModeForDecl env D Mode) AM_Path =? 0)
         && hasPathSensitiveCheckers env && bool_decide (IMode <> Inline_None)
      then to_unsigned (NumFunctionsAnalyzed c + 1)
      else NumFunctionsAnalyzed c).
  { intros c1 E1. cbn zeta. destruct (_ && hasPathSensitiveCheckers env);
      cbn [andb]; intros H; simplify_eq; [|by rewrite Hrest].
    unfold countAnalyzed. destruct (bool_decide _); cbn;
      by rewrite (engineSteps_kept NumFunctionsAnalyzed), Hrest, E1. }
  destruct (displays env D); [destruct (_ || _); [|done]|]; by apply Hgoal.
Qed.

(** X7.  [HandleCode] records the size of the control-flow graph of every
    declaration it handles, whether or not an analysis runs on it: the
    statistic becomes the larger of its old value and that size, and never
    decreases. *)
Theorem HandleCode_MaxCFGSize D Mode IMode acc c r c' :
  HandleCode env D Mode IMode acc c = Ok (r, c') ->
  MaxCFGSize c'
  = match (if handled env D Mode then getCFG env D else None) with
    | Some DeclCFG => Z.max (MaxCFGSize c) (CFG_size DeclCFG)
    | None => MaxCFGSize c
    end
  /\ MaxCFGSize c <= MaxCFGSize c'.
Proof.
  intros H.
  assert (E : MaxCFGSize c'
              = match (if handled env D Mode then getCFG env D else None) with
                | Some DeclCFG => Z.max (MaxCFGSize c) (CFG_size DeclCFG)
                | None => MaxCFGSize c
                end).
  { revert H. rewrite HandleCode_eq.
    destruct (handled env D Mode); [|intros H; by simplify_eq].
    rewrite DisplayFunction_eq.
    assert (Hgoal : forall c1,
      MaxCFGSize c1 = MaxCFGSize c ->
      (let c3 := checkBody D (getModeForDecl env D Mode) (noteCFGSize env D c1) in
       if pathSensitive env D Mode
       then
         let st := foldl (engineStep env D IMode) (acc, c3) (gcRuns env) in
         Ok (st.1, countAnalyzed IMode st.2)
       else Ok (acc, c3)) = Ok (r, c') ->
      MaxCFGSize c'
      = match getCFG env D with
        | Some DeclCFG => Z.max (MaxCFGSize c) (CFG_size DeclCFG)
        | None => MaxCFGSize c
        end).
    { intros c1 E1. cbn zeta.
      assert (E3 : MaxCFGSize (checkBody D (getModeForDecl env D Mode)
                                 (noteCFGSize env D c1))
                   = match getCFG env D with
                     | Some DeclCFG => Z.max (MaxCFGSize c) (CFG_size DeclCFG)
                     | None => MaxCFGSize c
                     end).
      { unfold checkBody, noteCFGSize.
        destruct (negb _), (getCFG env D) as [cfg|]; cbn; rewrite ?E1; try done;
          destruct (Z.ltb_spec (MaxCFGSize c) (CFG_size cfg)); lia. }
      destruct (pathSensitive env D Mode); intros H; simplify_eq; [|done].
      unfold countAnalyzed. destruct (bool_decide _); cbn;
        by rewrite (engineSteps_kept MaxCFGSize). }
    destruct (displays env D); [destruct (_ || _); [|done]|]; by apply Hgoal. }
  split; [done|]. rewrite E.
  destruct (if handled env D Mode then getCFG env D else None); lia.
Qed.

Lemma displayed_isDisplay D Mode :
  Forall (isDisplay (declID D)) (displayed env D Mode).
Proof.
  unfold displayed.
  destruct (Mode =? AM_Syntax), (Mode =? AM_Path), (_ || _), (isa_BlockDecl D);
    repeat constructor; by eexists.
Qed.

Lemma engineRuns_displayed D Mode : engineRuns (displayed env D Mode) = [].
Proof.
  pose proof (displayed_isDisplay D Mode) as H.
  induction H as [|e l [text ->] _ IH]; [done|]. exact IH.
Qed.

(** Without the path-sensitive checks, [HandleCode] returns its
    accumulator, runs no engine and leaves summaries and count. *)
Lemma HandleCode_not_pathSensitive D Mode IMode acc c r c' :
  pathSensitive env D Mode = false ->
  HandleCode env D Mode IMode acc c = Ok (r, c') ->
  r = acc /\ Quiet c c'
  /\ FunctionSummaries c' = FunctionSummaries c
  /\ NumFunctionsAnalyzed c' = NumFunctionsAnalyzed c
  /\ RecVisitorMode c' = RecVisitorMode c.
Proof.
  intros Hp. rewrite HandleCode_eq, Hp.
  destruct (handled env D Mode).
  2:{ intros H. simplify_eq. by repeat split. }
  rewrite DisplayFunction_eq.
  assert (Hgoal : forall c1,
    Quiet c c1 -> FunctionSummaries c1 = FunctionSummaries c ->
    NumFunctionsAnalyzed c1 = NumFunctionsAnalyzed c ->
    RecVisitorMode c1 = RecVisitorMode c ->
    Ok (acc, checkBody D (getModeForDecl env D Mode) (noteCFGSize env D c1))
    = Ok (r, c') ->
    r = acc /\ Quiet c c'
    /\ FunctionSummaries c' = FunctionSummaries c
    /\ NumFunctionsAnalyzed c' = NumFunctionsAnalyzed c
    /\ RecVisitorMode c' = RecVisitorMode c).
  { intros c1 HQ HFS HN HR H. simplify_eq. split; [done|].
    unfold checkBody, noteCFGSize.
    destruct (negb _), (getCFG env D); cbn; repeat split; try done;
      (etrans; [exact HQ|]); frame_solve. }
  destruct (displays env D).
  - destruct (_ || _); [|done]. apply Hgoal; try done.
    eexists. split; [done|]. apply engineRuns_displayed.
  - by apply Hgoal.
Qed.

(** The path bit is cleared outside the main file. *)
Lemma outsideMainFile_path_bit D Mode :
  outsideMainFile env D = true ->
  Z.land (getModeForDecl env D Mode) AM_Path = 0.
Proof.
  unfold outsideMainFile, getModeForDecl. intros ->.
  destruct (_ && _); [done|]. cbn zeta. destruct (_ || _); [done|].
  rewrite <- Z.land_assoc. change (Z.land _ AM_Path) with 0.
  apply Z.land_0_r.
Qed.

Lemma outsideMainFile_not_pathSensitive D Mode :
  outsideMainFile env D = true -> pathSensitive env D Mode = false.
Proof.
  intros H. unfold pathSensitive.
  rewrite (outsideMainFile_path_bit D Mode H). cbn.
  by rewrite andb_false_r.
Qed.

(** The events of [HandleCode] all satisfy a property that holds of the
    progress output, the body check and the engine runs on [D]. *)
Lemma HandleCode_Adds (P : Event -> Prop) D Mode IMode acc :
  (forall text, P (errs text (declID D))) ->
  (Z.land (getModeForDecl env D Mode) AM_Syntax <> 0 ->
   P (runCheckersOnASTBody (declID D))) ->
  (forall gc Inlined, P (ExprEngine_run (declID D) gc IMode Inlined)) ->
  preserves (Adds P) (HandleCode env D Mode IMode acc).
Proof.
  intros Herrs Hbody Hrun c r c' H.
  apply HandleCode_trace in H as (eng & E & Heng & _).
  eexists. split; [exact E|].
  apply Forall_app. split.
  { destruct (_ && _); [|done].
    eapply Forall_impl; [apply displayed_isDisplay|].
    intros e [text ->]. apply Herrs. }
  apply Forall_app. split.
  { destruct (handled env D Mode); [|done]. cbn [andb].
    destruct (Z.eqb_spec (Z.land (getModeForDecl env D Mode) AM_Syntax) 0);
      [done|]. constructor; [by apply Hbody|done]. }
  eapply Forall_impl; [exact Heng|]. intros e (gc & Inlined & ->). apply Hrun.
Qed.

Lemma HandleCode_Kept_NumFunctionTopLevel D Mode IMode acc :
  preserves (Kept NumFunctionTopLevel) (HandleCode env D Mode IMode acc).
Proof.
  unfold HandleCode, DisplayFunction, RunPathSensitiveChecks, ActionExprEngine.
  kept_auto.
Qed.

(** X8.  [HandleCode] counts a function as analysed exactly when it reaches
    the path-sensitive checks with an inlining mode other than inline-none:
    the declaration has a body, its resolved mode has the Path bit and a
    path-sensitive checker is registered.  The count does not look at the
    engine: a declaration without a control-flow graph, on which the engine
    never runs, is counted all the same. *)
Theorem HandleCode_counts_analyzed D Mode IMode acc c r c' :
  HandleCode env D Mode IMode acc c = Ok (r, c') ->
  NumFunctionsAnalyzed c'
  = (if pathSensitive env D Mode && bool_decide (IMode <> Inline_None)
     then to_unsigned (NumFunctionsAnalyzed c + 1)
     else NumFunctionsAnalyzed c)
  /\ (getCFG env D = None -> engineRuns (Trace c') = engineRuns (Trace c)).
Proof.
  intros H. split; [by eapply HandleCode_NumFunctionsAnalyzed|].
  intros Hcfg. apply HandleCode_trace in H as (eng & E & _ & HL).
  unfold analyzable in HL. rewrite Hcfg in HL.
  rewrite bool_decide_eq_false_2, andb_false_r in HL by (by intros [? ?]).
  apply nil_length_inv in HL as ->. rewrite E, !engineRuns_app.
  rewrite app_nil_r.
  assert (E1 : engineRuns (if handled env D Mode && displays env D
                           then displayed env D (getModeForDecl env D Mode)
                           else []) = []).
  { destruct (_ && _); [apply engineRuns_displayed|done]. }
  rewrite E1. cbn [app].
  destruct (handled env D Mode && negb _); cbn; by rewrite app_nil_r.
Qed.



(** ** The mode resolver *)

(** X11.  The mode resolver only clears bits: every bit of the resolved
    mode is a bit of the requested mode.  Resolving twice is resolving
    once.  Outside the main file, with analyze-all off, the resolved mode
    never has the Path bit. *)
Theorem getModeForDecl_only_clears_bits D Mode :
  (forall n, Z.testbit (getModeForDecl env D Mode) n = true ->
             Z.testbit Mode n = true)
  /\ getModeForDecl env D (getModeForDecl env D Mode) = getModeForDecl env D Mode
  /\ (outsideMainFile env D = true ->
      Z.testbit (getModeForDecl env D Mode) 1 = false).
Proof.
  split; [|split].
  - intros n. destruct (getModeForDecl_cases env D Mode) as [E|[E|E]]; rewrite E.
    + by rewrite Z.bits_0.
    + done.
    + rewrite Z.land_spec. by intros [? _]%andb_true_iff.
  - unfold getModeForDecl. destruct (_ && _); [done|]. cbn zeta.
    destruct (_ && _); [|done]. destruct (_ || _); [done|].
    by rewrite <- Z.land_assoc, Z.land_diag.
  - intros H. pose proof (outsideMainFile_path_bit D Mode H) as E.
    apply (f_equal (fun z => Z.testbit z 1)) in E.
    rewrite Z.land_spec in E. change (Z.testbit AM_Path 1) with true in E.
    by rewrite andb_true_r in E.
Qed.

Lemma excluded_AM_None D Mode :
  excluded env D = true -> getModeForDecl env D Mode = AM_None.
Proof.
  unfold excluded, getModeForDecl. intros H.
  destruct (negb (String.eqb (AnalyzeSpecificFunction (Opts env)) "")
            && _); [done|].
  cbn [orb] in H. cbn zeta.
  apply andb_true_iff in H as [-> ->]. done.
Qed.

Lemma not_handled D Mode IMode acc c :
  handled env D Mode = false -> HandleCode env D Mode IMode acc c = Ok (acc, c).
Proof. intros H. by rewrite HandleCode_eq, H. Qed.

(** X12.  A declaration is resolved to the empty mode whatever mode is
    requested exactly when it is excluded: a name filter is configured and
    its name is another (a block has no name, so no filter selects it), or
    it lies outside the main file, at an invalid location or in a system
    header, while analyze-all is off.  On an excluded declaration the
    visitor's callbacks run no checker and return true. *)
Theorem excluded_declarations_are_not_analyzed D :
  (excluded env D = true <-> forall Mode, getModeForDecl env D Mode = AM_None)
  /\ (AnalyzeSpecificFunction (Opts env) <> "" ->
      declKind D = BlockDecl -> excluded env D = true)
  /\ (excluded env D = true ->
      forall c, VisitorModeSet env c -> WalkUpFromDecl env D c = Ok (true, c)).
Proof.
  split; [split|split].
  - intros H Mode. by apply excluded_AM_None.
  - intros H. specialize (H AM_Syntax). revert H.
    unfold excluded, getModeForDecl.
    destruct (negb (String.eqb (AnalyzeSpecificFunction (Opts env)) "")
              && _); [done|].
    cbn [orb]. cbn zeta. destruct (_ && _); [|done]. by destruct (_ || _).
  - intros Hfilter Hkind. unfold excluded, getFunctionName. rewrite Hkind.
    apply String.eqb_neq in Hfilter as Hne. rewrite Hne. cbn [negb andb].
    destruct (String.eqb_spec "" (AnalyzeSpecificFunction (Opts env)));
      [congruence|done].
  - intros Hex c Hc.
    assert (Hcode : visitCode env D c = Ok (tt, c)).
    { unfold visitCode. munfold. rewrite Hc, visitorMode_assert.
      rewrite not_handled; [done|].
      unfold handled. rewrite excluded_AM_None by done. apply andb_false_r. }
    unfold WalkUpFromDecl. erewrite bind_Ok by apply VisitDecl_spec.
    rewrite excluded_AM_None by done. cbn [Z.land AM_None Z.eqb negb].
    unfold VisitFunctionDecl, VisitObjCMethodDecl, VisitBlockDecl.
    fold (visitCode env D).
    destruct (declKind D) as [II isDef isDep|Sel family isDef| |]; [| | |done].
    + destruct (match II with Some _ => _ | None => _ end); [done|].
      destruct (_ && _); [|done]. by erewrite bind_Ok by exact Hcode.
    + destruct isDef; [|done]. by erewrite bind_Ok by exact Hcode.
    + destruct (hasBody D); [|done]. by erewrite bind_Ok by exact Hcode.
Qed.

(** X13.  Outside the main file, with analyze-all off, no path-sensitive
    analysis runs: a top-level run requested by the call-graph pass returns
    at once and changes nothing, and for any requested mode [HandleCode]
    returns its accumulator, runs no engine, and leaves the function
    summaries and the count of analysed functions. *)
Theorem outside_main_file_no_path_analysis D :
  outsideMainFile env D = true ->
  (forall IMode acc c, HandleCode env D AM_Path IMode acc c = Ok (acc, c))
  /\ (forall Mode IMode acc c r c',
        HandleCode env D Mode IMode acc c = Ok (r, c') ->
        r = acc
        /\ engineRuns (Trace c') = engineRuns (Trace c)
        /\ FunctionSummaries c' = FunctionSummaries c
        /\ NumFunctionsAnalyzed c' = NumFunctionsAnalyzed c).
Proof.
  intros Hout. split.
  - intros IMode acc c. apply not_handled. unfold handled.
    assert (getModeForDecl env D AM_Path = AM_None) as ->; [|apply andb_false_r].
    revert Hout. unfold outsideMainFile, getModeForDecl. intros ->.
    destruct (_ && _); [done|]. cbn zeta. by destruct (_ || _).
  - intros Mode IMode acc c r c' H.
    apply HandleCode_not_pathSensitive in H as (-> & HQ & HFS & HN & _);
      [|by apply outsideMainFile_not_pathSensitive].
    split; [done|]. split; [by apply Quiet_NoEngineRun|done].
Qed.

(** ** Scheduling decisions *)

(** X14.  [getInliningModeForFunction] fails exactly on a declaration that
    is in [Visited] and is not a method (the assertion that only methods
    are re-analysed); [shouldSkipFunction] skips exactly these
    declarations, among others, so the loop never reaches the failure.  On
    any other declaration it returns, leaves the consumer unchanged, and
    gives inline-none whenever inlining is disabled. *)
Theorem getInliningModeForFunction_fails_on_visited_function D V :
  (declID D ∈ V -> isa_ObjCMethodDecl D = false ->
   (forall c, getInliningModeForFunction env D V c
              = Fail (AssertionFailed "We are only reanalyzing ObjCMethods."))
   /\ forall T, shouldSkipFunction D V T = true)
  /\ ((declID D ∉ V) \/ isa_ObjCMethodDecl D = true ->
      exists IMode,
        (forall c, getInliningModeForFunction env D V c = Ok (IMode, c))
        /\ (shouldInlineCall (Opts env) = false -> IMode = Inline_None)
        /\ (declID D ∉ V -> shouldInlineCall (Opts env) = true ->
            IMode = Inline_All)).
Proof.
  split.
  - intros HV Hm. split.
    + intros c. unfold getInliningModeForFunction.
      rewrite bool_decide_eq_true_2 by done. munfold. by rewrite Hm.
    + intros T. apply shouldSkipFunction_true. by right.
  - intros Hok. unfold getInliningModeForFunction.
    destruct (bool_decide_reflect (declID D ∈ V)) as [HV|HV].
    + destruct Hok as [?|Hm]; [done|]. munfold. rewrite Hm.
      unfold isa_ObjCMethodDecl in Hm.
      destruct (declKind D) as [| Sel family def | |]; try done.
      destruct (bool_decide (family <> OMF_init)).
      * exists Inline_None. by repeat split.
      * eexists. split; [done|]. split; [by intros ->|done].
    + eexists. split; [done|]. split; [by intros ->|by intros _ ->].
Qed.

(** ** Walks and loops with a frame *)

Lemma deliverDeserialized_frame (R : relation AnalysisConsumer) :
  (forall c, R c c) ->
  (forall c l p, R c (set_LocalTUDecls l (set_PendingDeserialization p c))) ->
  preserves R deliverDeserialized.
Proof.
  intros Hrefl HR c a c' H. rewrite deliverDeserialized_spec in H. simplify_eq.
  destruct (PendingDeserialization c); [apply Hrefl|apply HR].
Qed.

Section VisitorFrame.

Context (R : relation AnalysisConsumer) `{!PreOrder R}.
Hypothesis deliver_R : preserves R deliverDeserialized.
Hypothesis VisitDecl_R : forall D, preserves R (VisitDecl env D).
Hypothesis visitCode_R : forall D, preserves R (visitCode env D).

Lemma WalkUpFromDecl_frame D : preserves R (WalkUpFromDecl env D).
Proof.
  unfold WalkUpFromDecl.
  apply preserves_bind; [apply _|apply VisitDecl_R|intros [|]];
    [|apply preserves_ret; apply _].
  unfold VisitFunctionDecl, VisitObjCMethodDecl, VisitBlockDecl.
  fold (visitCode env D).
  repeat first [apply visitCode_R | preserves_step].
Qed.

Lemma TraverseDecl_frame D : preserves R (TraverseDecl env D).
Proof.
  induction D as [id kind body loc nested IH] using Decl_nested_ind.
  rewrite TraverseDecl_unfold.
  apply preserves_bind; [apply _|apply deliver_R|intros _].
  apply preserves_bind; [apply _|apply WalkUpFromDecl_frame|intros [|]];
    [|apply preserves_ret; apply _].
  cbn [nestedDecls]. induction IH as [|Child Ds HChild _ IHDs]; cbn.
  - apply preserves_ret; apply _.
  - apply preserves_bind; [apply _|apply HChild|intros [|]];
      [apply IHDs|apply preserves_ret; apply _].
Qed.

Lemma traverseLocalTUDecls_frame n : preserves R (traverseLocalTUDecls env n).
Proof.
  unfold traverseLocalTUDecls, for_unsigned.
  apply for_unsigned_from_preserves; [apply _|].
  intros i []. apply preserves_bind; [apply _|apply LocalTUDecls_at_preserves; apply _|].
  intros D. apply preserves_bind; [apply _|apply TraverseDecl_frame|].
  intros ?. apply preserves_ret; apply _.
Qed.

End VisitorFrame.

Section CallGraphFrame.

Context (R : relation AnalysisConsumer) `{!PreOrder R}.
Hypothesis deliver_R : preserves R deliverDeserialized.
Hypothesis count_R : forall c, R c (countTopLevel c).
Hypothesis HandleCode_R :
  forall D IMode acc, preserves R (HandleCode env D AM_Path IMode acc).

Lemma HandleDeclsCallGraph_node_frame N L :
  preserves R (HandleDeclsCallGraph_node env N L).
Proof.
  intros c L' c' H. apply HandleDeclsCallGraph_node_inv in H.
  destruct N as [D|]; [|destruct H as [_ ->]; apply count_R].
  destruct (shouldSkipFunction _ _ _); [destruct H as [_ ->]; apply count_R|].
  destruct H as (IMode & Tracked & _ & H & _).
  etrans; [apply count_R|]. by eapply HandleCode_R.
Qed.

Lemma HandleDeclsCallGraph_nodes_frame RPOT L :
  preserves R (HandleDeclsCallGraph_nodes env RPOT L).
Proof.
  revert L. induction RPOT as [|N RPOT IH]; intros L; cbn.
  - apply preserves_ret; apply _.
  - apply preserves_bind;
      [apply _|apply HandleDeclsCallGraph_node_frame|intros L'; apply IH].
Qed.

Lemma HandleDeclsCallGraph_frame n : preserves R (HandleDeclsCallGraph env n).
Proof.
  unfold HandleDeclsCallGraph.
  apply preserves_bind; [apply _| |intros CG; apply HandleDeclsCallGraph_nodes_frame].
  unfold buildCallGraph, for_unsigned.
  apply for_unsigned_from_preserves; [apply _|].
  intros i CG. apply preserves_bind; [apply _|apply LocalTUDecls_at_preserves; apply _|].
  intros D. apply preserves_bind; [apply _|apply deliver_R|].
  intros ?. apply preserves_ret; apply _.
Qed.

End CallGraphFrame.

(** The stages of [runPasses]. *)
Lemma runPasses_stages c c' :
  runPasses env c = Ok (tt, c') ->
  let n := to_unsigned (Z.of_nat (length (LocalTUDecls c))) in
  exists c1 c2,
    traverseLocalTUDecls env n c = Ok (tt, c1)
    /\ (if shouldInlineCall (Opts env)
        then exists L, HandleDeclsCallGraph env n c1 = Ok (L, c2)
        else c2 = c1)
    /\ countCoverage
         (set_Trace (Trace c2 ++ [runCheckersOnEndOfTranslationUnit]) c2)
       = Ok (tt, c').
Proof.
  unfold runPasses. intros H. cbn zeta.
  apply bind_inv in H as (n & c0 & H0 & H).
  assert (c0 = c /\ n = to_unsigned (Z.of_nat (length (LocalTUDecls c))))
    as [-> ->] by (munfold; by simplify_eq).
  apply bind_inv in H as ([] & c1 & H1 & H).
  apply bind_inv in H as (? & c2 & H2 & H).
  apply bind_inv in H as (? & c3 & H3 & H).
  assert (c3 = set_Trace (Trace c2 ++ [runCheckersOnEndOfTranslationUnit]) c2)
    as -> by (unfold emit in H3; munfold; by simplify_eq).
  exists c1, c2. split; [done|]. split; [|done].
  destruct (shouldInlineCall (Opts env)).
  - apply bind_inv in H2 as (L & c2' & H2 & E). munfold. simplify_eq.
    by exists L.
  - munfold. by simplify_eq.
Qed.

Lemma VisitDecl_Adds (P : Event -> Prop) D :
  (forall id, P (runCheckersOnASTDecl id)) -> preserves (Adds P) (VisitDecl env D).
Proof.
  intros HP c a c' H. rewrite VisitDecl_spec in H. simplify_eq.
  destruct (negb _); [by apply Adds_emit|reflexivity].
Qed.

Lemma visitCode_frame (R : relation AnalysisConsumer) `{!PreOrder R} D :
  (forall Mode, preserves R (HandleCode env D Mode Inline_None None)) ->
  preserves R (visitCode env D).
Proof.
  intros H. unfold visitCode.
  repeat first [apply H | preserves_step].
Qed.

Lemma countCoverage_Trace c c' :
  countCoverage c = Ok (tt, c') ->
  Trace c' = Trace c
  /\ NumFunctionTopLevel c' = NumFunctionTopLevel c
  /\ NumFunctionsAnalyzed c' = NumFunctionsAnalyzed c.
Proof.
  rewrite countCoverage_spec. intros H. simplify_eq. cbn zeta.
  by destruct (0 <? _).
Qed.

(** X15.  [HandleTranslationUnit] does nothing at all when the parse had an
    error.  Otherwise the checkers of the translation-unit declaration run
    first and the end-of-unit checkers last: the trace grows by the call on
    the unit's declaration, then the events of the two passes, none of
    which is the end-of-unit call, then the end-of-unit call. *)
Theorem HandleTranslationUnit_frames_the_checks c c' :
  HandleTranslationUnit env c = Ok (tt, c') ->
  if hasErrorOccurred env || hasFatalErrorOccurred env then c' = c
  else
    exists passes,
      Trace c'
      = Trace c ++ [runCheckersOnASTDecl (TranslationUnitDecl env)]
        ++ passes ++ [runCheckersOnEndOfTranslationUnit]
      /\ Forall notEndOfTranslationUnit passes.
Proof.
  rewrite HandleTranslationUnit_unfold.
  destruct (_ || _); [intros H; by simplify_eq|].
  intros H. apply runPasses_stages in H as (c1 & c2 & H1 & H2 & H3).
  apply countCoverage_Trace in H3 as (E3 & _). cbn in E3.
  assert (Hdeliver : preserves (Adds notEndOfTranslationUnit) deliverDeserialized).
  { apply deliverDeserialized_frame; [reflexivity|].
    intros. by apply Adds_same_trace. }
  assert (HCode : forall D Mode IMode acc,
            preserves (Adds notEndOfTranslationUnit)
              (HandleCode env D Mode IMode acc)).
  { intros. by apply HandleCode_Adds. }
  apply (preserves_apply (Adds notEndOfTranslationUnit)) in H1.
  2:{ apply traverseLocalTUDecls_frame; [apply _|done| |].
      - intros D. by apply VisitDecl_Adds.
      - intros D. apply visitCode_frame; [apply _|]. intros. apply HCode. }
  assert (H12 : Adds notEndOfTranslationUnit (beforeTraversal env c) c2).
  { etrans; [exact H1|]. destruct (shouldInlineCall (Opts env)).
    - destruct H2 as [L H2]. revert H2. apply HandleDeclsCallGraph_frame.
      + apply _.
      + done.
      + intros. by apply Adds_same_trace.
      + intros. apply HCode.
    - subst c2. reflexivity. }
  destruct H12 as (passes & E & HF). exists passes. split; [|done].
  rewrite E3, E. cbn. by rewrite <- !app_assoc.
Qed.

Lemma Forall_inlineNoneRun new r :
  Forall inlineNoneRun new -> r ∈ engineRuns new -> runIMode r = Inline_None.
Proof.
  intros HF Hr. unfold engineRuns in Hr.
  apply list_elem_of_omap in Hr as (e & He & Hr).
  rewrite Forall_forall in HF. by apply (HF e He).
Qed.

(** X16.  With inlining disabled, [HandleTranslationUnit] runs the engine
    only with inline-none, and never counts: the number of functions at top
    level and the number of functions analysed are the same after it as
    before. *)
Theorem HandleTranslationUnit_without_inlining c c' :
  shouldInlineCall (Opts env) = false ->
  HandleTranslationUnit env c = Ok (tt, c') ->
  NumFunctionTopLevel c' = NumFunctionTopLevel c
  /\ NumFunctionsAnalyzed c' = NumFunctionsAnalyzed c
  /\ exists new,
       Trace c' = Trace c ++ new
       /\ forall r, r ∈ engineRuns new -> runIMode r = Inline_None.
Proof.
  intros Hinl. rewrite HandleTranslationUnit_unfold.
  destruct (_ || _).
  { intros H. simplify_eq. repeat split. exists []. rewrite app_nil_r.
    split; [done|]. intros r Hr. by apply elem_of_nil in Hr. }
  intros H. apply runPasses_stages in H as (c1 & c2 & H1 & H2 & H3).
  rewrite Hinl in H2. subst c2.
  apply countCoverage_Trace in H3 as (E3 & T3 & A3). cbn in E3, T3, A3.
  apply (preserves_apply OnlyInlineNone) in H1.
  2:{ apply traverseLocalTUDecls_frame; [apply _| | |].
      - apply deliverDeserialized_frame; [reflexivity|].
        intros. by apply OnlyInlineNone_same.
      - intros D c0 a c0' H. rewrite VisitDecl_spec in H. simplify_eq.
        destruct (negb _); [|reflexivity].
        split; [done|]. split; [done|]. by apply Adds_emit.
      - intros D. apply visitCode_frame; [apply _|]. intros Mode c0 r c0' H.
        split; [by eapply HandleCode_Kept_NumFunctionTopLevel|].
        split.
        + apply HandleCode_NumFunctionsAnalyzed in H.
          by rewrite bool_decide_eq_false_2, andb_false_r in H by (by intros ?).
        + revert H. apply HandleCode_Adds; try done.
          intros gc Inlined r' Hr. cbn in Hr. by simplify_eq. }
  destruct H1 as (T1 & A1 & new & E1 & HF). cbn in T1, A1, E1.
  split; [congruence|]. split; [congruence|].
  eexists. split; [by rewrite E3, E1, <- !app_assoc|].
  intros r Hr. rewrite !engineRuns_app in Hr. cbn in Hr.
  rewrite app_nil_r in Hr. by eapply Forall_inlineNoneRun.
Qed.

Lemma traverseLocalTUDecls_SyntaxOnly n :
  preserves SyntaxOnly (traverseLocalTUDecls env n).
Proof.
  apply traverseLocalTUDecls_frame; [apply _| | |].
  - apply deliverDeserialized_frame; [reflexivity|].
    intros c0 l p Hc0. split; [done|]. split; [|done].
    by apply Quiet_same_trace.
  - intros D c0 a c0' H0 Hc0. rewrite VisitDecl_spec in H0. simplify_eq.
    destruct (negb _).
    + split; [done|]. split; [|done].
      by exists [runCheckersOnASTDecl (declID D)].
    + split; [done|]. split; [reflexivity|done].
  - intros D c0 a c0' H0 Hc0. unfold visitCode in H0.
    apply bind_inv in H0 as (Mode & c1 & H1 & H0).
    assert (c1 = c0 /\ Mode = AM_Syntax) as [-> ->]
      by (munfold; by simplify_eq).
    apply bind_inv in H0 as (? & c2 & H2 & H0).
    assert (c2 = c0) as -> by (munfold; destruct (_ || _); by simplify_eq).
    apply bind_inv in H0 as (r & c3 & H3 & H0).
    assert (c3 = c0') as -> by (munfold; by simplify_eq).
    apply HandleCode_not_pathSensitive in H3 as (_ & HQ & HFS & HN & HR).
    + split; [congruence|]. by split.
    + unfold pathSensitive.
      assert (Z.land (getModeForDecl env D AM_Syntax) AM_Path = 0) as ->.
      { destruct (getModeForDecl_cases env D AM_Syntax) as [E|[E|E]];
          by rewrite E. }
      cbn. by rewrite andb_false_r.
Qed.

Lemma HandleDeclsCallGraph_notStructuralCheck n :
  preserves (Adds notStructuralCheck) (HandleDeclsCallGraph env n).
Proof.
  apply HandleDeclsCallGraph_frame; [apply _| | |].
  - apply deliverDeserialized_frame; [reflexivity|].
    intros. by apply Adds_same_trace.
  - intros. by apply Adds_same_trace.
  - intros D IMode acc. apply HandleCode_Adds; try done.
    intros Hbit. exfalso. apply Hbit.
    destruct (getModeForDecl_cases env D AM_Path) as [E|[E|E]]; by rewrite E.
Qed.

Lemma HandleDeclsCallGraph_RecVisitorMode n :
  preserves (Kept RecVisitorMode) (HandleDeclsCallGraph env n).
Proof.
  apply HandleDeclsCallGraph_frame; [apply _| | |].
  - apply deliverDeserialized_frame; [reflexivity|]. by intros.
  - by intros.
  - intros D IMode acc. eapply preserves_weaken; [|apply HandleCode_StoreKept].
    by intros c c' [? _].
Qed.

(** X17.  With inlining enabled, [HandleTranslationUnit] on a unit that
    parsed without error sets the visitor mode to Syntax, and leaves it so;
    what it adds to the trace is the check of the unit's declaration, then
    a purely structural part that holds no engine run, then a purely
    path-sensitive part that holds no structural check, then the
    end-of-unit checks.  Whenever the visitor mode is Syntax, the pass over
    the stored declarations records no engine run and leaves the function
    summaries and the count of analysed functions. *)
Theorem syntax_pass_runs_no_engine :
  (forall c c',
     shouldInlineCall (Opts env) = true ->
     hasErrorOccurred env || hasFatalErrorOccurred env = false ->
     HandleTranslationUnit env c = Ok (tt, c') ->
     RecVisitorMode c' = AM_Syntax
     /\ exists syntax path,
          Trace c'
          = Trace c ++ [runCheckersOnASTDecl (TranslationUnitDecl env)]
            ++ syntax ++ path ++ [runCheckersOnEndOfTranslationUnit]
          /\ engineRuns syntax = []
          /\ Forall notStructuralCheck path)
  /\ (forall n c c',
        RecVisitorMode c = AM_Syntax ->
        traverseLocalTUDecls env n c = Ok (tt, c') ->
        engineRuns (Trace c') = engineRuns (Trace c)
        /\ FunctionSummaries c' = FunctionSummaries c
        /\ NumFunctionsAnalyzed c' = NumFunctionsAnalyzed c).
Proof.
  split.
  - intros c c' Hinl Herr H.
    rewrite HandleTranslationUnit_unfold, Herr in H.
    apply runPasses_stages in H as (c1 & c2 & H1 & H2 & H3).
    rewrite Hinl in H2. destruct H2 as [L H2].
    assert (Hmode : RecVisitorMode (beforeTraversal env c) = AM_Syntax).
    { unfold beforeTraversal, visitorMode. by rewrite Hinl. }
    apply (preserves_apply SyntaxOnly) in H1;
      [|apply traverseLocalTUDecls_SyntaxOnly].
    destruct (H1 Hmode) as (M1 & (syntax & E1 & Q1) & _).
    assert (M2 : RecVisitorMode c2 = RecVisitorMode c1).
    { revert H2. apply HandleDeclsCallGraph_RecVisitorMode. }
    apply (preserves_apply (Adds notStructuralCheck)) in H2;
      [|apply HandleDeclsCallGraph_notStructuralCheck].
    destruct H2 as (path & E2 & HF).
    rewrite countCoverage_spec in H3. simplify_eq.
    split.
    + cbn zeta. destruct (0 <? _); cbn; congruence.
    + exists syntax, path. split; [|done].
      cbn zeta. destruct (0 <? _); cbn; rewrite E2, E1; cbn;
        by rewrite <- !app_assoc.
  - intros n c c' Hc H.
    apply (preserves_apply SyntaxOnly) in H;
      [|apply traverseLocalTUDecls_SyntaxOnly].
    destruct (H Hc) as (_ & HQ & ? & ?).
    split; [by apply Quiet_NoEngineRun|done].
Qed.

(** X18.  The call-graph pass is purely path-sensitive: it calls no
    structural checker, neither on a declaration nor on a body. *)
Theorem call_graph_pass_runs_no_structural_checker n c L c' :
  HandleDeclsCallGraph env n c = Ok (L, c') ->
  exists new,
    Trace c' = Trace c ++ new
    /\ forall e, e ∈ new -> isStructuralCheck e = false.
Proof.
  intros H. apply (preserves_apply (Adds notStructuralCheck)) in H.
  { destruct H as (new & E & HF). exists new. split; [done|].
    by apply Forall_forall. }
  apply HandleDeclsCallGraph_notStructuralCheck.
Qed.

(** ** The call-graph loop *)

Lemma shouldSkipFunction_mono D (V V' T T' : SetOfConstDecls) :
  V ⊆ V' -> T ⊆ T' ->
  shouldSkipFunction D V T = true -> shouldSkipFunction D V' T' = true.
Proof.
  intros HV HT. rewrite !shouldSkipFunction_true. set_solver.
Qed.

Lemma HandleDeclsCallGraph_node_grows N L c L' c' :
  HandleDeclsCallGraph_node env N L c = Ok (L', c') ->
  Visited L ⊆ Visited L'
  /\ VisitedAsTopLevel L ⊆ VisitedAsTopLevel L'
  /\ VisitedAsTopLevel L' ⊆ VisitedAsTopLevel L ∪ list_to_set (nodeIDs [N])
  /\ match N with
     | Some D =>
         shouldSkipFunction D (Visited L') (VisitedAsTopLevel L') = true
     | None => True
     end.
Proof.
  intros H. apply HandleDeclsCallGraph_node_inv in H.
  destruct N as [D|]; [|destruct H as [-> _]; repeat split; set_solver].
  destruct (shouldSkipFunction _ _ _) eqn:Hskip.
  - destruct H as [-> _]. repeat split; try done; set_solver.
  - destruct H as (IMode & Tracked & _ & _ & ->). cbn.
    repeat split; [set_solver|set_solver|set_solver|].
    apply shouldSkipFunction_true. left. set_solver.
Qed.

Lemma nodeIDs_cons N RPOT :
  list_to_set (C := SetOfConstDecls) (nodeIDs (N :: RPOT))
  = list_to_set (nodeIDs [N]) ∪ list_to_set (nodeIDs RPOT).
Proof. unfold nodeIDs. destruct N as [D|]; cbn; set_solver. Qed.

Lemma HandleDeclsCallGraph_nodes_grow RPOT L c L' c' :
  HandleDeclsCallGraph_nodes env RPOT L c = Ok (L', c') ->
  Visited L ⊆ Visited L'
  /\ VisitedAsTopLevel L ⊆ VisitedAsTopLevel L'
  /\ VisitedAsTopLevel L' ⊆ VisitedAsTopLevel L ∪ list_to_set (nodeIDs RPOT)
  /\ forall D, Some D ∈ RPOT ->
       shouldSkipFunction D (Visited L') (VisitedAsTopLevel L') = true.
Proof.
  revert L c. induction RPOT as [|N RPOT IH]; intros L c H; cbn in H.
  - munfold. simplify_eq. repeat split; try done; [set_solver|].
    intros D HD. by apply elem_of_nil in HD.
  - apply bind_inv in H as (L1 & c1 & H1 & H).
    apply HandleDeclsCallGraph_node_grows in H1 as (HV1 & HT1 & HB1 & HS1).
    apply IH in H as (HV & HT & HB & HS).
    split; [set_solver|]. split; [set_solver|]. split.
    { rewrite nodeIDs_cons. set_solver. }
    intros D HD. apply elem_of_cons in HD as [HD|HD]; [|by apply HS].
    subst N. by eapply shouldSkipFunction_mono.
Qed.

(** Over nodes that are all skipped the loop only counts. *)
Lemma HandleDeclsCallGraph_nodes_skipped RPOT L c :
  (forall D, Some D ∈ RPOT ->
     shouldSkipFunction D (Visited L) (VisitedAsTopLevel L) = true) ->
  exists c', HandleDeclsCallGraph_nodes env RPOT L c = Ok (L, c')
             /\ Trace c' = Trace c
             /\ FunctionSummaries c' = FunctionSummaries c.
Proof.
  revert c. induction RPOT as [|N RPOT IH]; intros c Hskip; cbn.
  - by exists c.
  - assert (H1 : HandleDeclsCallGraph_node env N L c = Ok (L, countTopLevel c)).
    { unfold HandleDeclsCallGraph_node.
      erewrite bind_Ok by (munfold; reflexivity).
      destruct N as [D|]; [|done]. rewrite Hskip; [done|]. by left. }
    erewrite bind_Ok by exact H1.
    destruct (IH (countTopLevel c)) as (c' & H & E & EF).
    { intros D HD. apply Hskip. by right. }
    by exists c'.
Qed.

(** X19.  The sets of the call-graph loop only grow, so a declaration that
    would be skipped at some point is skipped from then on.  When the loop
    ends, every node of the traversal would be skipped: each was analysed
    at top level or explored while inlined; and only nodes of the
    traversal were analysed at top level.  Running the loop again over the
    same traversal with the final sets analyses nothing: it changes neither
    the sets nor the trace nor the function summaries. *)
Theorem HandleDeclsCallGraph_nodes_settle RPOT L c L' c' :
  HandleDeclsCallGraph_nodes env RPOT L c = Ok (L', c') ->
  Visited L ⊆ Visited L'
  /\ VisitedAsTopLevel L ⊆ VisitedAsTopLevel L'
  /\ VisitedAsTopLevel L' ⊆ VisitedAsTopLevel L ∪ list_to_set (nodeIDs RPOT)
  /\ (forall D,
        shouldSkipFunction D (Visited L) (VisitedAsTopLevel L) = true ->
        shouldSkipFunction D (Visited L') (VisitedAsTopLevel L') = true)
  /\ (forall D, Some D ∈ RPOT ->
        shouldSkipFunction D (Visited L') (VisitedAsTopLevel L') = true)
  /\ (forall c2, exists c3,
        HandleDeclsCallGraph_nodes env RPOT L' c2 = Ok (L', c3)
        /\ Trace c3 = Trace c2
        /\ FunctionSummaries c3 = FunctionSummaries c2).
Proof.
  intros H. apply HandleDeclsCallGraph_nodes_grow in H as (HV & HT & HB & HS).
  split; [done|]. split; [done|]. split; [done|]. split; [|split; [done|]].
  - intros D. by apply shouldSkipFunction_mono.
  - intros c2. by apply HandleDeclsCallGraph_nodes_skipped.
Qed.

Lemma incremented_S k n :
  incremented (S k) n = incremented k (to_unsigned (n + 1)).
Proof. unfold incremented. by rewrite Nat.iter_succ_r. Qed.

Lemma incremented_eq k n :
  (0 < k)%nat -> incremented k n = to_unsigned (n + Z.of_nat k).
Proof.
  intros Hk. destruct k as [|k]; [lia|clear Hk]. revert n.
  induction k as [|k IH]; intros n.
  - done.
  - rewrite incremented_S, IH, to_unsigned_add_l. f_equal. lia.
Qed.

Lemma HandleDeclsCallGraph_nodes_count RPOT L c L' c' :
  HandleDeclsCallGraph_nodes env RPOT L c = Ok (L', c') ->
  NumFunctionTopLevel c' = incremented (length RPOT) (NumFunctionTopLevel c)
  /\ exists (k : nat) later,
       TopLevelRuns L' = TopLevelRuns L ++ later
       /\ (k <= length later <= length RPOT)%nat
       /\ NumFunctionsAnalyzed c' = incremented k (NumFunctionsAnalyzed c).
Proof.
  revert L c. induction RPOT as [|N RPOT IH]; intros L c H; cbn in H.
  - munfold. simplify_eq. split; [done|]. exists 0%nat, [].
    by rewrite app_nil_r.
  - apply bind_inv in H as (L1 & c1 & H1 & H).
    apply IH in H as (HT & k & later & Hlater & Hk & HA).
    apply HandleDeclsCallGraph_node_inv in H1.
    assert (Hsame : L1 = L /\ c1 = countTopLevel c ->
      NumFunctionTopLevel c' = incremented (length (N :: RPOT)) (NumFunctionTopLevel c)
      /\ exists (k : nat) later,
           TopLevelRuns L' = TopLevelRuns L ++ later
           /\ (k <= length later <= length (N :: RPOT))%nat
           /\ NumFunctionsAnalyzed c' = incremented k (NumFunctionsAnalyzed c)).
    { intros [-> ->]. split; [cbn [length]; by rewrite incremented_S, HT|].
      exists k, later. split; [done|]. split; [cbn; lia|done]. }
    destruct N as [D|]; [|by apply Hsame].
    destruct (shouldSkipFunction _ _ _); [by apply Hsame|].
    destruct H1 as (IMode & Tracked & _ & H1 & ->).
    pose proof (HandleCode_Kept_NumFunctionTopLevel _ _ _ _ _ _ _ H1) as HT1.
    apply HandleCode_NumFunctionsAnalyzed in H1 as HA1.
    unfold Kept in HT1. cbn in HT1, HA1. split.
    { cbn [length]. by rewrite incremented_S, HT, HT1. }
    cbn in Hlater.
    destruct (pathSensitive env D AM_Path && bool_decide (IMode <> Inline_None)).
    + exists (S k), ((D, default ∅ Tracked) :: later).
      split; [by rewrite Hlater, <- app_assoc|]. split; [cbn; lia|].
      by rewrite incremented_S, HA, HA1.
    + exists k, ((D, default ∅ Tracked) :: later).
      split; [by rewrite Hlater, <- app_assoc|]. split; [cbn; lia|].
      by rewrite HA, HA1.
Qed.

(** X20.  The loop counts a function at top level for every node of the
    traversal, the root node and the skipped nodes included, before it
    decides anything about the node; it counts a function as analysed at
    most once per top-level run.  Both counters are [unsigned] and wrap. *)
Theorem HandleDeclsCallGraph_nodes_counters RPOT L c L' c' :
  HandleDeclsCallGraph_nodes env RPOT L c = Ok (L', c') ->
  NumFunctionTopLevel c' = incremented (length RPOT) (NumFunctionTopLevel c)
  /\ (RPOT <> [] ->
      NumFunctionTopLevel c'
      = (NumFunctionTopLevel c + Z.of_nat (length RPOT)) mod 2 ^ 32)
  /\ exists (k : nat) later,
       TopLevelRuns L' = TopLevelRuns L ++ later
       /\ (k <= length later <= length RPOT)%nat
       /\ NumFunctionsAnalyzed c' = incremented k (NumFunctionsAnalyzed c).
Proof.
  intros H. apply HandleDeclsCallGraph_nodes_count in H as (HT & HA).
  split; [done|]. split; [|done].
  intros Hne. rewrite HT, incremented_eq; [done|].
  destruct RPOT; [done|cbn; lia].
Qed.

(** X21.  When the configured inlining mode is All, no callee is tracked:
    [Visited] stays as it was, so starting from empty sets a node is
    skipped only if it was already analysed at top level, and at the end
    the declarations analysed at top level are exactly the declarations of
    the traversal, whatever the engine inlined. *)
Theorem HandleDeclsCallGraph_nodes_with_mode_All RPOT L c L' c' :
  InliningMode (Opts env) = All ->
  HandleDeclsCallGraph_nodes env RPOT L c = Ok (L', c') ->
  Visited L' = Visited L
  /\ (Visited L = ∅ ->
      VisitedAsTopLevel L'
      = VisitedAsTopLevel L ∪ list_to_set (nodeIDs RPOT)).
Proof.
  intros Hall. revert L c. induction RPOT as [|N RPOT IH]; intros L c H;
    cbn in H.
  - munfold. simplify_eq. split; [done|]. intros _. cbn. set_solver.
  - apply bind_inv in H as (L1 & c1 & H1 & H).
    apply IH in H as (HV & HT).
    apply HandleDeclsCallGraph_node_inv in H1.
    destruct N as [D|].
    { destruct (shouldSkipFunction _ _ _) eqn:Hskip.
      - destruct H1 as [-> _]. split; [done|]. intros HVe.
        rewrite HT by done. rewrite nodeIDs_cons.
        apply shouldSkipFunction_true in Hskip. cbn. set_solver.
      - destruct H1 as (IMode & Tracked & _ & H1 & ->).
        unfold calleeTracking in H1.
        rewrite bool_decide_eq_true_2 in H1 by done.
        apply HandleCode_untracked in H1 as ->. cbn in HV, HT.
        rewrite union_empty_r_L in HV, HT. split; [done|]. intros HVe.
        rewrite HT by done. rewrite nodeIDs_cons. cbn. set_solver. }
    destruct H1 as [-> _]. split; [done|]. intros HVe.
    rewrite HT by done. rewrite nodeIDs_cons. cbn. set_solver.
Qed.

(** ** Statistics and declarations without a definition *)

(** X22.  At the end of a unit without parse errors the block count is the
    sum of the summaries' totals.  When that sum fits an [unsigned] and one
    hundred times the sum of the visited counts does too, the percentage of
    reachable blocks is the floor of 100 * visited / total, a number
    between 0 and 100 when no summary visits more blocks than it has; and
    when the unit has no block at all, nothing is divided and the
    percentage is left as it was. *)
Theorem coverage_without_overflow c c' :
  hasErrorOccurred env || hasFatalErrorOccurred env = false ->
  HandleTranslationUnit env c = Ok (tt, c') ->
  let b := sumTotal (FunctionSummaries c') in
  let v := sumVisited (FunctionSummaries c') in
  0 <= b < 2 ^ UNSIGNED_BITS -> 0 <= v <= b -> 100 * v < 2 ^ UNSIGNED_BITS ->
  NumBlocksInAnalyzedFunctions c' = b
  /\ PercentReachableBlocks c'
     = (if 0 <? b then (100 * v) / b else PercentReachableBlocks c)
  /\ (0 < b -> 0 <= PercentReachableBlocks c' <= 100).
Proof.
  intros Herr H b v Hb Hv Hv100.
  pose proof (HandleTranslationUnit_coverage env c c' Herr H) as [Hblocks _].
  pose proof (HandleTranslationUnit_coverage_small env c c' Herr H Hb
                (proj1 Hv) Hv100) as Hpercent.
  fold b in Hblocks. rewrite to_unsigned_small in Hblocks by done.
  fold b v in Hpercent. unfold coveragePercentage in Hpercent.
  split; [done|]. split; [done|]. intros Hpos. rewrite Hpercent.
  destruct (Z.ltb_spec 0 b); [|lia]. split.
  - apply Z.div_pos; lia.
  - apply Z.div_le_upper_bound; lia.
Qed.

(** X23.  A declaration without a definition is never handed to
    [HandleCode]: a function that is not a definition or lies in a
    dependent context, a method that is not a definition, a block without
    a body, or a declaration of another kind.  The callbacks on it run at
    most the declaration-level checkers, return true and cannot fail,
    whatever the visitor mode is. *)
Theorem visitor_skips_undefined_declarations D c :
  match declKind D with
  | FunctionDecl _ isThisDeclarationADefinition isDependentContext =>
      isThisDeclarationADefinition && negb isDependentContext = false
  | ObjCMethodDecl _ _ isThisDeclarationADefinition =>
      isThisDeclarationADefinition = false
  | BlockDecl => hasBody D = false
  | OtherDecl => True
  end ->
  exists c',
    WalkUpFromDecl env D c = Ok (true, c')
    /\ (c' = c
        \/ c' = set_Trace (Trace c ++ [runCheckersOnASTDecl (declID D)]) c).
Proof.
  intros Hundef. unfold WalkUpFromDecl.
  erewrite bind_Ok by apply VisitDecl_spec.
  eexists. split.
  - unfold VisitFunctionDecl, VisitObjCMethodDecl, VisitBlockDecl.
    destruct (declKind D) as [II isDef isDep|Sel family isDef| |].
    + rewrite Hundef. by destruct (match II with Some _ => _ | None => _ end).
    + by rewrite Hundef.
    + by rewrite Hundef.
    + done.
  - destruct (negb _); [by right|by left].
Qed.

End MoreProperties.

(** * The further properties at concrete inputs *)

Example AddEdges_triangle_text :
  UbigraphViz.text
    (UbigraphViz.Out
       (UbigraphViz.graphOf
          (UbigraphViz.AddEdges UbigraphViz.triangle UbigraphViz.create)))
  = "('vertex_style_attribute', 0, ('shape', 'icosahedron'))
('vertex_style', 1, 0, ('shape', 'sphere'), ('color', '#ffcc66'), ('size', '1.5'))
('vertex', 0, ('color','#00ff00'))
('vertex', 1)
('edge', 0, 1, ('arrow','true'), ('oriented', 'true'))
('vertex', 2)
('edge', 1, 2, ('arrow','true'), ('oriented', 'true'))
('change_vertex_style', 2, 1)
('edge', 0, 2, ('arrow','true'), ('oriented', 'true'))
".
Proof. vm_compute. reflexivity. Qed.

Lemma TmpStr_reads_back_literally_witness :
  ClangDiagPathDiagConsumer.TmpStr "100%"
  = ClangDiagPathDiagConsumer.TmpStr "100%"
  /\ "100%" = "100%".
Proof.
  assert (H : ClangDiagPathDiagConsumer.TmpStr "100%"
              = ClangDiagPathDiagConsumer.TmpStr "100%") by reflexivity.
  split; [exact H|].
  exact (proj2 TmpStr_reads_back_literally "100%" "100%" H).
Defined.

Lemma TmpStr_length_and_append_witness :
  ClangDiagPathDiagConsumer.percents "no path" = 0%nat
  /\ ClangDiagPathDiagConsumer.TmpStr "no path" = "no path".
Proof.
  assert (H : ClangDiagPathDiagConsumer.percents "no path" = 0%nat)
    by reflexivity.
  split; [exact H|].
  exact (proj2 (proj1 (proj2 TmpStr_length_and_append) "no path") H).
Defined.

Lemma FlushDiagnosticsImpl_reports_witness :
  Forall (fun PD => ClangDiagPathDiagConsumer.path PD <> [])
    [ClangDiagPathDiagConsumer.leak; ClangDiagPathDiagConsumer.nullDereference]
  /\ Exists (fun PD => ClangDiagPathDiagConsumer.path PD = [])
       [ClangDiagPathDiagConsumer.leak; ClangDiagPathDiagConsumer.withoutPath]
  /\ (exists new,
        ClangDiagPathDiagConsumer.FlushDiagnosticsImpl
          [ClangDiagPathDiagConsumer.leak;
           ClangDiagPathDiagConsumer.nullDereference] []
        = Ok ([] ++ new)
        /\ Forall2
             (fun PD R =>
                ClangDiagPathDiagConsumer.Location R
                = ClangDiagPathDiagConsumer.getLocation PD
                /\ ClangDiagPathDiagConsumer.literal
                     (ClangDiagPathDiagConsumer.Format R)
                   = Some (ClangDiagPathDiagConsumer.getShortDescription PD)
                /\ exists back,
                     last (ClangDiagPathDiagConsumer.path PD) = Some back
                     /\ ClangDiagPathDiagConsumer.Ranges R
                        = ClangDiagPathDiagConsumer.getRanges back)
             [ClangDiagPathDiagConsumer.leak;
              ClangDiagPathDiagConsumer.nullDereference] new)
  /\ ClangDiagPathDiagConsumer.FlushDiagnosticsImpl
       [ClangDiagPathDiagConsumer.leak; ClangDiagPathDiagConsumer.withoutPath] []
     = Fail OutOfRange.
Proof.
  assert (H1 : Forall (fun PD => ClangDiagPathDiagConsumer.path PD <> [])
                 [ClangDiagPathDiagConsumer.leak;
                  ClangDiagPathDiagConsumer.nullDereference])
    by (repeat constructor; discriminate).
  assert (H2 : Exists (fun PD => ClangDiagPathDiagConsumer.path PD = [])
                 [ClangDiagPathDiagConsumer.leak;
                  ClangDiagPathDiagConsumer.withoutPath])
    by (right; left; reflexivity).
  split; [exact H1|]. split; [exact H2|]. split.
  - exact (proj1 (FlushDiagnosticsImpl_reports
                    [ClangDiagPathDiagConsumer.leak;
                     ClangDiagPathDiagConsumer.nullDereference] []) H1).
  - exact (proj2 (FlushDiagnosticsImpl_reports
                    [ClangDiagPathDiagConsumer.leak;
                     ClangDiagPathDiagConsumer.withoutPath] []) H2).
Defined.

Lemma AddEdge_draws_one_edge_witness :
  1%positive <> 2%positive
  /\ exists G' SrcID DstID,
       UbigraphViz.AddEdge 1%positive 2%positive UbigraphViz.create = Ok G'
       /\ UbigraphViz.VMap G' !! 1%positive = Some SrcID
       /\ UbigraphViz.VMap G' !! 2%positive = Some DstID
       /\ UbigraphViz.drawn (UbigraphViz.Out G')
          = UbigraphViz.drawn (UbigraphViz.Out UbigraphViz.create)
            ++ [(SrcID, DstID)]
       /\ (forall N ID,
             UbigraphViz.VMap UbigraphViz.create !! N = Some ID ->
             UbigraphViz.VMap G' !! N = Some ID)
       /\ dom (UbigraphViz.VMap G')
          = dom (UbigraphViz.VMap UbigraphViz.create)
            ∪ {[1%positive; 2%positive]}.
Proof.
  assert (H : 1%positive <> 2%positive) by discriminate.
  split; [exact H|].
  exact (proj2 (AddEdge_draws_one_edge 1%positive 2%positive
                  UbigraphViz.create) H).
Defined.

Lemma AddEdges_keep_Consistent_witness :
  UbigraphViz.Consistent UbigraphViz.create
  /\ UbigraphViz.Cntr UbigraphViz.create
     + 2 * Z.of_nat (length UbigraphViz.triangle) < 2 ^ UNSIGNED_BITS
  /\ UbigraphViz.AddEdges UbigraphViz.triangle UbigraphViz.create
     = Ok (UbigraphViz.graphOf
             (UbigraphViz.AddEdges UbigraphViz.triangle UbigraphViz.create))
  /\ UbigraphViz.Consistent
       (UbigraphViz.graphOf
          (UbigraphViz.AddEdges UbigraphViz.triangle UbigraphViz.create)).
Proof.
  pose proof (AddEdges_keep_Consistent UbigraphViz.triangle UbigraphViz.create
                (UbigraphViz.graphOf
                   (UbigraphViz.AddEdges UbigraphViz.triangle
                      UbigraphViz.create))) as [H1 H].
  assert (H2 : UbigraphViz.Cntr UbigraphViz.create
               + 2 * Z.of_nat (length UbigraphViz.triangle)
               < 2 ^ UNSIGNED_BITS) by (vm_compute; reflexivity).
  assert (H3 : UbigraphViz.AddEdges UbigraphViz.triangle UbigraphViz.create
               = Ok (UbigraphViz.graphOf
                       (UbigraphViz.AddEdges UbigraphViz.triangle
                          UbigraphViz.create)))
    by (vm_compute; reflexivity).
  split; [exact H1|]. split; [exact H2|]. split; [exact H3|].
  exact (H H1 H2 H3).
Defined.

Lemma AddEdges_draw_the_edges_witness :
  Forall (fun e => e.1 <> e.2) UbigraphViz.triangle
  /\ exists G' new,
       UbigraphViz.AddEdges UbigraphViz.triangle UbigraphViz.create = Ok G'
       /\ UbigraphViz.drawn (UbigraphViz.Out G')
          = UbigraphViz.drawn (UbigraphViz.Out UbigraphViz.create) ++ new
       /\ Forall2 (fun e d => UbigraphViz.VMap G' !! e.1 = Some d.1
                              /\ UbigraphViz.VMap G' !! e.2 = Some d.2)
            UbigraphViz.triangle new
       /\ dom (UbigraphViz.VMap G')
          = dom (UbigraphViz.VMap UbigraphViz.create)
            ∪ list_to_set (UbigraphViz.triangle.*1 ++ UbigraphViz.triangle.*2).
Proof.
  assert (H : Forall (fun e => e.1 <> e.2) UbigraphViz.triangle)
    by (repeat constructor; discriminate).
  split; [exact H|].
  exact (AddEdges_draw_the_edges UbigraphViz.triangle UbigraphViz.create H).
Defined.

Lemma HandleCode_MaxCFGSize_witness :
  topLevelRunOfA = Ok (valueOf None topLevelRunOfA, consumerOf topLevelRunOfA)
  /\ MaxCFGSize (consumerOf topLevelRunOfA)
     = match (if handled (chainEnv NoRedundancy) declA AM_Path
              then getCFG (chainEnv NoRedundancy) declA else None) with
       | Some DeclCFG => Z.max (MaxCFGSize chainUnit) (CFG_size DeclCFG)
       | None => MaxCFGSize chainUnit
       end
  /\ MaxCFGSize chainUnit <= MaxCFGSize (consumerOf topLevelRunOfA).
Proof.
  assert (H : topLevelRunOfA
              = Ok (valueOf None topLevelRunOfA, consumerOf topLevelRunOfA))
    by (vm_compute; reflexivity).
  split; [exact H|].
  exact (HandleCode_MaxCFGSize (chainEnv NoRedundancy) declA AM_Path
           Inline_All (Some ∅) chainUnit _ _ H).
Defined.

Lemma HandleCode_counts_analyzed_witness :
  topLevelRunOfA = Ok (valueOf None topLevelRunOfA, consumerOf topLevelRunOfA)
  /\ NumFunctionsAnalyzed (consumerOf topLevelRunOfA)
     = if pathSensitive (chainEnv NoRedundancy) declA AM_Path
          && bool_decide (Inline_All <> Inline_None)
       then to_unsigned (NumFunctionsAnalyzed chainUnit + 1)
       else NumFunctionsAnalyzed chainUnit.
Proof.
  assert (H : topLevelRunOfA
              = Ok (valueOf None topLevelRunOfA, consumerOf topLevelRunOfA))
    by (vm_compute; reflexivity).
  split; [exact H|].
  exact (proj1 (HandleCode_counts_analyzed (chainEnv NoRedundancy) declA
                  AM_Path Inline_All (Some ∅) chainUnit _ _ H)).
Defined.

(** The progress lines [DisplayFunction] writes for the function A in mode
    Path and for a block in mode Syntax|Path, operand by operand. *)
Example DisplayFunction_of_a_function :
  Trace (consumerOf (DisplayFunction progressEnv declA AM_Path chainUnit))
  = [errs "ANALYZE" 1%positive; errs " (Path)" 1%positive;
     errs ": " 1%positive; errs "main.c" 1%positive; errs " " 1%positive;
     errs "A" 1%positive; errs EOL 1%positive].
Proof. vm_compute. reflexivity. Qed.

Example DisplayFunction_of_a_block :
  Trace (consumerOf (DisplayFunction progressEnv aBlock 3 chainUnit))
  = [errs "ANALYZE" 11%positive; errs ": " 11%positive;
     errs "main.c" 11%positive; errs " " 11%positive;
     errs "block(line:" 11%positive; errs "1" 11%positive;
     errs ",col:" 11%positive; errs "1" 11%positive; errs EOL 11%positive].
Proof. vm_compute. reflexivity. Qed.



Lemma getModeForDecl_only_clears_bits_witness :
  outsideMainFile headerEnv inHeader = true
  /\ Z.testbit (getModeForDecl headerEnv inHeader 3) 1 = false.
Proof.
  assert (H : outsideMainFile headerEnv inHeader = true) by reflexivity.
  split; [exact H|].
  exact (proj2 (proj2 (getModeForDecl_only_clears_bits headerEnv inHeader 3)) H).
Defined.

Lemma excluded_declarations_are_not_analyzed_witness :
  AnalyzeSpecificFunction (Opts filterEnv) <> ""
  /\ declKind aBlock = BlockDecl
  /\ VisitorModeSet filterEnv (beforeTraversal filterEnv chainUnit)
  /\ excluded filterEnv aBlock = true
  /\ WalkUpFromDecl filterEnv aBlock (beforeTraversal filterEnv chainUnit)
     = Ok (true, beforeTraversal filterEnv chainUnit).
Proof.
  assert (H1 : AnalyzeSpecificFunction (Opts filterEnv) <> "") by discriminate.
  assert (H2 : declKind aBlock = BlockDecl) by reflexivity.
  assert (H3 : VisitorModeSet filterEnv (beforeTraversal filterEnv chainUnit))
    by reflexivity.
  pose proof (proj1 (proj2 (excluded_declarations_are_not_analyzed
                              filterEnv aBlock)) H1 H2) as H4.
  split; [exact H1|]. split; [exact H2|]. split; [exact H3|].
  split; [exact H4|].
  exact (proj2 (proj2 (excluded_declarations_are_not_analyzed
                         filterEnv aBlock)) H4 _ H3).
Defined.

Lemma outside_main_file_no_path_analysis_witness :
  outsideMainFile headerEnv inHeader = true
  /\ forall IMode acc c,
       HandleCode headerEnv inHeader AM_Path IMode acc c = Ok (acc, c).
Proof.
  assert (H : outsideMainFile headerEnv inHeader = true) by reflexivity.
  split; [exact H|].
  exact (proj1 (outside_main_file_no_path_analysis headerEnv inHeader H)).
Defined.

Lemma getInliningModeForFunction_fails_on_visited_function_witness :
  (declID declB ∈ ({[2%positive]} : SetOfConstDecls))
  /\ isa_ObjCMethodDecl declB = false
  /\ (forall c, getInliningModeForFunction (chainEnv NoRedundancy) declB
                  {[2%positive]} c
                = Fail (AssertionFailed "We are only reanalyzing ObjCMethods."))
  /\ forall T, shouldSkipFunction declB {[2%positive]} T = true.
Proof.
  assert (H1 : declID declB ∈ ({[2%positive]} : SetOfConstDecls))
    by (vm_compute; reflexivity).
  assert (H2 : isa_ObjCMethodDecl declB = false) by reflexivity.
  split; [exact H1|]. split; [exact H2|].
  exact (proj1 (getInliningModeForFunction_fails_on_visited_function
                  (chainEnv NoRedundancy) declB {[2%positive]}) H1 H2).
Defined.

Lemma HandleTranslationUnit_frames_the_checks_witness :
  HandleTranslationUnit (chainEnv NoRedundancy) chainUnit
  = Ok (tt, consumerOf (HandleTranslationUnit (chainEnv NoRedundancy) chainUnit))
  /\ exists passes,
       Trace (consumerOf
                (HandleTranslationUnit (chainEnv NoRedundancy) chainUnit))
       = Trace chainUnit
         ++ [runCheckersOnASTDecl (TranslationUnitDecl (chainEnv NoRedundancy))]
         ++ passes ++ [runCheckersOnEndOfTranslationUnit]
       /\ Forall notEndOfTranslationUnit passes.
Proof.
  assert (H : HandleTranslationUnit (chainEnv NoRedundancy) chainUnit
              = Ok (tt, consumerOf
                          (HandleTranslationUnit (chainEnv NoRedundancy)
                             chainUnit)))
    by (vm_compute; reflexivity).
  split; [exact H|].
  exact (HandleTranslationUnit_frames_the_checks (chainEnv NoRedundancy)
           chainUnit _ H).
Defined.

Lemma HandleTranslationUnit_without_inlining_witness :
  shouldInlineCall (Opts headerEnv) = false
  /\ HandleTranslationUnit headerEnv chainUnit
     = Ok (tt, consumerOf (HandleTranslationUnit headerEnv chainUnit))
  /\ NumFunctionTopLevel (consumerOf (HandleTranslationUnit headerEnv chainUnit))
     = NumFunctionTopLevel chainUnit
  /\ NumFunctionsAnalyzed (consumerOf (HandleTranslationUnit headerEnv chainUnit))
     = NumFunctionsAnalyzed chainUnit
  /\ exists new,
       Trace (consumerOf (HandleTranslationUnit headerEnv chainUnit))
       = Trace chainUnit ++ new
       /\ forall r, r ∈ engineRuns new -> runIMode r = Inline_None.
Proof.
  assert (H1 : shouldInlineCall (Opts headerEnv) = false) by reflexivity.
  assert (H2 : HandleTranslationUnit headerEnv chainUnit
               = Ok (tt, consumerOf (HandleTranslationUnit headerEnv chainUnit)))
    by (vm_compute; reflexivity).
  split; [exact H1|]. split; [exact H2|].
  exact (HandleTranslationUnit_without_inlining headerEnv chainUnit _ H1 H2).
Defined.

Lemma syntax_pass_runs_no_engine_witness :
  let env := chainEnv NoRedundancy in
  let c' := consumerOf (HandleTranslationUnit env chainUnit) in
  shouldInlineCall (Opts env) = true
  /\ hasErrorOccurred env || hasFatalErrorOccurred env = false
  /\ HandleTranslationUnit env chainUnit = Ok (tt, c')
  /\ RecVisitorMode c' = AM_Syntax
  /\ exists syntax path,
       Trace c'
       = Trace chainUnit ++ [runCheckersOnASTDecl (TranslationUnitDecl env)]
         ++ syntax ++ path ++ [runCheckersOnEndOfTranslationUnit]
       /\ engineRuns syntax = []
       /\ Forall notStructuralCheck path.
Proof.
  intros env c'.
  assert (H1 : shouldInlineCall (Opts env) = true) by reflexivity.
  assert (H2 : hasErrorOccurred env || hasFatalErrorOccurred env = false)
    by reflexivity.
  assert (H3 : HandleTranslationUnit env chainUnit = Ok (tt, c'))
    by (vm_compute; reflexivity).
  split; [exact H1|]. split; [exact H2|]. split; [exact H3|].
  exact (proj1 (syntax_pass_runs_no_engine env) chainUnit c' H1 H2 H3).
Defined.

Lemma call_graph_pass_runs_no_structural_checker_witness :
  callGraphPass NoRedundancy
  = Ok (localsOf (callGraphPass NoRedundancy),
        consumerOf (callGraphPass NoRedundancy))
  /\ exists new,
       Trace (consumerOf (callGraphPass NoRedundancy)) = Trace chainUnit ++ new
       /\ forall e, e ∈ new -> isStructuralCheck e = false.
Proof.
  assert (H : callGraphPass NoRedundancy
              = Ok (localsOf (callGraphPass NoRedundancy),
                    consumerOf (callGraphPass NoRedundancy)))
    by (vm_compute; reflexivity).
  split; [exact H|].
  exact (call_graph_pass_runs_no_structural_checker (chainEnv NoRedundancy)
           3 chainUnit _ _ H).
Defined.

Lemma HandleDeclsCallGraph_nodes_settle_witness :
  chainLoop NoRedundancy
  = Ok (localsOf (chainLoop NoRedundancy), consumerOf (chainLoop NoRedundancy))
  /\ forall D, Some D ∈ [None; Some declA; Some declB; Some declC] ->
       shouldSkipFunction D
         (Visited (localsOf (chainLoop NoRedundancy)))
         (VisitedAsTopLevel (localsOf (chainLoop NoRedundancy))) = true.
Proof.
  assert (H : chainLoop NoRedundancy
              = Ok (localsOf (chainLoop NoRedundancy),
                    consumerOf (chainLoop NoRedundancy)))
    by (vm_compute; reflexivity).
  split; [exact H|].
  exact (proj1 (proj2 (proj2 (proj2 (proj2
           (HandleDeclsCallGraph_nodes_settle (chainEnv NoRedundancy)
              [None; Some declA; Some declB; Some declC] noLocals chainUnit
              _ _ H)))))).
Defined.

Lemma HandleDeclsCallGraph_nodes_counters_witness :
  chainLoop NoRedundancy
  = Ok (localsOf (chainLoop NoRedundancy), consumerOf (chainLoop NoRedundancy))
  /\ NumFunctionTopLevel (consumerOf (chainLoop NoRedundancy))
     = incremented (length [None; Some declA; Some declB; Some declC])
         (NumFunctionTopLevel chainUnit).
Proof.
  assert (H : chainLoop NoRedundancy
              = Ok (localsOf (chainLoop NoRedundancy),
                    consumerOf (chainLoop NoRedundancy)))
    by (vm_compute; reflexivity).
  split; [exact H|].
  exact (proj1 (HandleDeclsCallGraph_nodes_counters (chainEnv NoRedundancy)
                  [None; Some declA; Some declB; Some declC] noLocals chainUnit
                  _ _ H)).
Defined.

Lemma HandleDeclsCallGraph_nodes_with_mode_All_witness :
  InliningMode (Opts (chainEnv All)) = All
  /\ chainLoop All = Ok (localsOf (chainLoop All), consumerOf (chainLoop All))
  /\ Visited noLocals = ∅
  /\ Visited (localsOf (chainLoop All)) = Visited noLocals
  /\ VisitedAsTopLevel (localsOf (chainLoop All))
     = VisitedAsTopLevel noLocals
       ∪ list_to_set (nodeIDs [None; Some declA; Some declB; Some declC]).
Proof.
  assert (H1 : InliningMode (Opts (chainEnv All)) = All) by reflexivity.
  assert (H2 : chainLoop All
               = Ok (localsOf (chainLoop All), consumerOf (chainLoop All)))
    by (vm_compute; reflexivity).
  assert (H3 : Visited noLocals = ∅) by reflexivity.
  pose proof (HandleDeclsCallGraph_nodes_with_mode_All (chainEnv All)
                [None; Some declA; Some declB; Some declC] noLocals chainUnit
                _ _ H1 H2) as [H4 H5].
  split; [exact H1|]. split; [exact H2|]. split; [exact H3|].
  split; [exact H4|]. exact (H5 H3).
Defined.

Lemma coverage_without_overflow_witness :
  hasErrorOccurred headerEnv || hasFatalErrorOccurred headerEnv = false
  /\ HandleTranslationUnit headerEnv chainUnit
     = Ok (tt, consumerOf (HandleTranslationUnit headerEnv chainUnit))
  /\ 0 <= sumTotal (FunctionSummaries
                      (consumerOf (HandleTranslationUnit headerEnv chainUnit)))
       < 2 ^ UNSIGNED_BITS
  /\ 0 <= sumVisited (FunctionSummaries
                        (consumerOf (HandleTranslationUnit headerEnv chainUnit)))
       <= sumTotal (FunctionSummaries
                      (consumerOf (HandleTranslationUnit headerEnv chainUnit)))
  /\ 100 * sumVisited (FunctionSummaries
                         (consumerOf (HandleTranslationUnit headerEnv chainUnit)))
     < 2 ^ UNSIGNED_BITS
  /\ NumBlocksInAnalyzedFunctions
       (consumerOf (HandleTranslationUnit headerEnv chainUnit))
     = sumTotal (FunctionSummaries
                   (consumerOf (HandleTranslationUnit headerEnv chainUnit))).
Proof.
  assert (H1 : hasErrorOccurred headerEnv || hasFatalErrorOccurred headerEnv
               = false) by reflexivity.
  assert (H2 : HandleTranslationUnit headerEnv chainUnit
               = Ok (tt, consumerOf (HandleTranslationUnit headerEnv chainUnit)))
    by (vm_compute; reflexivity).
  assert (H3 : 0 <= sumTotal (FunctionSummaries
                     (consumerOf (HandleTranslationUnit headerEnv chainUnit)))
               < 2 ^ UNSIGNED_BITS)
    by (vm_compute; split; [discriminate|reflexivity]).
  assert (H4 : 0 <= sumVisited (FunctionSummaries
                     (consumerOf (HandleTranslationUnit headerEnv chainUnit)))
               <= sumTotal (FunctionSummaries
                     (consumerOf (HandleTranslationUnit headerEnv chainUnit))))
    by (vm_compute; split; discriminate).
  assert (H5 : 100 * sumVisited (FunctionSummaries
                     (consumerOf (HandleTranslationUnit headerEnv chainUnit)))
               < 2 ^ UNSIGNED_BITS)
    by (vm_compute; reflexivity).
  split; [exact H1|]. split; [exact H2|]. split; [exact H3|].
  split; [exact H4|]. split; [exact H5|].
  exact (proj1 (coverage_without_overflow headerEnv chainUnit _ H1 H2 H3 H4 H5)).
Defined.

Lemma visitor_skips_undefined_declarations_witness :
  false && negb false = false
  /\ exists c',
       WalkUpFromDecl headerEnv prototype chainUnit = Ok (true, c')
       /\ (c' = chainUnit
           \/ c' = set_Trace
                     (Trace chainUnit ++ [runCheckersOnASTDecl (declID prototype)])
                     chainUnit).
Proof.
  assert (H : false && negb false = false) by reflexivity.
  split; [exact H|].
  exact (visitor_skips_undefined_declarations headerEnv prototype chainUnit H).
Defined.
